(** * Rack engine: a shallow embedding of [src/engine/Engine.cpp]

    The development follows the source file top to bottom: machine
    integers and pointers, the hybrid barrier, the engine's data model,
    the step kernel and the mutation API, and then the properties of each.
    Two further models take the places where threads meet: the loop of
    [Engine_stepModules] and one phase of the hybrid barrier, each under
    every interleaving of the threads' moves.

    Conventions.
    - A C++ [int] is a [Z] in the range [INT_MIN .. INT_MAX]; arithmetic on
      it is written with [wrap_int] (two's complement, as the compiled
      code behaves on the supported targets).  C++ leaves the overflow of
      a signed [int] undefined; the model gives it the wrapped value and
      the outcome [Ok], so what is said about calls that return carries the
      bounds that keep the ids within [int] wherever the result depends on
      them, and [Undefined] stands for null dereferences and indexing out
      of range only.
    - A [T*] is an [option addr]; [None] is [NULL].  Objects live in
      stores indexed by address, so two pointers to one object alias.
    - An [assert] that fails yields [AssertFail]; dereferencing [NULL] or
      indexing a vector out of range yields [Undefined]. *)

From Stdlib Require Import ZArith List Bool Lia Permutation ZifyBool.
From Stdlib Require Import Floats.SpecFloat.
Import ListNotations.
Local Open Scope Z_scope.

(** ** Machine integers *)

Definition INT_MAX : Z := 2147483647.
Definition INT_MIN : Z := -2147483648.

Definition wrap_int (z : Z) : Z := (z - INT_MIN) mod 4294967296 + INT_MIN.

Definition is_int (z : Z) : Prop := INT_MIN <= z <= INT_MAX.

(** ** Pointers and stores *)

Definition addr := positive.

(** [T*]: [None] is the null pointer. *)
Definition pointer := option addr.

Definition ptr_eqb (p q : pointer) : bool :=
  match p, q with
  | Some a, Some b => Pos.eqb a b
  | None, None => true
  | _, _ => false
  end.

Definition store (A : Type) := addr -> A.

Definition upd {A : Type} (st : store A) (p : addr) (x : A) : store A :=
  fun q => if Pos.eqb q p then x else st q.

(** [std::find(v.begin(), v.end(), p) != v.end()] *)
Definition mem (p : addr) (l : list addr) : bool := existsb (Pos.eqb p) l.

(** [v.erase(std::find(v.begin(), v.end(), p))]: the first occurrence goes. *)
Fixpoint erase (p : addr) (l : list addr) : list addr :=
  match l with
  | [] => []
  | q :: l' => if Pos.eqb q p then l' else q :: erase p l'
  end.

(** ** Results of a call *)

Inductive outcome (A : Type) : Type :=
| Ok (a : A)
| AssertFail
| Undefined.

Arguments Ok {A} a.
Arguments AssertFail {A}.
Arguments Undefined {A}.

Definition bind {A B : Type} (o : outcome A) (k : A -> outcome B) : outcome B :=
  match o with
  | Ok a => k a
  | AssertFail => AssertFail
  | Undefined => Undefined
  end.

Notation "x <- o ;; k" := (bind o (fun x => k))
  (at level 61, o at next level, right associativity).

(** [assert(b)] *)
Definition assert (b : bool) : outcome unit := if b then Ok tt else AssertFail.

(** [v[i]] on a [std::vector]: out of range is undefined behaviour. *)
Definition vec_get {A : Type} (v : list A) (i : Z) : outcome A :=
  if (0 <=? i) && (i <? Z.of_nat (length v)) then
    match nth_error v (Z.to_nat i) with
    | Some x => Ok x
    | None => Undefined
    end
  else Undefined.

Fixpoint replace_nth {A : Type} (v : list A) (n : nat) (x : A) : list A :=
  match v, n with
  | [], _ => []
  | _ :: v', O => x :: v'
  | y :: v', S n' => y :: replace_nth v' n' x
  end.

(** [v[i] = x] *)
Definition vec_set {A : Type} (v : list A) (i : Z) (x : A) : outcome (list A) :=
  if (0 <=? i) && (i <? Z.of_nat (length v)) then Ok (replace_nth v (Z.to_nat i) x)
  else Undefined.

(** ** HybridBarrier

    One thread's passage through [HybridBarrier::wait], as a machine over
    the barrier's fields.  No other thread runs: the machine tells what
    [wait] does to a barrier that nobody else touches meanwhile. *)

Module HybridBarrier.

Record t : Type := mk {
  count : Z;            (* std::atomic<int> *)
  total : Z;
  yield : bool;         (* std::atomic<bool> *)
  notified : nat        (* ghost: number of cv.notify_all() issued so far *)
}.

(** Where the calling thread stands inside [wait]. *)
Inductive pc : Type :=
| Entry       (* about to execute ++count *)
| Spinning    (* in the spin loop *)
| Blocked     (* in cv.wait(lock, [count == 0]) *)
| Returned.

Definition step (c : pc) (b : t) : pc * t :=
  match c with
  | Entry =>
      let id := wrap_int (count b + 1) in
      if id =? total b then
        (* last thread: end and reset the phase *)
        if yield b then
          (Returned, mk 0 (total b) false (S (notified b)))
        else
          (Returned, mk 0 (total b) (yield b) (notified b))
      else
        (Spinning, mk id (total b) (yield b) (notified b))
  | Spinning =>
      if yield b then (Blocked, b)
      else if count b =? 0 then (Returned, b)
      else (Spinning, b)                (* _mm_pause() *)
  | Blocked =>
      if count b =? 0 then (Returned, b) else (Blocked, b)
  | Returned => (Returned, b)
  end.

Fixpoint run (n : nat) (c : pc) (b : t) : pc * t :=
  match n with
  | O => (c, b)
  | S n' => let (c', b') := step c b in run n' c' b'
  end.

(** [wait()] returns after at most [n] steps, leaving the barrier as [b']. *)
Definition returns_within (n : nat) (b b' : t) : Prop :=
  run n Entry b = (Returned, b').

(** [wait()] is a no-op on [b]: it returns at once and [b] is as before. *)
Definition wait_is_noop (b : t) : Prop := returns_within 1 b b.

(** [wait()] never returns on [b] (as long as nobody else touches [b]). *)
Definition never_returns (b : t) : Prop :=
  forall n, fst (run n Entry b) <> Returned.

End HybridBarrier.

(** ** What the engine is built on

    Single-precision arithmetic, and the two types the engine never looks
    into: a port's plug lights and a module's own DSP data.  The engine's
    code is the same whatever these are (the build flushes denormals and
    relaxes IEEE rounding), so they are an interface; [binary32] below is
    the IEEE instance used to run the model. *)

Class Platform : Type := {
  float : Type;
  fadd : float -> float -> float;
  fsub : float -> float -> float;
  fmul : float -> float -> float;
  fdiv : float -> float -> float;
  feqb : float -> float -> bool;        (* operator== on float *)
  fzero : float;                        (* 0.f *)
  smoothLambda : float;                 (* 60.f *)
  cpuTau : float;                       (* 2.f *)
  Lights : Type;
  ModuleData : Type
}.

Section DataModel.
Context {P : Platform}.

(** *** Data model *)

Record Param : Type := mkParam {
  value : float
}.

(** Modelled from the spec: [Param::setValue] is declared in a header that
    is not part of the sources; the spec has it assign [param.value]. *)
Definition Param_setValue (x : float) (p : Param) : Param := mkParam x.

(** [Input] and [Output] are both ports. *)
Record Port : Type := mkPort {
  voltages : list float;
  channels : Z;
  active : bool;
  plugLights : Lights
}.

(** Modelled from the spec: [Port::setChannels] is declared in a header that
    is not part of the sources; the spec has it set the channel count,
    zeroing the voltages of the channels that go away. *)
Definition Port_setChannels (n : Z) (p : Port) : Port :=
  mkPort (firstn (Z.to_nat n) (voltages p)
            ++ repeat fzero (length (voltages p) - Z.to_nat n)%nat)
         n (active p) (plugLights p).

Record Expander : Type := mkExpander {
  Expander_moduleId : Z;
  Expander_module : pointer;
  producerMessage : pointer;            (* void* *)
  consumerMessage : pointer;            (* void* *)
  messageFlipRequested : bool
}.

(** [Module] *)
Record RackModule : Type := mkModule {
  Module_id : Z;
  params : list Param;
  inputs : list Port;
  outputs : list Port;
  bypass : bool;
  cpuTime : float;
  leftExpander : Expander;
  rightExpander : Expander;
  data : ModuleData
}.

Record Cable : Type := mkCable {
  Cable_id : Z;
  outputModule : pointer;
  outputId : Z;
  inputModule : pointer;
  inputId : Z
}.

Record ParamHandle : Type := mkParamHandle {
  ParamHandle_moduleId : Z;
  paramId : Z;
  ParamHandle_module : pointer
}.

(** Modelled from the spec: [ParamHandle::reset] is declared in a header
    that is not part of the sources; the spec has it clear the handle's
    target, that is the pair (moduleId, paramId) and the cached module. *)
Definition ParamHandle_reset (h : ParamHandle) : ParamHandle :=
  mkParamHandle (-1) 0 None.

Record ProcessArgs : Type := mkProcessArgs {
  args_sampleRate : float;
  args_sampleTime : float
}.

(** [Engine::Internal], without the threads and locks. *)
Record Internal : Type := mkInternal {
  modules : list addr;
  cables : list addr;
  paramHandles : list addr;
  paused : bool;
  running : bool;
  sampleRate : float;
  sampleTime : float;
  nextModuleId : Z;
  nextCableId : Z;
  smoothModule : pointer;
  smoothParamId : Z;
  smoothValue : float;
  workerModuleIndex : Z
}.

(** The engine together with the objects its pointers reach. *)
Record World : Type := mkWorld {
  internal : Internal;
  mods : store RackModule;
  cabs : store Cable;
  hdls : store ParamHandle
}.

(** *** Field updates *)

Definition set_modules (l : list addr) (i : Internal) : Internal :=
  mkInternal l (cables i) (paramHandles i) (paused i) (running i)
    (sampleRate i) (sampleTime i) (nextModuleId i) (nextCableId i)
    (smoothModule i) (smoothParamId i) (smoothValue i) (workerModuleIndex i).

Definition set_cables (l : list addr) (i : Internal) : Internal :=
  mkInternal (modules i) l (paramHandles i) (paused i) (running i)
    (sampleRate i) (sampleTime i) (nextModuleId i) (nextCableId i)
    (smoothModule i) (smoothParamId i) (smoothValue i) (workerModuleIndex i).

Definition set_paramHandles (l : list addr) (i : Internal) : Internal :=
  mkInternal (modules i) (cables i) l (paused i) (running i)
    (sampleRate i) (sampleTime i) (nextModuleId i) (nextCableId i)
    (smoothModule i) (smoothParamId i) (smoothValue i) (workerModuleIndex i).

Definition set_nextModuleId (n : Z) (i : Internal) : Internal :=
  mkInternal (modules i) (cables i) (paramHandles i) (paused i) (running i)
    (sampleRate i) (sampleTime i) n (nextCableId i)
    (smoothModule i) (smoothParamId i) (smoothValue i) (workerModuleIndex i).

Definition set_nextCableId (n : Z) (i : Internal) : Internal :=
  mkInternal (modules i) (cables i) (paramHandles i) (paused i) (running i)
    (sampleRate i) (sampleTime i) (nextModuleId i) n
    (smoothModule i) (smoothParamId i) (smoothValue i) (workerModuleIndex i).

Definition set_smoothModule (m : pointer) (i : Internal) : Internal :=
  mkInternal (modules i) (cables i) (paramHandles i) (paused i) (running i)
    (sampleRate i) (sampleTime i) (nextModuleId i) (nextCableId i)
    m (smoothParamId i) (smoothValue i) (workerModuleIndex i).

Definition set_smoothParamId (n : Z) (i : Internal) : Internal :=
  mkInternal (modules i) (cables i) (paramHandles i) (paused i) (running i)
    (sampleRate i) (sampleTime i) (nextModuleId i) (nextCableId i)
    (smoothModule i) n (smoothValue i) (workerModuleIndex i).

Definition set_smoothValue (x : float) (i : Internal) : Internal :=
  mkInternal (modules i) (cables i) (paramHandles i) (paused i) (running i)
    (sampleRate i) (sampleTime i) (nextModuleId i) (nextCableId i)
    (smoothModule i) (smoothParamId i) x (workerModuleIndex i).

Definition set_workerModuleIndex (n : Z) (i : Internal) : Internal :=
  mkInternal (modules i) (cables i) (paramHandles i) (paused i) (running i)
    (sampleRate i) (sampleTime i) (nextModuleId i) (nextCableId i)
    (smoothModule i) (smoothParamId i) (smoothValue i) n.

Definition with_internal (f : Internal -> Internal) (w : World) : World :=
  mkWorld (f (internal w)) (mods w) (cabs w) (hdls w).

Definition with_mods (st : store RackModule) (w : World) : World :=
  mkWorld (internal w) st (cabs w) (hdls w).

Definition with_cabs (st : store Cable) (w : World) : World :=
  mkWorld (internal w) (mods w) st (hdls w).

Definition with_hdls (st : store ParamHandle) (w : World) : World :=
  mkWorld (internal w) (mods w) (cabs w) st.

Definition set_Module_id (n : Z) (m : RackModule) : RackModule :=
  mkModule n (params m) (inputs m) (outputs m) (bypass m) (cpuTime m)
    (leftExpander m) (rightExpander m) (data m).

Definition set_params (l : list Param) (m : RackModule) : RackModule :=
  mkModule (Module_id m) l (inputs m) (outputs m) (bypass m) (cpuTime m)
    (leftExpander m) (rightExpander m) (data m).

Definition set_inputs (l : list Port) (m : RackModule) : RackModule :=
  mkModule (Module_id m) (params m) l (outputs m) (bypass m) (cpuTime m)
    (leftExpander m) (rightExpander m) (data m).

Definition set_outputs (l : list Port) (m : RackModule) : RackModule :=
  mkModule (Module_id m) (params m) (inputs m) l (bypass m) (cpuTime m)
    (leftExpander m) (rightExpander m) (data m).

Definition set_bypass (b : bool) (m : RackModule) : RackModule :=
  mkModule (Module_id m) (params m) (inputs m) (outputs m) b (cpuTime m)
    (leftExpander m) (rightExpander m) (data m).

Definition set_cpuTime (x : float) (m : RackModule) : RackModule :=
  mkModule (Module_id m) (params m) (inputs m) (outputs m) (bypass m) x
    (leftExpander m) (rightExpander m) (data m).

Definition set_leftExpander (e : Expander) (m : RackModule) : RackModule :=
  mkModule (Module_id m) (params m) (inputs m) (outputs m) (bypass m) (cpuTime m)
    e (rightExpander m) (data m).

Definition set_rightExpander (e : Expander) (m : RackModule) : RackModule :=
  mkModule (Module_id m) (params m) (inputs m) (outputs m) (bypass m) (cpuTime m)
    (leftExpander m) e (data m).

Definition set_active (b : bool) (p : Port) : Port :=
  mkPort (voltages p) (channels p) b (plugLights p).

Definition set_Cable_id (n : Z) (c : Cable) : Cable :=
  mkCable n (outputModule c) (outputId c) (inputModule c) (inputId c).

Definition set_ParamHandle_module (m : pointer) (h : ParamHandle) : ParamHandle :=
  mkParamHandle (ParamHandle_moduleId h) (paramId h) m.

End DataModel.

(** ** Code the engine calls but does not contain

    Module hooks, port lights and cable propagation are written by the
    modules and by other files.  They act on the modules' memory; the
    engine's own state is private to it.  [elapsed] stands for the duration
    the clock measures around [process] when the CPU meter is on. *)

Class Collaborators {P : Platform} : Type := {
  Module_process : ProcessArgs -> addr -> store RackModule -> store RackModule;
  Module_onAdd : addr -> store RackModule -> store RackModule;
  Module_onRemove : addr -> store RackModule -> store RackModule;
  Port_process : float -> Port -> Port;
  Cable_step : Cable -> store RackModule -> store RackModule;
  cpuMeter : bool;                      (* settings::cpuMeter *)
  elapsed : addr -> float
}.

Section Engine.
Context {P : Platform} {C : Collaborators}.

Fixpoint foldM {A B : Type} (f : A -> B -> outcome A) (l : list B) (a : A) : outcome A :=
  match l with
  | [] => Ok a
  | b :: l' => a' <- f a b ;; foldM f l' a'
  end.

(** *** Engine_stepModules (thread 0, no workers) *)

Definition stepModule (w : World) (m : addr) : World :=
  let sampleTime := sampleTime (internal w) in
  let processCtx := mkProcessArgs (sampleRate (internal w)) sampleTime in
  let st := mods w in
  let st1 :=
    if bypass (st m) then st
    else if cpuMeter then
      let st' := Module_process processCtx m st in
      let cpuTime' := elapsed m in
      upd st' m
        (set_cpuTime
           (fadd (cpuTime (st' m))
                 (fdiv (fmul (fsub cpuTime' (cpuTime (st' m))) sampleTime) cpuTau))
           (st' m))
    else Module_process processCtx m st in
  (* Iterate ports to step plug lights *)
  let st2 := upd st1 m (set_inputs (map (Port_process sampleTime) (inputs (st1 m))) (st1 m)) in
  let st3 := upd st2 m (set_outputs (map (Port_process sampleTime) (outputs (st2 m))) (st2 m)) in
  with_mods st3 w.

(** The loop [while (true) { int i = workerModuleIndex++; if (i >= modulesLen)
    break; ... }], over the modules not yet fetched. *)
Fixpoint Engine_stepModules_loop (rest : list addr) (w : World) : World :=
  let w' := with_internal
              (fun i => set_workerModuleIndex (wrap_int (workerModuleIndex i + 1)) i) w in
  match rest with
  | [] => w'
  | m :: rest' => Engine_stepModules_loop rest' (stepModule w' m)
  end.

Definition Engine_stepModules (w : World) : World :=
  Engine_stepModules_loop
    (skipn (Z.to_nat (workerModuleIndex (internal w))) (modules (internal w))) w.

(** *** Engine_step *)

(** [m->params[i] = p] *)
Definition store_param (w : World) (m : addr) (i : Z) (p : Param) : outcome World :=
  ps <- vec_set (params (mods w m)) i p ;;
  Ok (with_mods (upd (mods w) m (set_params ps (mods w m))) w).

(** Param smoothing *)
Definition Engine_step_smooth (w : World) : outcome World :=
  let smoothParamId := smoothParamId (internal w) in
  let smoothValue := smoothValue (internal w) in
  match smoothModule (internal w) with
  | Some m =>
      param <- vec_get (params (mods w m)) smoothParamId ;;
      let value := value param in
      let newValue :=
        fadd value (fmul (fmul (fsub smoothValue value) smoothLambda)
                         (sampleTime (internal w))) in
      if feqb value newValue then
        w1 <- store_param w m smoothParamId (Param_setValue smoothValue param) ;;
        Ok (with_internal (fun i => set_smoothParamId 0 (set_smoothModule None i)) w1)
      else
        store_param w m smoothParamId (mkParam newValue)
  | None => Ok w
  end.

(** Step cables *)
Definition Engine_step_cables (w : World) : World :=
  with_mods
    (fold_left (fun st c => Cable_step (cabs w c) st) (cables (internal w)) (mods w)) w.

Definition flipExpander (e : Expander) : Expander :=
  if messageFlipRequested e then
    mkExpander (Expander_moduleId e) (Expander_module e)
      (consumerMessage e) (producerMessage e) false
  else e.

Definition flipMessages (m : RackModule) : RackModule :=
  let m1 := set_leftExpander (flipExpander (leftExpander m)) m in
  set_rightExpander (flipExpander (rightExpander m1)) m1.

(** Flip messages for each module *)
Definition Engine_step_flip (w : World) : World :=
  with_mods
    (fold_left (fun st m => upd st m (flipMessages (st m))) (modules (internal w)) (mods w)) w.

(** Everything of [Engine_step] up to the message flip.  The two barrier
    rendezvous around [Engine_stepModules] synchronise the engine thread
    with the workers and write nothing but the barriers' own fields (see
    [HybridBarrier]); here the engine thread fetches every module itself. *)
Definition Engine_step_modules_and_cables (w : World) : outcome World :=
  w1 <- Engine_step_smooth w ;;
  let w2 := with_internal (set_workerModuleIndex 0) w1 in
  Ok (Engine_step_cables (Engine_stepModules w2)).

Definition Engine_step (w : World) : outcome World :=
  w1 <- Engine_step_modules_and_cables w ;;
  Ok (Engine_step_flip w1).

(** *** Modules *)

Definition addModule (w : World) (module : pointer) : outcome World :=
  match module with
  | None => AssertFail
  | Some m =>
      let i := internal w in
      (* Check that the module is not already added *)
      _ <- assert (negb (mem m (modules i))) ;;
      w1 <- (if Module_id (mods w m) <? 0 then
               (* Automatically assign ID *)
               Ok (with_internal (set_nextModuleId (wrap_int (nextModuleId i + 1)))
                     (with_mods (upd (mods w) m (set_Module_id (nextModuleId i) (mods w m))) w))
             else
               (* Manual ID: check that the ID is not already taken *)
               _ <- assert (forallb (fun q => negb (Module_id (mods w m) =? Module_id (mods w q)))
                              (modules i)) ;;
               Ok (if Module_id (mods w m) >=? nextModuleId i then
                     with_internal (set_nextModuleId (wrap_int (Module_id (mods w m) + 1))) w
                   else w)) ;;
      (* Add module *)
      let w2 := with_internal (fun i => set_modules (modules i ++ [m]) i) w1 in
      (* Trigger Add event *)
      let w3 := with_mods (Module_onAdd m (mods w2)) w2 in
      (* Update ParamHandles *)
      Ok (with_hdls
            (fold_left
               (fun st h =>
                  if ParamHandle_moduleId (st h) =? Module_id (mods w3 m)
                  then upd st h (set_ParamHandle_module (Some m) (st h))
                  else st)
               (paramHandles (internal w3)) (hdls w3)) w3)
  end.

Definition unlinkExpander (m : addr) (e : Expander) : Expander :=
  if ptr_eqb (Expander_module e) (Some m) then
    mkExpander (-1) None (producerMessage e) (consumerMessage e) (messageFlipRequested e)
  else e.

Definition unlinkExpanders (m : addr) (x : RackModule) : RackModule :=
  let x1 := set_leftExpander (unlinkExpander m (leftExpander x)) x in
  set_rightExpander (unlinkExpander m (rightExpander x1)) x1.

Definition removeModule (w : World) (module : pointer) : outcome World :=
  match module with
  | None => AssertFail
  | Some m =>
      (* Check that the module actually exists *)
      _ <- assert (mem m (modules (internal w))) ;;
      (* If a param is being smoothed on this module, stop smoothing it *)
      let w1 := if ptr_eqb (Some m) (smoothModule (internal w))
                then with_internal (set_smoothModule None) w else w in
      (* Check that all cables are disconnected *)
      _ <- assert (forallb
                     (fun c => negb (ptr_eqb (outputModule (cabs w1 c)) (Some m))
                               && negb (ptr_eqb (inputModule (cabs w1 c)) (Some m)))
                     (cables (internal w1))) ;;
      (* Update ParamHandles *)
      let w2 := with_hdls
                  (fold_left
                     (fun st h =>
                        if ParamHandle_moduleId (st h) =? Module_id (mods w1 m)
                        then upd st h (set_ParamHandle_module None (st h))
                        else st)
                     (paramHandles (internal w1)) (hdls w1)) w1 in
      (* Update expander pointers *)
      let w3 := with_mods
                  (fold_left (fun st q => upd st q (unlinkExpanders m (st q)))
                     (modules (internal w2)) (mods w2)) w2 in
      (* Trigger Remove event *)
      let w4 := with_mods (Module_onRemove m (mods w3)) w3 in
      (* Remove module *)
      Ok (with_internal (fun i => set_modules (erase m (modules i)) i) w4)
  end.

Fixpoint findModule (st : store RackModule) (l : list addr) (moduleId : Z) : pointer :=
  match l with
  | [] => None
  | m :: l' => if Module_id (st m) =? moduleId then Some m else findModule st l' moduleId
  end.

Definition getModule (w : World) (moduleId : Z) : pointer :=
  findModule (mods w) (modules (internal w)) moduleId.

Definition bypassModule (w : World) (module : pointer) (b : bool) : outcome World :=
  match module with
  | None => AssertFail
  | Some m =>
      let x := mods w m in
      let x1 :=
        if b then
          (* This also zeros all voltages *)
          set_cpuTime fzero (set_outputs (map (Port_setChannels 0) (outputs x)) x)
        else
          (* Set all outputs to 1 channel *)
          set_outputs (map (Port_setChannels 1) (outputs x)) x in
      Ok (with_mods (upd (mods w) m (set_bypass b x1)) w)
  end.

(** *** Cables *)

(** [m->outputs[i].active = true] and [m->inputs[i].active = true] *)
Definition activate_output (st : store RackModule) (m : pointer) (i : Z)
  : outcome (store RackModule) :=
  match m with
  | None => Undefined
  | Some a =>
      o <- vec_get (outputs (st a)) i ;;
      l <- vec_set (outputs (st a)) i (set_active true o) ;;
      Ok (upd st a (set_outputs l (st a)))
  end.

Definition activate_input (st : store RackModule) (m : pointer) (i : Z)
  : outcome (store RackModule) :=
  match m with
  | None => Undefined
  | Some a =>
      o <- vec_get (inputs (st a)) i ;;
      l <- vec_set (inputs (st a)) i (set_active true o) ;;
      Ok (upd st a (set_inputs l (st a)))
  end.

Definition deactivate_ports (x : RackModule) : RackModule :=
  let x1 := set_inputs (map (set_active false) (inputs x)) x in
  set_outputs (map (set_active false) (outputs x1)) x1.

Definition Engine_updateConnected (w : World) : outcome World :=
  (* Set everything to unconnected *)
  let st0 := fold_left (fun st m => upd st m (deactivate_ports (st m)))
               (modules (internal w)) (mods w) in
  (* Set inputs/outputs to active *)
  st1 <- foldM
           (fun st c =>
              st' <- activate_output st (outputModule (cabs w c)) (outputId (cabs w c)) ;;
              activate_input st' (inputModule (cabs w c)) (inputId (cabs w c)))
           (cables (internal w)) st0 ;;
  Ok (with_mods st1 w).

Definition is_null (p : pointer) : bool :=
  match p with None => true | Some _ => false end.

(** [cable2->inputModule == cable->inputModule && cable2->inputId == cable->inputId] *)
Definition same_input (c2 c : Cable) : bool :=
  ptr_eqb (inputModule c2) (inputModule c) && (inputId c2 =? inputId c).

Definition addCable (w : World) (cable : pointer) : outcome World :=
  match cable with
  | None => AssertFail
  | Some c =>
      let i := internal w in
      (* Check cable properties *)
      _ <- assert (negb (is_null (outputModule (cabs w c)))) ;;
      _ <- assert (negb (is_null (inputModule (cabs w c)))) ;;
      (* Check that the cable is not already added, and that the input is not
         already used by another cable *)
      _ <- assert (forallb
                     (fun c2 => negb (Pos.eqb c2 c)
                                && negb (same_input (cabs w c2) (cabs w c)))
                     (cables i)) ;;
      w1 <- (if Cable_id (cabs w c) <? 0 then
               (* Automatically assign ID *)
               Ok (with_internal (set_nextCableId (wrap_int (nextCableId i + 1)))
                     (with_cabs (upd (cabs w) c (set_Cable_id (nextCableId i) (cabs w c))) w))
             else
               (* Manual ID: check that the ID is not already taken *)
               _ <- assert (forallb (fun q => negb (Cable_id (cabs w c) =? Cable_id (cabs w q)))
                              (cables i)) ;;
               Ok (if Cable_id (cabs w c) >=? nextCableId i then
                     with_internal (set_nextCableId (wrap_int (Cable_id (cabs w c) + 1))) w
                   else w)) ;;
      (* Add the cable *)
      let w2 := with_internal (fun i => set_cables (cables i ++ [c]) i) w1 in
      Engine_updateConnected w2
  end.

(** *** Params *)

Definition getParam (w : World) (module : pointer) (paramId : Z) : outcome float :=
  match module with
  | None => Undefined
  | Some m => p <- vec_get (params (mods w m)) paramId ;; Ok (value p)
  end.

(** The stores [setSmoothParam] performs, one constructor per assignment. *)
Inductive write : Type :=
| W_param (m : pointer) (i : Z) (x : float)     (* m->params[i].value = x *)
| W_smoothParamId (i : Z)
| W_smoothValue (x : float)
| W_smoothModule (m : pointer).

Definition exec_write (w : World) (e : write) : outcome World :=
  match e with
  | W_param None _ _ => Undefined
  | W_param (Some m) i x => store_param w m i (mkParam x)
  | W_smoothParamId i => Ok (with_internal (set_smoothParamId i) w)
  | W_smoothValue x => Ok (with_internal (set_smoothValue x) w)
  | W_smoothModule m => Ok (with_internal (set_smoothModule m) w)
  end.

(** The stores of [setSmoothParam], in program order. *)
Definition setSmoothParam_writes (w : World) (module : pointer) (paramId : Z) (x : float)
  : list write :=
  let i := internal w in
  (* If another param is being smoothed, jump value *)
  (if negb (is_null (smoothModule i))
      && negb (ptr_eqb (smoothModule i) module && (smoothParamId i =? paramId))
   then [W_param (smoothModule i) (smoothParamId i) (smoothValue i)]
   else [])
  ++ [W_smoothParamId paramId; W_smoothValue x;
      (* Set this last so the above values are valid as soon as it is set *)
      W_smoothModule module].

Definition setSmoothParam (w : World) (module : pointer) (paramId : Z) (x : float)
  : outcome World :=
  foldM exec_write (setSmoothParam_writes w module paramId x) w.

Definition getSmoothParam (w : World) (module : pointer) (paramId : Z) : outcome float :=
  if ptr_eqb (smoothModule (internal w)) module && (smoothParamId (internal w) =? paramId)
  then Ok (smoothValue (internal w))
  else getParam w module paramId.

(** *** Param handles *)

Definition addParamHandle (w : World) (paramHandle : pointer) : outcome World :=
  match paramHandle with
  | None => Undefined
  | Some h =>
      (* Check that the ParamHandle is not already added *)
      _ <- assert (negb (mem h (paramHandles (internal w)))) ;;
      (* New ParamHandles must be blank *)
      _ <- assert (ParamHandle_moduleId (hdls w h) <? 0) ;;
      Ok (with_internal (fun i => set_paramHandles (paramHandles i ++ [h]) i) w)
  end.

(** Body of the loop "remove existing ParamHandles pointing to the same
    param", for the handle [p] of the set. *)
Definition reset_conflicting (h : addr) (moduleId paramId' : Z) (overwrite : bool)
    (st : store ParamHandle) (p : addr) : store ParamHandle :=
  if negb (Pos.eqb p h)
     && (ParamHandle_moduleId (st p) =? moduleId)
     && (paramId (st p) =? paramId')
  then
    if overwrite then upd st p (ParamHandle_reset (st p))
    else upd st h (ParamHandle_reset (st h))
  else st.

(** Body of the loop "find module with same moduleId", for the module [m]. *)
Definition bind_module (ms : store RackModule) (h : addr)
    (st : store ParamHandle) (m : addr) : store ParamHandle :=
  if Module_id (ms m) =? ParamHandle_moduleId (st h)
  then upd st h (set_ParamHandle_module (Some m) (st h))
  else st.

Definition updateParamHandle (w : World) (paramHandle : pointer)
    (moduleId paramId' : Z) (overwrite : bool) : outcome World :=
  match paramHandle with
  | None => Undefined
  | Some h =>
      (* Set IDs *)
      let st0 := upd (hdls w) h (mkParamHandle moduleId paramId' None) in
      if mem h (paramHandles (internal w)) && (ParamHandle_moduleId (st0 h) >=? 0) then
        (* Remove existing ParamHandles pointing to the same param *)
        let st1 := fold_left (reset_conflicting h moduleId paramId' overwrite)
                     (paramHandles (internal w)) st0 in
        (* Find module with same moduleId *)
        let st2 := fold_left (bind_module (mods w) h) (modules (internal w)) st1 in
        Ok (with_hdls st2 w)
      else Ok (with_hdls st0 w)
  end.

End Engine.

(** ** Invariants and contracts *)

Section Invariants.
Context {P : Platform} {C : Collaborators}.

(** I1: module ids are pairwise distinct and below [nextModuleId]. *)
Definition I1 (w : World) : Prop :=
  NoDup (map (fun m => Module_id (mods w m)) (modules (internal w)))
  /\ Forall (fun m => Module_id (mods w m) < nextModuleId (internal w))
       (modules (internal w)).

(** I3: at most one cable targets any (inputModule, inputId) pair. *)
Definition I3 (w : World) : Prop :=
  NoDup (map (fun c => (inputModule (cabs w c), inputId (cabs w c)))
           (cables (internal w))).

(** I5, the half that matters on removal: a registered handle whose cached
    module is set carries that module's id. *)
Definition I5 (w : World) : Prop :=
  forall h m,
    In h (paramHandles (internal w)) ->
    ParamHandle_module (hdls w h) = Some m ->
    ParamHandle_moduleId (hdls w h) = Module_id (mods w m).

Definition cable_references (c : Cable) (m : addr) : Prop :=
  outputModule c = Some m \/ inputModule c = Some m.

Definition expander_references (x : RackModule) (m : addr) : Prop :=
  Expander_module (leftExpander x) = Some m
  \/ Expander_module (rightExpander x) = Some m.

(** Module contract: a hook leaves the listed part of every module alone. *)
Definition keeps_params (f : store RackModule -> store RackModule) : Prop :=
  forall st q, params (f st q) = params (st q).

Definition keeps_ids (f : store RackModule -> store RackModule) : Prop :=
  forall st q, Module_id (f st q) = Module_id (st q).

Definition keeps_expanders (f : store RackModule -> store RackModule) : Prop :=
  forall st q, leftExpander (f st q) = leftExpander (st q)
               /\ rightExpander (f st q) = rightExpander (st q).

(** The smoothing slot is empty or names an existing param. *)
Definition smooth_slot_ok (w : World) : Prop :=
  match smoothModule (internal w) with
  | None => True
  | Some m => 0 <= smoothParamId (internal w) < Z.of_nat (length (params (mods w m)))
  end.

(** Both ends of the cable name an existing port. *)
Definition cable_ports_ok (w : World) (c : addr) : Prop :=
  exists om im,
    outputModule (cabs w c) = Some om /\ inputModule (cabs w c) = Some im
    /\ 0 <= outputId (cabs w c) < Z.of_nat (length (outputs (mods w om)))
    /\ 0 <= inputId (cabs w c) < Z.of_nat (length (inputs (mods w im))).

(** The conditions under which [addCable] gives up. *)
Definition addCable_conflict (w : World) (c : addr) : Prop :=
  outputModule (cabs w c) = None
  \/ inputModule (cabs w c) = None
  \/ In c (cables (internal w))
  \/ (0 <= Cable_id (cabs w c)
      /\ exists q, In q (cables (internal w))
                   /\ Cable_id (cabs w q) = Cable_id (cabs w c))
  \/ (exists q, In q (cables (internal w))
                /\ inputModule (cabs w q) = inputModule (cabs w c)
                /\ inputId (cabs w q) = inputId (cabs w c)).

(** [p] is another registered handle aimed at (moduleId, paramId). *)
Definition conflicting_handle (w : World) (h : addr) (moduleId pid : Z) (p : addr) : Prop :=
  p <> h /\ In p (paramHandles (internal w))
  /\ ParamHandle_moduleId (hdls w p) = moduleId /\ paramId (hdls w p) = pid.

(** What the kernel does after smoothing leaves the engine's lists and the
    smoothing slot alone. *)
Definition same_registry (i i' : Internal) : Prop :=
  modules i' = modules i /\ cables i' = cables i /\ paramHandles i' = paramHandles i
  /\ smoothModule i' = smoothModule i /\ smoothParamId i' = smoothParamId i
  /\ smoothValue i' = smoothValue i /\ sampleTime i' = sampleTime i
  /\ sampleRate i' = sampleRate i.

(** One smoothing step from [v]: [v + (smoothValue - v) * 60 * sampleTime]. *)
Definition smoothed (w : World) (v : float) : float :=
  fadd v (fmul (fmul (fsub (smoothValue (internal w)) v) smoothLambda)
               (sampleTime (internal w))).

(** The two expanders of a module. *)
Definition expander_side (side : RackModule -> Expander) : Prop :=
  side = leftExpander \/ side = rightExpander.

(** [e'] is [e] with its two message buffers exchanged and the flag cleared. *)
Definition flipped (e e' : Expander) : Prop :=
  producerMessage e' = consumerMessage e
  /\ consumerMessage e' = producerMessage e
  /\ messageFlipRequested e' = false
  /\ Expander_moduleId e' = Expander_moduleId e
  /\ Expander_module e' = Expander_module e.

(** Two module stores give every module as many inputs and outputs. *)
Definition same_shape (st st' : store RackModule) : Prop :=
  forall q, length (inputs (st' q)) = length (inputs (st q))
            /\ length (outputs (st' q)) = length (outputs (st q)).

End Invariants.

(** ** A concrete platform: IEEE binary32

    IEEE arithmetic with subnormals.  The engine thread and the workers
    flush denormals before any step, so at subnormal values this instance
    differs from the engine; it serves to run the model on values in the
    normal range, and the theorems hold for every [Platform]. *)

Definition b32 (m e : Z) : spec_float := binary_normalize 24 128 m e false.

#[export] Instance binary32 : Platform := {|
  float := spec_float;
  fadd := SFadd 24 128;
  fsub := SFsub 24 128;
  fmul := SFmul 24 128;
  fdiv := SFdiv 24 128;
  feqb := SFeqb;
  fzero := S754_zero false;
  smoothLambda := b32 60 0;
  cpuTau := b32 2 0;
  Lights := unit;
  ModuleData := nat
|}.

(** ** Concrete collaborators and a small rack, to run the model on *)

Definition request_flip (e : Expander) : Expander :=
  mkExpander (Expander_moduleId e) (Expander_module e)
    (producerMessage e) (consumerMessage e) true.

(** A module that counts the frames it has processed and asks for its right
    expander's message to be flipped. *)
Definition demo_process (a : ProcessArgs) (m : addr) (st : store RackModule)
  : store RackModule :=
  fun q =>
    let x := st q in
    mkModule (Module_id x) (params x) (inputs x) (outputs x) (bypass x) (cpuTime x)
      (leftExpander x)
      (if Pos.eqb q m then request_flip (rightExpander x) else rightExpander x)
      (if Pos.eqb q m then S (data x) else data x).

(** A lifecycle hook that resets the module's frame counter. *)
Definition demo_hook (m : addr) (st : store RackModule) : store RackModule :=
  fun q =>
    let x := st q in
    mkModule (Module_id x) (params x) (inputs x) (outputs x) (bypass x) (cpuTime x)
      (leftExpander x) (rightExpander x)
      (if Pos.eqb q m then O else data x).

Definition propagate (o i : Port) : Port :=
  mkPort (voltages o) (channels o) (active i) (plugLights i).

(** A cable that copies its output port onto its input port. *)
Definition demo_Cable_step (c : Cable) (st : store RackModule) : store RackModule :=
  fun q =>
    let x := st q in
    set_inputs
      (match inputModule c, outputModule c with
       | Some im, Some om =>
           match nth_error (outputs (st om)) (Z.to_nat (outputId c)),
                 nth_error (inputs x) (Z.to_nat (inputId c)) with
           | Some o, Some i =>
               if Pos.eqb q im
               then replace_nth (inputs x) (Z.to_nat (inputId c)) (propagate o i)
               else inputs x
           | _, _ => inputs x
           end
       | _, _ => inputs x
       end) x.

#[export] Instance demo_collaborators : Collaborators := {|
  Module_process := demo_process;
  Module_onAdd := demo_hook;
  Module_onRemove := demo_hook;
  Port_process := fun _ p => p;
  Cable_step := demo_Cable_step;
  cpuMeter := true;
  elapsed := fun _ => b32 1 (-10)
|}.

Definition demo_port : Port := mkPort [b32 5 0; fzero] 2 false tt.

Definition no_expander : Expander := mkExpander (-1) None None None false.

Definition demo_module (id : Z) : RackModule :=
  mkModule id [mkParam fzero; mkParam (b32 1 (-1))]
    [demo_port] [demo_port; demo_port] false fzero no_expander no_expander O.

(** Modules 1, 2, 3 are registered with ids 0, 1, 2; module 2's right
    expander is module 3 and has a message to flip.  Modules 4 and 5 are not
    registered yet: 4 asks for an id, 5 brings the largest one. *)
Definition demo_mods : store RackModule :=
  fun q =>
    match q with
    | 1%positive => demo_module 0
    | 2%positive =>
        set_rightExpander (mkExpander 2 (Some 3%positive) (Some 10%positive)
                             (Some 11%positive) true)
          (demo_module 1)
    | 3%positive => demo_module 2
    | 5%positive => demo_module INT_MAX
    | _ => demo_module (-1)
    end.

(** Cable 1 is registered: module 1, output 0, to module 2, input 0.  Cable 2
    is not: module 2, output 1, to module 3, input 0. *)
Definition demo_cabs : store Cable :=
  fun q =>
    match q with
    | 1%positive => mkCable 0 (Some 1%positive) 0 (Some 2%positive) 0
    | 2%positive => mkCable (-1) (Some 2%positive) 1 (Some 3%positive) 0
    | _ => mkCable (-1) None 0 None 0
    end.

(** Handle 1 is bound to param 0 of module 3 (id 2); handles 2 and 3 are
    blank, and 3 is not registered. *)
Definition demo_hdls : store ParamHandle :=
  fun q =>
    match q with
    | 1%positive => mkParamHandle 2 0 (Some 3%positive)
    | _ => mkParamHandle (-1) 0 None
    end.

(** Param 1 of module 1 (value 0.5) is being smoothed towards 1. *)
Definition demo_internal : Internal :=
  mkInternal [1; 2; 3]%positive [1%positive] [1; 2]%positive false true
    (b32 44100 0) (SFdiv 24 128 (b32 1 0) (b32 44100 0)) 3 1
    (Some 1%positive) 1 (b32 1 0) 0.

Definition demo_world : World := mkWorld demo_internal demo_mods demo_cabs demo_hdls.

(** The same rack when the smoothed param has reached its target 0.5. *)
Definition demo_world_settled : World :=
  with_internal (set_smoothValue (b32 1 (-1))) demo_world.

(** The same rack when ids are about to run out. *)
Definition demo_world_last_id : World :=
  with_internal (set_nextModuleId INT_MAX) demo_world.

(** The same rack when handle 3, still not registered, has no target
    ([moduleId = -5]) and yet caches module 3. *)
Definition demo_world_loose_handle : World :=
  with_hdls (upd demo_hdls 3%positive (mkParamHandle (-5) 0 (Some 3%positive)))
    demo_world.

(** ** The rest of the engine

    The functions of [Engine.cpp] around the ones above: expander
    resolution and the batch of steps of [Engine_run], cable removal, the
    plain param setter and the remaining param-handle operations. *)

Section EngineRest.
Context {P : Platform} {C : Collaborators}.

(** *** Engine_updateExpander *)

Definition set_Expander_module (m : pointer) (e : Expander) : Expander :=
  mkExpander (Expander_moduleId e) m (producerMessage e) (consumerMessage e)
    (messageFlipRequested e).

(** [!expander->module || expander->module->id != expander->moduleId] *)
Definition expander_stale (st : store RackModule) (e : Expander) : bool :=
  match Expander_module e with
  | None => true
  | Some x => negb (Module_id (st x) =? Expander_moduleId e)
  end.

(** [Engine_updateExpander], on the module store [st] and the module list [l]. *)
Definition Engine_updateExpander (st : store RackModule) (l : list addr) (e : Expander)
  : Expander :=
  if Expander_moduleId e >=? 0 then
    if expander_stale st e
    then set_Expander_module (findModule st l (Expander_moduleId e)) e
    else e
  else
    if negb (is_null (Expander_module e)) then set_Expander_module None e
    else e.

(** Body of the loop "update expander pointers" of [Engine_run]. *)
Definition updateExpanders_of (l : list addr) (st : store RackModule) (m : addr)
  : store RackModule :=
  let st1 := upd st m (set_leftExpander (Engine_updateExpander st l (leftExpander (st m))) (st m)) in
  upd st1 m (set_rightExpander (Engine_updateExpander st1 l (rightExpander (st1 m))) (st1 m)).

(** One module with both its expanders resolved. *)
Definition resolve_module (st : store RackModule) (l : list addr) (x : RackModule)
  : RackModule :=
  let x1 := set_leftExpander (Engine_updateExpander st l (leftExpander x)) x in
  set_rightExpander (Engine_updateExpander st l (rightExpander x1)) x1.

Definition Engine_updateExpanders (w : World) : World :=
  with_mods
    (fold_left (updateExpanders_of (modules (internal w))) (modules (internal w)) (mods w)) w.

(** *** The batch of steps of Engine_run *)

(** [for (int i = 0; i < n; i++) Engine_step(that);] *)
Fixpoint Engine_steps (n : nat) (w : World) : outcome World :=
  match n with
  | O => Ok w
  | S n' => w' <- Engine_step w ;; Engine_steps n' w'
  end.

Definition mutexSteps : nat := 128.

(** The block [if (!internal->paused) { ... }] of [Engine_run]. *)
Definition Engine_run_batch (w : World) : outcome World :=
  if paused (internal w) then Ok w
  else Engine_steps mutexSteps (Engine_updateExpanders w).

(** *** removeCable *)

Definition removeCable (w : World) (cable : pointer) : outcome World :=
  match cable with
  | None => AssertFail
  | Some c =>
      (* Check that the cable is already added *)
      _ <- assert (mem c (cables (internal w))) ;;
      (* Set input to inactive *)
      match inputModule (cabs w c) with
      | None => Undefined
      | Some im =>
          input <- vec_get (inputs (mods w im)) (inputId (cabs w c)) ;;
          l <- vec_set (inputs (mods w im)) (inputId (cabs w c)) (Port_setChannels 0 input) ;;
          let w1 := with_mods (upd (mods w) im (set_inputs l (mods w im))) w in
          (* Remove the cable *)
          let w2 := with_internal (fun i => set_cables (erase c (cables i)) i) w1 in
          Engine_updateConnected w2
      end
  end.

(** *** setParam *)

Definition setParam (w : World) (module : pointer) (paramId : Z) (x : float) : outcome World :=
  (* If being smoothed, cancel smoothing *)
  let w1 :=
    if ptr_eqb (smoothModule (internal w)) module && (smoothParamId (internal w) =? paramId)
    then with_internal (fun i => set_smoothParamId 0 (set_smoothModule None i)) w
    else w in
  match module with
  | None => Undefined
  | Some m => store_param w1 m paramId (mkParam x)
  end.

(** *** removeParamHandle, getParamHandle *)

Definition removeParamHandle (w : World) (paramHandle : pointer) : outcome World :=
  match paramHandle with
  | None => Undefined
  | Some h =>
      let w1 := with_hdls (upd (hdls w) h (set_ParamHandle_module None (hdls w h))) w in
      (* Check that the ParamHandle is already added *)
      _ <- assert (mem h (paramHandles (internal w1))) ;;
      Ok (with_internal (fun i => set_paramHandles (erase h (paramHandles i)) i) w1)
  end.

Fixpoint findParamHandle (st : store ParamHandle) (l : list addr) (module : pointer) (pid : Z)
  : pointer :=
  match l with
  | [] => None
  | h :: l' =>
      if ptr_eqb (ParamHandle_module (st h)) module && (paramId (st h) =? pid)
      then Some h
      else findParamHandle st l' module pid
  end.

Definition getParamHandle (w : World) (module : pointer) (pid : Z) : pointer :=
  findParamHandle (hdls w) (paramHandles (internal w)) module pid.

(** *** More invariants *)

(** I2: cable ids are pairwise distinct and below [nextCableId]. *)
Definition I2 (w : World) : Prop :=
  NoDup (map (fun c => Cable_id (cabs w c)) (cables (internal w)))
  /\ Forall (fun c => Cable_id (cabs w c) < nextCableId (internal w))
       (cables (internal w)).

(** I4 for one expander, as resolution leaves it: no target and no cached
    module; or a cached module with the target's id; or a target that no
    registered module has. *)
Definition expander_resolved (st : store RackModule) (l : list addr) (e : Expander) : Prop :=
  (Expander_moduleId e < 0 -> Expander_module e = None)
  /\ (forall x, Expander_module e = Some x -> Module_id (st x) = Expander_moduleId e)
  /\ (0 <= Expander_moduleId e -> Expander_module e = None ->
      forall x, In x l -> Module_id (st x) <> Expander_moduleId e).

(** I5 in full: a registered handle's cached module is null, or a registered
    module with the handle's [moduleId]. *)
Definition I5_full (w : World) : Prop :=
  forall h m,
    In h (paramHandles (internal w)) ->
    ParamHandle_module (hdls w h) = Some m ->
    In m (modules (internal w))
    /\ ParamHandle_moduleId (hdls w h) = Module_id (mods w m).

(** No two registered handles aim at the same param. *)
Definition handles_exclusive (w : World) : Prop :=
  forall h1 h2,
    In h1 (paramHandles (internal w)) -> In h2 (paramHandles (internal w)) ->
    0 <= ParamHandle_moduleId (hdls w h1) ->
    ParamHandle_moduleId (hdls w h1) = ParamHandle_moduleId (hdls w h2) ->
    paramId (hdls w h1) = paramId (hdls w h2) ->
    h1 = h2.

(** [updateParamHandle(h, mid, pid, overwrite)] rejects the new target: [h]
    is registered, [mid >= 0], [overwrite] is off and another registered
    handle is aimed at [(mid, pid)]. *)
Definition rejectedb (w : World) (h : addr) (mid pid : Z) (overwrite : bool) : bool :=
  mem h (paramHandles (internal w)) && (mid >=? 0) && negb overwrite
  && existsb (fun p => negb (Pos.eqb p h)
                       && (ParamHandle_moduleId (hdls w p) =? mid)
                       && (paramId (hdls w p) =? pid))
       (paramHandles (internal w)).

(** [updateParamHandle(h, mid, pid, overwrite)] takes the target from the
    handle [q]: [h] is registered, [mid >= 0], [overwrite] is on and [q] is
    another registered handle aimed at [(mid, pid)]. *)
Definition evictedb (w : World) (h : addr) (mid pid : Z) (overwrite : bool) (q : addr)
  : bool :=
  mem h (paramHandles (internal w)) && (mid >=? 0) && overwrite
  && mem q (paramHandles (internal w)) && negb (Pos.eqb q h)
  && (ParamHandle_moduleId (hdls w q) =? mid) && (paramId (hdls w q) =? pid).

(** The port [i] of the list [ports] is marked active. *)
Definition port_active (ports : list Port) (i : Z) : Prop :=
  exists p, vec_get ports i = Ok p /\ active p = true.

(** Two module stores that differ at most in the active flags of ports. *)
Definition only_active_differs (st st' : store RackModule) : Prop :=
  forall q, deactivate_ports (st' q) = deactivate_ports (st q).

(** The cable [c] is plugged into input [i] of module [q]. *)
Definition plugged_in (c : Cable) (q : addr) (i : Z) : Prop :=
  inputModule c = Some q /\ inputId c = i.

(** The cable [c] is plugged into output [i] of module [q]. *)
Definition plugged_out (c : Cable) (q : addr) (i : Z) : Prop :=
  outputModule c = Some q /\ outputId c = i.

End EngineRest.

(** ** Engine_stepModules, run by several threads

    The engine thread and its workers run the loop of [Engine_stepModules]
    side by side and share [workerModuleIndex], a [std::atomic<int>]: the
    fetch [workerModuleIndex++] of a thread is one indivisible step.  A
    thread is at one of three places of the loop; a schedule, the list of
    the thread numbers in the order in which they move, stands for an
    interleaving.  What stepping [modules[i]] does to the module is left
    out here ([stepModule] has it); the ghost list [stepped] records that it
    happened. *)

Module Workers.

Inductive pc : Type :=
| Choosing             (* about to execute  int i = workerModuleIndex++  *)
| Stepping (i : Z)     (* i < modulesLen: about to step modules[i] *)
| Finished.            (* i >= modulesLen: left the loop by break *)

Record t : Type := mk {
  workerModuleIndex : Z;   (* std::atomic<int> *)
  threads : list pc;
  stepped : list Z         (* ghost: the [i] whose modules[i] was stepped, latest first *)
}.

(** One move of thread [tid]; [None] when there is no such thread or it
    has left the loop. *)
Definition step (modulesLen : Z) (tid : nat) (s : t) : option t :=
  match nth_error (threads s) tid with
  | Some Choosing =>
      let i := workerModuleIndex s in
      Some (mk (wrap_int (i + 1))
              (replace_nth (threads s) tid
                 (if i >=? modulesLen then Finished else Stepping i))
              (stepped s))
  | Some (Stepping i) =>
      Some (mk (workerModuleIndex s) (replace_nth (threads s) tid Choosing)
              (i :: stepped s))
  | Some Finished | None => None
  end.

(** [Engine_step] sets [workerModuleIndex = 0] before the threads pass the
    engine barrier. *)
Definition start (threadCount : nat) : t := mk 0 (repeat Choosing threadCount) [].

Fixpoint run (modulesLen : Z) (schedule : list nat) (s : t) : t :=
  match schedule with
  | [] => s
  | tid :: rest =>
      match step modulesLen tid s with
      | Some s' => run modulesLen rest s'
      | None => run modulesLen rest s
      end
  end.

(** The number of moves made along a schedule. *)
Fixpoint moves (modulesLen : Z) (schedule : list nat) (s : t) : nat :=
  match schedule with
  | [] => O
  | tid :: rest =>
      match step modulesLen tid s with
      | Some s' => S (moves modulesLen rest s')
      | None => moves modulesLen rest s
      end
  end.

Definition is_finished (p : pc) : bool :=
  match p with Finished => true | _ => false end.

Definition all_finished (s : t) : Prop :=
  forallb is_finished (threads s) = true.

(** The indices fetched and not yet stepped. *)
Definition holding (l : list pc) : list Z :=
  flat_map (fun p => match p with Stepping i => [i] | _ => [] end) l.

Definition finished (l : list pc) : nat := length (filter is_finished l).

(** The indices [0 .. n-1]. *)
Definition indices (n : Z) : list Z := map Z.of_nat (seq 0 (Z.to_nat n)).

(** What every interleaving keeps: the indices fetched so far, stepped or
    still held, are [0 .. min(workerModuleIndex, modulesLen) - 1], each
    once, and as many threads have left the loop as fetches came too late. *)
Definition consistent (modulesLen : Z) (threadCount : nat) (s : t) : Prop :=
  length (threads s) = threadCount
  /\ 0 <= workerModuleIndex s
  /\ Permutation (holding (threads s) ++ stepped s)
       (indices (Z.min (workerModuleIndex s) modulesLen))
  /\ Z.of_nat (finished (threads s)) = Z.max 0 (workerModuleIndex s - modulesLen).

(** The number of moves the threads still have to make. *)
Definition remaining (modulesLen : Z) (s : t) : Z :=
  2 * (modulesLen - Z.min (workerModuleIndex s) modulesLen)
  + Z.of_nat (length (holding (threads s)))
  + Z.of_nat (length (threads s)) - Z.of_nat (finished (threads s)).

End Workers.

(** ** One phase of a HybridBarrier shared by several threads

    [HybridBarrier.step] above follows one caller of [wait] that is alone.
    Here every thread taking part in a phase is inside [wait] at its own
    place, and a schedule interleaves their moves.  A move is one access to
    [count] or [yield], both [std::atomic] and so indivisible, or one
    operation on the mutex or the condition variable.  [cv.wait(lock, pred)]
    is the loop [while (!pred()) cv.wait(lock)]; a sleeper wakes when
    notified, and may also wake by itself, as the C++ library allows.
    [Engine::yieldWorkers] sets [yield] from outside at any time. *)

Module Phase.

Inductive pc : Type :=
| Entry        (* about to execute  int id = ++count *)
| Zero        (* id == total: about to execute  count = 0 *)
| ReadYield   (* about to read yield in  if (yield) *)
| Lock         (* about to lock mutex, before notifying *)
| Notify       (* holds mutex: about to execute  cv.notify_all() *)
| ClearYield   (* holds mutex: about to execute  yield = false *)
| SpinYield    (* about to read yield in  while (!yield) *)
| SpinCount    (* about to read count in  if (count == 0) return;  then _mm_pause() *)
| WaitLock     (* about to lock mutex: entering the block, or waking up in cv.wait *)
| WaitPred     (* holds mutex: about to read count in the predicate of cv.wait *)
| WaitSleep    (* holds mutex, predicate false: about to release mutex and sleep *)
| Sleeping     (* asleep in cv.wait *)
| Unlock       (* holds mutex: about to unlock it, at the end of the block, and return *)
| Returned.

Record t : Type := mk {
  count : Z;            (* std::atomic<int> *)
  total : Z;
  yield : bool;         (* std::atomic<bool> *)
  locked : bool;        (* std::mutex *)
  threads : list pc
}.

Inductive event : Type :=
| Move (tid : nat)      (* thread [tid] makes its next move *)
| YieldWorkers.         (* Engine::yieldWorkers() *)

Definition at_pc (tid : nat) (p : pc) (s : t) : t :=
  mk (count s) (total s) (yield s) (locked s) (replace_nth (threads s) tid p).

(** [cv.notify_all()] as the sleepers see it. *)
Definition wake (p : pc) : pc :=
  match p with Sleeping => WaitLock | _ => p end.

(** One move of thread [tid]; [None] when it cannot move: there is no such
    thread, it has returned, or it wants the mutex and the mutex is taken. *)
Definition move (tid : nat) (s : t) : option t :=
  match nth_error (threads s) tid with
  | Some Entry =>
      let id := wrap_int (count s + 1) in
      Some (at_pc tid (if id =? total s then Zero else SpinYield)
              (mk id (total s) (yield s) (locked s) (threads s)))
  | Some Zero =>
      Some (at_pc tid ReadYield (mk 0 (total s) (yield s) (locked s) (threads s)))
  | Some ReadYield =>
      Some (at_pc tid (if yield s then Lock else Returned) s)
  | Some Lock =>
      if locked s then None
      else Some (at_pc tid Notify (mk (count s) (total s) (yield s) true (threads s)))
  | Some Notify =>
      Some (at_pc tid ClearYield
              (mk (count s) (total s) (yield s) (locked s) (map wake (threads s))))
  | Some ClearYield =>
      Some (at_pc tid Unlock (mk (count s) (total s) false (locked s) (threads s)))
  | Some SpinYield =>
      Some (at_pc tid (if yield s then WaitLock else SpinCount) s)
  | Some SpinCount =>
      Some (at_pc tid (if count s =? 0 then Returned else SpinYield) s)
  | Some WaitLock =>
      if locked s then None
      else Some (at_pc tid WaitPred (mk (count s) (total s) (yield s) true (threads s)))
  | Some WaitPred =>
      Some (at_pc tid (if count s =? 0 then Unlock else WaitSleep) s)
  | Some WaitSleep =>
      Some (at_pc tid Sleeping (mk (count s) (total s) (yield s) false (threads s)))
  | Some Sleeping =>
      Some (at_pc tid WaitLock s)
  | Some Unlock =>
      Some (at_pc tid Returned (mk (count s) (total s) (yield s) false (threads s)))
  | Some Returned | None => None
  end.

Definition step (e : event) (s : t) : option t :=
  match e with
  | Move tid => move tid s
  | YieldWorkers => Some (mk (count s) (total s) true (locked s) (threads s))
  end.

Fixpoint run (schedule : list event) (s : t) : t :=
  match schedule with
  | [] => s
  | e :: rest =>
      match step e s with
      | Some s' => run rest s'
      | None => run rest s
      end
  end.

(** [threadCount] threads about to call [wait] on an idle barrier whose
    [total] is their number; [yield] may be set already. *)
Definition start (threadCount : nat) (yield0 : bool) : t :=
  mk 0 (Z.of_nat threadCount) yield0 false (repeat Entry threadCount).

(** How many threads are at a place that [f] accepts. *)
Definition cnt (f : pc -> bool) (l : list pc) : nat := length (filter f l).

Definition is_entry (p : pc) : bool := match p with Entry => true | _ => false end.
Definition is_zero (p : pc) : bool := match p with Zero => true | _ => false end.
Definition is_clear (p : pc) : bool := match p with ClearYield => true | _ => false end.
Definition is_returned (p : pc) : bool := match p with Returned => true | _ => false end.

(** Past the reset of [count]. *)
Definition is_after (p : pc) : bool :=
  match p with
  | ReadYield | Lock | Notify | ClearYield | Unlock | Returned => true
  | _ => false
  end.

(** Holding the mutex. *)
Definition holds (p : pc) : bool :=
  match p with
  | Notify | ClearYield | WaitPred | WaitSleep | Unlock => true
  | _ => false
  end.

(** Out of the spin loop, on the mutex and the condition variable. *)
Definition is_waiting (p : pc) : bool :=
  match p with
  | WaitLock | WaitPred | WaitSleep | Sleeping => true
  | _ => false
  end.

(** Asleep in [cv.wait], or bound to be. *)
Definition is_sleepy (p : pc) : bool :=
  match p with WaitSleep | Sleeping => true | _ => false end.

(** Before the [cv.notify_all()] of the last thread: still to arrive, or the
    last thread on its way to notify. *)
Definition is_pending (p : pc) : bool :=
  match p with
  | Entry | Zero | ReadYield | Lock | Notify => true
  | _ => false
  end.

(** How many threads are at the place [q]. *)
Definition code (p : pc) : nat :=
  match p with
  | Entry => 0 | Zero => 1 | ReadYield => 2 | Lock => 3 | Notify => 4
  | ClearYield => 5 | SpinYield => 6 | SpinCount => 7 | WaitLock => 8
  | WaitPred => 9 | WaitSleep => 10 | Sleeping => 11 | Unlock => 12
  | Returned => 13
  end.

Definition here (q p : pc) : bool := Nat.eqb (code p) (code q).

Definition num (q : pc) (l : list pc) : nat := cnt (here q) l.

(** One move of thread [tid] unless it is asleep: a sleeper is left to the
    [cv.notify_all()] of the last thread. *)
Definition awake_move (tid : nat) (s : t) : option t :=
  match nth_error (threads s) tid with
  | Some Sleeping => None
  | _ => move tid s
  end.

(** The threads move in the order [tids]; nobody wakes by itself and
    [yieldWorkers] stays away. *)
Fixpoint finish (tids : list nat) (s : t) : t :=
  match tids with
  | [] => s
  | tid :: rest =>
      match awake_move tid s with
      | Some s' => finish rest s'
      | None => finish rest s
      end
  end.

(** The number of moves a thread at [p] has left at most, once [count] is
    back at 0. *)
Definition weight (p : pc) : nat :=
  match p with
  | Entry => 7 | Zero => 6 | ReadYield => 5 | Lock => 4 | Notify => 3
  | ClearYield => 2 | SpinYield => 4 | SpinCount => 1 | WaitLock => 3
  | WaitPred => 2 | WaitSleep => 4 | Sleeping => 3 | Unlock => 1
  | Returned => 0
  end%nat.

Definition work (l : list pc) : nat := list_sum (map weight l).

(** What every interleaving of a phase keeps. *)
Definition consistent (s : t) : Prop :=
  let l := threads s in
  total s = Z.of_nat (length l)
  /\ 1 <= total s <= INT_MAX
  /\ ((0 < cnt is_after l)%nat ->
      count s = 0 /\ cnt is_entry l = O /\ cnt is_zero l = O)
  /\ (cnt is_after l = O ->
      count s = total s - Z.of_nat (cnt is_entry l)
      /\ (cnt is_zero l <= 1)%nat
      /\ (cnt is_entry l = O <-> cnt is_zero l = 1%nat))
  /\ cnt holds l = (if locked s then 1%nat else O)
  /\ (cnt is_after l = O -> (0 < cnt is_waiting l)%nat -> yield s = true)
  /\ ((0 < cnt is_sleepy l)%nat -> yield s = true /\ (0 < cnt is_pending l)%nat)
  /\ ((0 < cnt is_clear l)%nat -> cnt is_sleepy l = O).

End Phase.

(** * Properties *)

(** ** Lists, stores and vectors *)

Lemma mem_In (p : addr) (l : list addr) : mem p l = true <-> In p l.
Proof.
  unfold mem. rewrite existsb_exists. split.
  - intros [x [Hin Heq]]. apply Pos.eqb_eq in Heq. now subst.
  - intros Hin. exists p. split; [assumption | apply Pos.eqb_refl].
Qed.

Lemma mem_false (p : addr) (l : list addr) : mem p l = false <-> ~ In p l.
Proof.
  rewrite <- mem_In. destruct (mem p l); split; intros; congruence.
Qed.

Lemma upd_same {A : Type} (st : store A) (p : addr) (x : A) : upd st p x p = x.
Proof. unfold upd. now rewrite Pos.eqb_refl. Qed.

Lemma upd_other {A : Type} (st : store A) (p q : addr) (x : A) :
  q <> p -> upd st p x q = st q.
Proof. intros H. unfold upd. apply Pos.eqb_neq in H. now rewrite H. Qed.

(** A loop that rewrites each listed object with an idempotent [g] rewrites
    exactly the listed objects, each as if once. *)
Lemma fold_left_pointwise {A : Type} (g : A -> A) (F : store A -> addr -> store A)
  (HF : forall st h q, F st h q = if Pos.eqb q h then g (st q) else st q)
  (Hg : forall x, g (g x) = g x) :
  forall l st q, fold_left F l st q = if mem q l then g (st q) else st q.
Proof.
  induction l as [|h l IH]; intros st q; simpl; [reflexivity|].
  rewrite IH, HF.
  destruct (Pos.eqb q h); simpl.
  - rewrite Hg. now destruct (mem q l).
  - reflexivity.
Qed.

Lemma in_erase (p q : addr) (l : list addr) : In q (erase p l) -> In q l.
Proof.
  induction l as [|x l IH]; simpl; [tauto|].
  destruct (Pos.eqb x p); simpl; intuition.
Qed.

Lemma NoDup_map_erase {B : Type} (f : addr -> B) (p : addr) (l : list addr) :
  NoDup (map f l) -> NoDup (map f (erase p l)).
Proof.
  induction l as [|x l IH]; simpl; intros H; [constructor|].
  inversion H as [|? ? Hnotin Hnd]; subst.
  destruct (Pos.eqb x p); [assumption|].
  simpl. constructor; [|auto].
  intros Hin. apply Hnotin. apply in_map_iff in Hin. destruct Hin as [y [Hy Hin]].
  apply in_map_iff. exists y. split; [assumption | eapply in_erase; eassumption].
Qed.

Lemma length_replace_nth {A : Type} (v : list A) (n : nat) (x : A) :
  length (replace_nth v n x) = length v.
Proof.
  revert n. induction v as [|y v IH]; intros [|n]; simpl; auto.
Qed.

Lemma nth_error_replace_nth_same {A : Type} (v : list A) (n : nat) (x : A) :
  (n < length v)%nat -> nth_error (replace_nth v n x) n = Some x.
Proof.
  revert n. induction v as [|y v IH]; intros [|n]; simpl; intros H; try lia; auto.
  apply IH. lia.
Qed.

Lemma nth_error_replace_nth_other {A : Type} (v : list A) (n k : nat) (x : A) :
  k <> n -> nth_error (replace_nth v n x) k = nth_error v k.
Proof.
  revert n k. induction v as [|y v IH]; intros [|n] [|k]; simpl; intros H;
    try congruence; auto.
Qed.

Lemma vec_get_in_range {A : Type} (v : list A) (i : Z) :
  0 <= i < Z.of_nat (length v) -> exists x, vec_get v i = Ok x.
Proof.
  intros H. unfold vec_get.
  replace ((0 <=? i) && (i <? Z.of_nat (length v))) with true
    by (symmetry; apply andb_true_intro; split; [apply Z.leb_le | apply Z.ltb_lt]; lia).
  destruct (nth_error v (Z.to_nat i)) eqn:E; [eauto|].
  apply nth_error_None in E. lia.
Qed.

Lemma vec_get_Ok_range {A : Type} (v : list A) (i : Z) (x : A) :
  vec_get v i = Ok x -> 0 <= i < Z.of_nat (length v).
Proof.
  unfold vec_get. destruct ((0 <=? i) && (i <? Z.of_nat (length v))) eqn:E; [|discriminate].
  intros _. apply andb_prop in E. destruct E as [E1 E2].
  apply Z.leb_le in E1. apply Z.ltb_lt in E2. lia.
Qed.

Lemma vec_set_in_range {A : Type} (v : list A) (i : Z) (x : A) :
  0 <= i < Z.of_nat (length v) -> vec_set v i x = Ok (replace_nth v (Z.to_nat i) x).
Proof.
  intros H. unfold vec_set.
  replace ((0 <=? i) && (i <? Z.of_nat (length v))) with true
    by (symmetry; apply andb_true_intro; split; [apply Z.leb_le | apply Z.ltb_lt]; lia).
  reflexivity.
Qed.

Lemma vec_get_replace_same {A : Type} (v : list A) (i : Z) (x : A) :
  0 <= i < Z.of_nat (length v) -> vec_get (replace_nth v (Z.to_nat i) x) i = Ok x.
Proof.
  intros H. unfold vec_get. rewrite length_replace_nth.
  replace ((0 <=? i) && (i <? Z.of_nat (length v))) with true
    by (symmetry; apply andb_true_intro; split; [apply Z.leb_le | apply Z.ltb_lt]; lia).
  rewrite nth_error_replace_nth_same by lia. reflexivity.
Qed.

Lemma vec_get_replace_other {A : Type} (v : list A) (i j : Z) (x : A) :
  0 <= i -> j <> i -> vec_get (replace_nth v (Z.to_nat i) x) j = vec_get v j.
Proof.
  intros Hi Hne. unfold vec_get. rewrite length_replace_nth.
  destruct ((0 <=? j) && (j <? Z.of_nat (length v))) eqn:E; [|reflexivity].
  apply andb_prop in E. destruct E as [E1 _]. apply Z.leb_le in E1.
  rewrite nth_error_replace_nth_other by lia. reflexivity.
Qed.

Lemma wrap_int_id (z : Z) : is_int z -> wrap_int z = z.
Proof.
  unfold is_int, wrap_int, INT_MIN, INT_MAX. intros H.
  rewrite Z.mod_small by lia. lia.
Qed.

(** ** HybridBarrier *)

Lemma HybridBarrier_stuck (n : nat) (c : HybridBarrier.pc) (b : HybridBarrier.t) :
  HybridBarrier.count b <> 0 ->
  c = HybridBarrier.Spinning \/ c = HybridBarrier.Blocked ->
  fst (HybridBarrier.run n c b) <> HybridBarrier.Returned.
Proof.
  revert c b. induction n as [|n IH]; intros c b Hcount Hc.
  - simpl. destruct Hc; subst; discriminate.
  - apply Z.eqb_neq in Hcount as Hcount'.
    destruct Hc; subst; simpl; rewrite Hcount'.
    + destruct (HybridBarrier.yield b); apply IH; auto.
    + apply IH; auto.
Qed.

(** C6 (as amended).  On an idle barrier with [total == 1], [wait()] returns
    at once, without spinning or blocking; it leaves [count == 0] and [total]
    as they were and leaves [yield] false, notifying the condition variable
    when [yield] was set; so the barrier is unchanged exactly when [yield]
    was not set.  On an idle barrier with [total <= 0], [wait()] does not
    return for as long as no other thread touches the barrier. *)
Theorem HybridBarrier_wait_degenerate (b : HybridBarrier.t)
  (Hidle : HybridBarrier.count b = 0) :
  (HybridBarrier.total b = 1 ->
     HybridBarrier.returns_within 1 b
       (HybridBarrier.mk 0 1 false
          (if HybridBarrier.yield b then S (HybridBarrier.notified b)
           else HybridBarrier.notified b))
     /\ (HybridBarrier.yield b = false -> HybridBarrier.wait_is_noop b)
     /\ (HybridBarrier.yield b = true -> ~ HybridBarrier.wait_is_noop b))
  /\ (HybridBarrier.total b <= 0 -> HybridBarrier.never_returns b).
Proof.
  destruct b as [cnt tot yld ntf]. simpl in *. subst cnt. split.
  - intros ->. unfold HybridBarrier.wait_is_noop, HybridBarrier.returns_within.
    simpl. destruct yld; simpl; repeat split; try reflexivity; discriminate.
  - intros Htot n. destruct n as [|n]; [discriminate|].
    assert (E : (1 =? tot) = false) by (apply Z.eqb_neq; lia).
    cbn [HybridBarrier.run HybridBarrier.step HybridBarrier.count HybridBarrier.total].
    change (wrap_int (0 + 1)) with 1. rewrite E.
    apply HybridBarrier_stuck; simpl; [lia | auto].
Qed.

Lemma HybridBarrier_wait_degenerate_witness :
  HybridBarrier.returns_within 1
    (HybridBarrier.mk 0 1 true 0) (HybridBarrier.mk 0 1 false 1)
  /\ HybridBarrier.wait_is_noop (HybridBarrier.mk 0 1 false 0)
  /\ HybridBarrier.never_returns (HybridBarrier.mk 0 0 false 0).
Proof.
  split; [|split].
  - exact (proj1 (proj1 (HybridBarrier_wait_degenerate
                           (HybridBarrier.mk 0 1 true 0) eq_refl) eq_refl)).
  - exact (proj1 (proj2 (proj1 (HybridBarrier_wait_degenerate
                                  (HybridBarrier.mk 0 1 false 0) eq_refl) eq_refl))
             eq_refl).
  - apply (proj2 (HybridBarrier_wait_degenerate
                    (HybridBarrier.mk 0 0 false 0) eq_refl)).
    simpl. lia.
Defined.

(** C6 as stated fails: with [total == 0] the call spins for ever, and with
    [total == 1] and [yield] set the call clears [yield]. *)
Lemma HybridBarrier_wait_not_noop :
  let b0 := HybridBarrier.mk 0 0 false 0 in
  let b1 := HybridBarrier.mk 0 1 true 0 in
  (HybridBarrier.total b0 <= 1
   /\ ~ HybridBarrier.wait_is_noop b0
   /\ HybridBarrier.never_returns b0)
  /\ (HybridBarrier.total b1 <= 1
      /\ ~ HybridBarrier.wait_is_noop b1
      /\ HybridBarrier.yield (snd (HybridBarrier.run 1 HybridBarrier.Entry b1)) = false).
Proof.
  simpl. repeat split; try lia.
  - unfold HybridBarrier.wait_is_noop, HybridBarrier.returns_within. simpl. discriminate.
  - intros n. destruct n as [|n]; [discriminate|].
    change (HybridBarrier.run (S n) HybridBarrier.Entry (HybridBarrier.mk 0 0 false 0))
      with (HybridBarrier.run n HybridBarrier.Spinning (HybridBarrier.mk 1 0 false 0)).
    apply HybridBarrier_stuck; simpl; [lia | auto].
  - unfold HybridBarrier.wait_is_noop, HybridBarrier.returns_within. simpl. discriminate.
Qed.

Section Properties.
Context {P : Platform} {C : Collaborators}.

(** ** The step kernel *)

Lemma store_param_in_range (w : World) (m : addr) (i : Z) (p : Param) :
  0 <= i < Z.of_nat (length (params (mods w m))) ->
  store_param w m i p
  = Ok (with_mods (upd (mods w) m
                     (set_params (replace_nth (params (mods w m)) (Z.to_nat i) p) (mods w m))) w).
Proof.
  intros H. unfold store_param. now rewrite vec_set_in_range.
Qed.

Lemma Engine_step_smooth_returns (w : World) :
  smooth_slot_ok w -> exists ws, Engine_step_smooth w = Ok ws.
Proof.
  unfold smooth_slot_ok, Engine_step_smooth.
  destruct (smoothModule (internal w)) as [m|]; [|eauto].
  intros H. destruct (vec_get_in_range _ _ H) as [param Hparam].
  rewrite Hparam. simpl.
  destruct (feqb _ _); rewrite store_param_in_range by assumption; simpl; eauto.
Qed.

Lemma same_registry_refl (i : Internal) : same_registry i i.
Proof. repeat split. Qed.

Lemma same_registry_trans (i j k : Internal) :
  same_registry i j -> same_registry j k -> same_registry i k.
Proof.
  unfold same_registry. intros H1 H2.
  repeat match goal with H : _ /\ _ |- _ => destruct H end.
  repeat split; congruence.
Qed.

Lemma stepModule_registry (w : World) (m : addr) :
  internal (stepModule w m) = internal w.
Proof. reflexivity. Qed.

Lemma stepModule_params (w : World) (m : addr)
  (Hprocess : forall a q, keeps_params (Module_process a q)) :
  forall x, params (mods (stepModule w m) x) = params (mods w x).
Proof.
  intros x. unfold stepModule. cbn [mods with_mods].
  set (ctx := mkProcessArgs _ _).
  set (st1 := if bypass (mods w m) then _ else _).
  assert (H1 : forall y, params (st1 y) = params (mods w y)).
  { intros y. subst st1. destruct (bypass (mods w m)); [reflexivity|].
    destruct cpuMeter.
    - unfold upd. destruct (Pos.eqb y m) eqn:E.
      + apply Pos.eqb_eq in E. subst y. simpl. apply Hprocess.
      + apply Hprocess.
    - apply Hprocess. }
  unfold upd. destruct (Pos.eqb x m) eqn:E; simpl.
  - rewrite Pos.eqb_refl. simpl. apply Pos.eqb_eq in E. subst x. apply H1.
  - apply H1.
Qed.

Lemma Engine_stepModules_loop_spec (rest : list addr)
  (Hprocess : forall a q, keeps_params (Module_process a q)) :
  forall w,
    same_registry (internal w) (internal (Engine_stepModules_loop rest w))
    /\ (forall x, params (mods (Engine_stepModules_loop rest w) x) = params (mods w x)).
Proof.
  induction rest as [|m rest IH]; intros w; simpl.
  - split; [repeat split | reflexivity].
  - destruct (IH (stepModule
                    (with_internal
                       (fun i => set_workerModuleIndex (wrap_int (workerModuleIndex i + 1)) i) w)
                    m)) as [IH1 IH2].
    split.
    + eapply same_registry_trans; [|exact IH1]. repeat split.
    + intros x. rewrite IH2. now rewrite stepModule_params.
Qed.

Lemma Engine_stepModules_loop_registry (rest : list addr) :
  forall w, same_registry (internal w) (internal (Engine_stepModules_loop rest w)).
Proof.
  induction rest as [|m rest IH]; intros w; simpl.
  - repeat split.
  - eapply same_registry_trans; [|apply IH]. repeat split.
Qed.

Lemma fold_Cable_step_params (st0 : store Cable) (l : list addr)
  (Hcable : forall c, keeps_params (Cable_step c)) :
  forall st x,
    params (fold_left (fun st c => Cable_step (st0 c) st) l st x) = params (st x).
Proof.
  induction l as [|c l IH]; intros st x; simpl; [reflexivity|].
  rewrite IH. apply Hcable.
Qed.

Lemma flipMessages_idem (x : RackModule) : flipMessages (flipMessages x) = flipMessages x.
Proof.
  destruct x as [i ps ins outs b t [li lm lp lc lf] [ri rm rp rc rf] d].
  unfold flipMessages, flipExpander. simpl. destruct lf, rf; reflexivity.
Qed.

Lemma Engine_step_flip_mods (w : World) (q : addr) :
  mods (Engine_step_flip w) q
  = if mem q (modules (internal w)) then flipMessages (mods w q) else mods w q.
Proof.
  unfold Engine_step_flip. cbn [mods with_mods].
  apply (fold_left_pointwise flipMessages).
  - intros st h x. unfold upd. destruct (Pos.eqb x h) eqn:E; [|reflexivity].
    apply Pos.eqb_eq in E. now subst.
  - apply flipMessages_idem.
Qed.

Lemma flipMessages_params (x : RackModule) : params (flipMessages x) = params x.
Proof. reflexivity. Qed.

(** After smoothing, the rest of the kernel returns, and under the module
    contract no param value moves. *)
Lemma Engine_step_after_smooth (w ws : World)
  (Hprocess : forall a q, keeps_params (Module_process a q))
  (Hcable : forall c, keeps_params (Cable_step c)) :
  Engine_step_smooth w = Ok ws ->
  exists w',
    Engine_step w = Ok w'
    /\ same_registry (internal ws) (internal w')
    /\ (forall x, params (mods w' x) = params (mods ws x)).
Proof.
  intros Hs. unfold Engine_step, Engine_step_modules_and_cables. rewrite Hs. simpl.
  eexists. split; [reflexivity|].
  set (w2 := with_internal (set_workerModuleIndex 0) ws).
  destruct (Engine_stepModules_loop_spec
              (skipn (Z.to_nat (workerModuleIndex (internal w2))) (modules (internal w2)))
              Hprocess w2) as [R P2].
  split.
  - eapply same_registry_trans; [|exact R]. repeat split.
  - intros x. rewrite Engine_step_flip_mods.
    assert (E : params (mods (Engine_step_cables (Engine_stepModules w2)) x)
                = params (mods ws x)).
    { unfold Engine_step_cables. cbn [mods with_mods].
      rewrite fold_Cable_step_params by assumption.
      unfold Engine_stepModules. now rewrite P2. }
    destruct (mem x _); [rewrite flipMessages_params|]; exact E.
Qed.

(** C1.  With a non-null smoothing slot naming param [i] of module [m], whose
    value is [v], one execution of the step kernel returns and leaves that
    param at [v' = v + (smoothValue - v) * 60 * sampleTime]; unless [v' == v]
    in float arithmetic, in which case it leaves the param at [smoothValue]
    and clears the slot.  Every other param keeps its value, the modules'
    [process] and the cables' [step] being held to their contract of not
    writing params. *)
Theorem Engine_step_smooths_one_param (w : World) (m : addr) (param : Param)
  (Hslot : smoothModule (internal w) = Some m)
  (Hparam : vec_get (params (mods w m)) (smoothParamId (internal w)) = Ok param)
  (Hprocess : forall a q, keeps_params (Module_process a q))
  (Hcable : forall c, keeps_params (Cable_step c)) :
  exists w',
    Engine_step w = Ok w'
    /\ getParam w' (Some m) (smoothParamId (internal w))
       = Ok (if feqb (value param) (smoothed w (value param))
             then smoothValue (internal w)
             else smoothed w (value param))
    /\ smoothModule (internal w')
       = (if feqb (value param) (smoothed w (value param)) then None else Some m)
    /\ (feqb (value param) (smoothed w (value param)) = false ->
        smoothParamId (internal w') = smoothParamId (internal w)
        /\ smoothValue (internal w') = smoothValue (internal w))
    /\ (forall q i, (q, i) <> (m, smoothParamId (internal w)) ->
          getParam w' (Some q) i = getParam w (Some q) i).
Proof.
  pose proof (vec_get_Ok_range _ _ _ Hparam) as Hrange.
  assert (Hs : exists ws,
             Engine_step_smooth w = Ok ws
             /\ (forall q, params (mods ws q)
                           = if Pos.eqb q m
                             then replace_nth (params (mods w m))
                                    (Z.to_nat (smoothParamId (internal w)))
                                    (mkParam (if feqb (value param) (smoothed w (value param))
                                              then smoothValue (internal w)
                                              else smoothed w (value param)))
                             else params (mods w q))
             /\ smoothModule (internal ws)
                = (if feqb (value param) (smoothed w (value param)) then None else Some m)
             /\ (feqb (value param) (smoothed w (value param)) = false ->
                 smoothParamId (internal ws) = smoothParamId (internal w)
                 /\ smoothValue (internal ws) = smoothValue (internal w))).
  { unfold Engine_step_smooth. rewrite Hslot, Hparam. simpl.
    fold (smoothed w (value param)).
    destruct (feqb (value param) (smoothed w (value param)));
      rewrite store_param_in_range by assumption; simpl;
      eexists; (split; [reflexivity|]); simpl; (split; [|split; [|split]]); auto;
      try discriminate;
      intros q; unfold upd; destruct (Pos.eqb q m); reflexivity. }
  destruct Hs as [ws [Hs [Hps [Hsm Hkeep]]]].
  destruct (Engine_step_after_smooth w ws Hprocess Hcable Hs) as [w' [Hstep [R HP]]].
  destruct R as [_ [_ [_ [Rm [Ri [Rv _]]]]]].
  exists w'. split; [exact Hstep|]. split; [|split; [|split]].
  - unfold getParam. rewrite HP, Hps, Pos.eqb_refl.
    rewrite vec_get_replace_same by assumption. reflexivity.
  - now rewrite Rm.
  - intros E. destruct (Hkeep E). split; congruence.
  - intros q i Hne. unfold getParam. rewrite HP, Hps.
    destruct (Pos.eqb q m) eqn:E; [|reflexivity].
    apply Pos.eqb_eq in E. subst q.
    rewrite vec_get_replace_other; [reflexivity | lia | congruence].
Qed.

(** C8.  One execution of the step kernel returns, and at its end, for each
    registered module and each of its two expanders, taken as the modules'
    [process] and the cables' [step] left it: if [messageFlipRequested] is
    set, the producer and consumer buffers are exchanged and the flag is
    cleared; if it is not set, the expander is unchanged.  Modules that are
    not registered are not touched by the flip. *)
Theorem Engine_step_flips_messages (w : World) (Hslot : smooth_slot_ok w) :
  exists w1 w',
    Engine_step_modules_and_cables w = Ok w1
    /\ Engine_step w = Ok w'
    /\ modules (internal w1) = modules (internal w)
    /\ (forall m side,
          In m (modules (internal w)) -> expander_side side ->
          (messageFlipRequested (side (mods w1 m)) = true ->
             flipped (side (mods w1 m)) (side (mods w' m)))
          /\ (messageFlipRequested (side (mods w1 m)) = false ->
                side (mods w' m) = side (mods w1 m)))
    /\ (forall m, ~ In m (modules (internal w)) -> mods w' m = mods w1 m).
Proof.
  destruct (Engine_step_smooth_returns w Hslot) as [ws Hs].
  unfold Engine_step, Engine_step_modules_and_cables. rewrite Hs. simpl.
  set (w1 := Engine_step_cables _).
  assert (Hmods : modules (internal w1) = modules (internal w)).
  { subst w1. unfold Engine_step_cables, Engine_stepModules. cbn [internal with_mods].
    match goal with
    | |- modules (internal (Engine_stepModules_loop ?r ?x)) = _ =>
        destruct (Engine_stepModules_loop_registry r x) as [R _]; rewrite R
    end.
    cbn. revert Hs. unfold Engine_step_smooth, store_param.
    destruct (smoothModule (internal w)); [|intros [= <-]; reflexivity].
    destruct (vec_get _ _); simpl; try discriminate.
    destruct (feqb _ _); destruct (vec_set _ _ _); simpl; try discriminate;
      intros [= <-]; reflexivity. }
  exists w1, (Engine_step_flip w1).
  split; [reflexivity|]. split; [reflexivity|]. split; [exact Hmods|]. split.
  - intros m side Hin Hside. rewrite Engine_step_flip_mods, Hmods.
    apply mem_In in Hin. rewrite Hin.
    destruct (mods w1 m) as [i ps ins outs b t [li lm lp lc lf] [ri rm rp rc rf] d].
    destruct Hside; subst side; unfold flipMessages, flipExpander, flipped; simpl.
    + split; intros E; subst lf; simpl; auto.
    + split; intros E; subst rf; simpl; auto.
  - intros m Hnot. rewrite Engine_step_flip_mods, Hmods.
    apply mem_false in Hnot. now rewrite Hnot.
Qed.

(** ** Modules *)

Lemma ptr_eqb_eq (p q : pointer) : ptr_eqb p q = true <-> p = q.
Proof.
  destruct p as [a|], q as [b|]; simpl; split; intros H;
    try discriminate; try reflexivity.
  - apply Pos.eqb_eq in H. now subst.
  - injection H as ->. apply Pos.eqb_refl.
Qed.

Lemma ptr_eqb_refl (p : pointer) : ptr_eqb p p = true.
Proof. now apply ptr_eqb_eq. Qed.

Lemma ptr_eqb_neq (p q : pointer) : ptr_eqb p q = false <-> p <> q.
Proof.
  rewrite <- ptr_eqb_eq. destruct (ptr_eqb p q); split; intros; congruence.
Qed.

Lemma unlinkExpander_unlinked (m : addr) (e : Expander) :
  Expander_module (unlinkExpander m e) <> Some m.
Proof.
  unfold unlinkExpander. destruct (ptr_eqb (Expander_module e) (Some m)) eqn:E; simpl.
  - discriminate.
  - now apply ptr_eqb_neq.
Qed.

Lemma unlinkExpander_hit (m : addr) (e : Expander) :
  Expander_module e = Some m ->
  Expander_moduleId (unlinkExpander m e) = -1
  /\ Expander_module (unlinkExpander m e) = None.
Proof.
  intros H. unfold unlinkExpander. apply ptr_eqb_eq in H. rewrite H. simpl. auto.
Qed.

Lemma unlinkExpander_idem (m : addr) (e : Expander) :
  unlinkExpander m (unlinkExpander m e) = unlinkExpander m e.
Proof.
  unfold unlinkExpander.
  destruct (ptr_eqb (Expander_module e) (Some m)) eqn:E; simpl.
  - reflexivity.
  - now rewrite E.
Qed.

Lemma unlinkExpanders_idem (m : addr) (x : RackModule) :
  unlinkExpanders m (unlinkExpanders m x) = unlinkExpanders m x.
Proof.
  unfold unlinkExpanders. simpl. now rewrite !unlinkExpander_idem.
Qed.

Lemma fold_unlinkExpanders (m : addr) (l : list addr) (st : store RackModule) (q : addr) :
  fold_left (fun st q => upd st q (unlinkExpanders m (st q))) l st q
  = if mem q l then unlinkExpanders m (st q) else st q.
Proof.
  apply (fold_left_pointwise (unlinkExpanders m)).
  - intros st' h x. unfold upd. destruct (Pos.eqb x h) eqn:E; [|reflexivity].
    apply Pos.eqb_eq in E. now subst.
  - apply unlinkExpanders_idem.
Qed.

(** The rewriting of one handle by the loops of [addModule] and
    [removeModule]: bind or unbind it when it carries the module's id. *)
Lemma fold_rebind (id : Z) (target : pointer) (l : list addr)
  (st : store ParamHandle) (q : addr) :
  fold_left
    (fun st h =>
       if ParamHandle_moduleId (st h) =? id
       then upd st h (set_ParamHandle_module target (st h))
       else st) l st q
  = if mem q l
    then (if ParamHandle_moduleId (st q) =? id
          then set_ParamHandle_module target (st q) else st q)
    else st q.
Proof.
  apply (fold_left_pointwise
           (fun x => if ParamHandle_moduleId x =? id
                     then set_ParamHandle_module target x else x)).
  - intros st' h x. destruct (Pos.eqb x h) eqn:E.
    + apply Pos.eqb_eq in E. subst x.
      destruct (ParamHandle_moduleId (st' h) =? id); [now rewrite upd_same | reflexivity].
    + apply Pos.eqb_neq in E.
      destruct (ParamHandle_moduleId (st' h) =? id); [now rewrite upd_other | reflexivity].
  - intros x. destruct (ParamHandle_moduleId x =? id) eqn:E; simpl; now rewrite E.
Qed.

Lemma cables_disconnected (w : World) (m : addr) :
  (forall c, In c (cables (internal w)) -> ~ cable_references (cabs w c) m) ->
  forallb (fun c => negb (ptr_eqb (outputModule (cabs w c)) (Some m))
                    && negb (ptr_eqb (inputModule (cabs w c)) (Some m)))
    (cables (internal w)) = true.
Proof.
  intros H. apply forallb_forall. intros c Hin. specialize (H c Hin).
  unfold cable_references in H.
  destruct (ptr_eqb (outputModule (cabs w c)) (Some m)) eqn:E1;
    [apply ptr_eqb_eq in E1; tauto|].
  destruct (ptr_eqb (inputModule (cabs w c)) (Some m)) eqn:E2;
    [apply ptr_eqb_eq in E2; tauto|].
  reflexivity.
Qed.

(** [removeModule] on a registered module without cables, spelled out. *)
Lemma removeModule_returns (w : World) (m : addr)
  (Hreg : In m (modules (internal w)))
  (Hcables : forall c, In c (cables (internal w)) -> ~ cable_references (cabs w c) m) :
  exists w',
    removeModule w (Some m) = Ok w'
    /\ modules (internal w') = erase m (modules (internal w))
    /\ cables (internal w') = cables (internal w)
    /\ paramHandles (internal w') = paramHandles (internal w)
    /\ nextModuleId (internal w') = nextModuleId (internal w)
    /\ smoothModule (internal w')
       = (if ptr_eqb (Some m) (smoothModule (internal w)) then None
          else smoothModule (internal w))
    /\ cabs w' = cabs w
    /\ (forall h, hdls w' h
                  = if mem h (paramHandles (internal w))
                    then (if ParamHandle_moduleId (hdls w h) =? Module_id (mods w m)
                          then set_ParamHandle_module None (hdls w h) else hdls w h)
                    else hdls w h)
    /\ (exists st,
          mods w' = Module_onRemove m st
          /\ forall q, st q = if mem q (modules (internal w))
                              then unlinkExpanders m (mods w q) else mods w q).
Proof.
  unfold removeModule. apply mem_In in Hreg. rewrite Hreg. cbn [assert bind].
  assert (Hc : forall w1, cabs w1 = cabs w -> cables (internal w1) = cables (internal w) ->
                 forallb (fun c => negb (ptr_eqb (outputModule (cabs w1 c)) (Some m))
                                   && negb (ptr_eqb (inputModule (cabs w1 c)) (Some m)))
                   (cables (internal w1)) = true).
  { intros w1 E1 E2. apply cables_disconnected. rewrite E1, E2. exact Hcables. }
  destruct (ptr_eqb (Some m) (smoothModule (internal w))) eqn:Es;
    rewrite Hc by reflexivity; simpl;
    eexists; (split; [reflexivity|]); simpl;
    repeat (split; [reflexivity|]);
    (split; [intros h; apply fold_rebind|]);
    eexists; (split; [reflexivity|]); intros q; apply fold_unlinkExpanders.
Qed.

(** C2 (as amended).  On a state where [m] is registered and no cable
    references [m], [removeModule(m)] returns, and afterwards no registered
    cable and no expander of a registered module references [m] and
    [smoothModule != m].  No registered param-handle references [m]
    afterwards provided the handles obeyed I5 before the call, that is,
    every registered handle with a cached module carried that module's id:
    [removeModule] unbinds the handles by [moduleId], not by cached module.
    In particular every expander of a registered module that pointed to [m]
    has [moduleId == -1] and a null cached module, and every registered
    param-handle with [moduleId == m.id] has a null cached module.  The
    module's [onRemove] is held to its contract of leaving expanders alone. *)
Theorem removeModule_unlinks (w : World) (m : addr)
  (Hreg : In m (modules (internal w)))
  (Hcables : forall c, In c (cables (internal w)) -> ~ cable_references (cabs w c) m)
  (HonRemove : forall a, keeps_expanders (Module_onRemove a)) :
  exists w',
    removeModule w (Some m) = Ok w'
    /\ (forall c, In c (cables (internal w')) -> ~ cable_references (cabs w' c) m)
    /\ (forall q, In q (modules (internal w')) -> ~ expander_references (mods w' q) m)
    /\ (I5 w ->
        forall h, In h (paramHandles (internal w')) ->
                  ParamHandle_module (hdls w' h) <> Some m)
    /\ smoothModule (internal w') <> Some m
    /\ (forall q side,
          In q (modules (internal w)) -> expander_side side ->
          Expander_module (side (mods w q)) = Some m ->
          Expander_moduleId (side (mods w' q)) = -1
          /\ Expander_module (side (mods w' q)) = None)
    /\ (forall h, In h (paramHandles (internal w)) ->
                  ParamHandle_moduleId (hdls w h) = Module_id (mods w m) ->
                  ParamHandle_module (hdls w' h) = None).
Proof.
  destruct (removeModule_returns w m Hreg Hcables)
    as [w' [Hret [Hmods [Hcab [Hph [_ [Hsm [Hcabs [Hh [st [Hst Hq]]]]]]]]]]].
  exists w'. split; [exact Hret|].
  assert (Hexp : forall q, In q (modules (internal w)) ->
                   leftExpander (mods w' q) = unlinkExpander m (leftExpander (mods w q))
                   /\ rightExpander (mods w' q) = unlinkExpander m (rightExpander (mods w q))).
  { intros q Hin. rewrite Hst. destruct (HonRemove m st q) as [-> ->].
    rewrite Hq. apply mem_In in Hin. rewrite Hin. split; reflexivity. }
  split; [|split; [|split; [|split; [|split]]]].
  - intros c Hin. rewrite Hcabs. apply Hcables. now rewrite <- Hcab.
  - intros q Hin. rewrite Hmods in Hin. apply in_erase in Hin.
    destruct (Hexp q Hin) as [El Er]. unfold expander_references. rewrite El, Er.
    intros [H|H]; exact (unlinkExpander_unlinked _ _ H).
  - intros HI5 h Hin. rewrite Hph in Hin. rewrite Hh.
    apply mem_In in Hin as Hmem. rewrite Hmem.
    destruct (ParamHandle_moduleId (hdls w h) =? Module_id (mods w m)) eqn:E;
      [simpl; discriminate|].
    intros Href. apply Z.eqb_neq in E. apply E. now apply HI5.
  - rewrite Hsm. destruct (ptr_eqb (Some m) (smoothModule (internal w))) eqn:E;
      [discriminate|].
    apply ptr_eqb_neq in E. congruence.
  - intros q side Hin Hside Href. destruct (Hexp q Hin) as [El Er].
    destruct Hside; subst side; [rewrite El | rewrite Er]; now apply unlinkExpander_hit.
  - intros h Hin Hid. rewrite Hh. apply mem_In in Hin. rewrite Hin.
    apply Z.eqb_eq in Hid. rewrite Hid. reflexivity.
Qed.

Lemma NoDup_snoc {A : Type} (l : list A) (x : A) :
  NoDup l -> ~ In x l -> NoDup (l ++ [x]).
Proof.
  induction l as [|y l IH]; simpl; intros Hnd Hnot.
  - constructor; [tauto | constructor].
  - inversion Hnd as [|? ? Hy Hl]; subst. constructor.
    + rewrite in_app_iff. simpl. intuition congruence.
    + apply IH; tauto.
Qed.

Lemma unlinkExpanders_id (m : addr) (x : RackModule) :
  Module_id (unlinkExpanders m x) = Module_id x.
Proof. reflexivity. Qed.

Lemma ids_free (w : World) (m : addr) :
  (forall q, In q (modules (internal w)) ->
             Module_id (mods w q) <> Module_id (mods w m)) ->
  forallb (fun q => negb (Module_id (mods w m) =? Module_id (mods w q)))
    (modules (internal w)) = true.
Proof.
  intros H. apply forallb_forall. intros q Hin. specialize (H q Hin).
  apply negb_true_iff. apply Z.eqb_neq. congruence.
Qed.

(** [addModule] on a fresh module whose id, when it brings one, is free. *)
Lemma addModule_returns (w : World) (m : addr)
  (Hfresh : ~ In m (modules (internal w)))
  (Hfree : 0 <= Module_id (mods w m) ->
           forall q, In q (modules (internal w)) ->
                     Module_id (mods w q) <> Module_id (mods w m)) :
  exists w' st,
    addModule w (Some m) = Ok w'
    /\ modules (internal w') = modules (internal w) ++ [m]
    /\ mods w' = Module_onAdd m st
    /\ (forall q, q <> m -> st q = mods w q)
    /\ Module_id (st m)
       = (if Module_id (mods w m) <? 0 then nextModuleId (internal w)
          else Module_id (mods w m))
    /\ nextModuleId (internal w')
       = (if Module_id (mods w m) <? 0 then wrap_int (nextModuleId (internal w) + 1)
          else if Module_id (mods w m) >=? nextModuleId (internal w)
               then wrap_int (Module_id (mods w m) + 1)
               else nextModuleId (internal w)).
Proof.
  unfold addModule. apply mem_false in Hfresh. rewrite Hfresh. cbn [negb assert bind].
  destruct (Module_id (mods w m) <? 0) eqn:Eid.
  - cbn [bind]. eexists. eexists. split; [reflexivity|]. simpl.
    split; [reflexivity|]. split; [reflexivity|]. split; [|split].
    + intros q Hq. now apply upd_other.
    + now rewrite upd_same.
    + reflexivity.
  - apply Z.ltb_ge in Eid. rewrite (ids_free w m (Hfree Eid)). cbn [assert bind].
    destruct (Module_id (mods w m) >=? nextModuleId (internal w)) eqn:Ege;
      eexists; eexists; (split; [reflexivity|]); simpl; repeat split.
Qed.

(** C3 (as amended).  Let I1 hold, with [nextModuleId] an [int].
    [addModule(m)], for [m] not yet present whose id, if [>= 0], collides
    with no registered module, returns and preserves I1 provided the id
    arithmetic stays within [int]: [nextModuleId < INT_MAX] when
    [m.id < 0], and [m.id < INT_MAX] otherwise.  When [m.id < 0] the module
    receives id [nextModuleId], which is then incremented; when
    [m.id >= 0] it keeps its id and [nextModuleId] becomes
    [max(nextModuleId, m.id + 1)].  [removeModule(m)], for [m] registered and
    free of cables, returns and preserves I1.  The hooks [onAdd] and
    [onRemove] are held to their contract of leaving module ids alone. *)
Theorem addModule_removeModule_preserve_I1 (w : World) (m : addr)
  (HI1 : I1 w)
  (Hint : is_int (nextModuleId (internal w)))
  (HonAdd : forall a, keeps_ids (Module_onAdd a))
  (HonRemove : forall a, keeps_ids (Module_onRemove a)) :
  (~ In m (modules (internal w)) ->
   (0 <= Module_id (mods w m) ->
    forall q, In q (modules (internal w)) ->
              Module_id (mods w q) <> Module_id (mods w m)) ->
   (Module_id (mods w m) < 0 -> nextModuleId (internal w) < INT_MAX) ->
   Module_id (mods w m) < INT_MAX ->
   exists w',
     addModule w (Some m) = Ok w'
     /\ I1 w'
     /\ modules (internal w') = modules (internal w) ++ [m]
     /\ (Module_id (mods w m) < 0 ->
         Module_id (mods w' m) = nextModuleId (internal w)
         /\ nextModuleId (internal w') = nextModuleId (internal w) + 1)
     /\ (0 <= Module_id (mods w m) ->
         Module_id (mods w' m) = Module_id (mods w m)
         /\ nextModuleId (internal w')
            = Z.max (nextModuleId (internal w)) (Module_id (mods w m) + 1)))
  /\ (In m (modules (internal w)) ->
      (forall c, In c (cables (internal w)) -> ~ cable_references (cabs w c) m) ->
      exists w',
        removeModule w (Some m) = Ok w'
        /\ I1 w'
        /\ nextModuleId (internal w') = nextModuleId (internal w)).
Proof.
  destruct HI1 as [Hnd Hlt]. rewrite Forall_forall in Hlt. split.
  - intros Hfresh Hfree Hnext Hid.
    destruct (addModule_returns w m Hfresh Hfree)
      as [w' [st [Hret [Hmods [Hst [Hother [Hidm Hn]]]]]]].
    assert (Hids : forall q, In q (modules (internal w)) ->
                     Module_id (mods w' q) = Module_id (mods w q)).
    { intros q Hin. rewrite Hst, HonAdd, Hother; [reflexivity|].
      intros ->. contradiction. }
    assert (Hidm' : Module_id (mods w' m) = Module_id (st m))
      by (rewrite Hst; apply HonAdd).
    assert (Hnew : Module_id (mods w' m) < nextModuleId (internal w')
                   /\ nextModuleId (internal w) <= nextModuleId (internal w')
                   /\ (Module_id (mods w m) < 0 ->
                       Module_id (mods w' m) = nextModuleId (internal w)
                       /\ nextModuleId (internal w') = nextModuleId (internal w) + 1)
                   /\ (0 <= Module_id (mods w m) ->
                       Module_id (mods w' m) = Module_id (mods w m)
                       /\ nextModuleId (internal w')
                          = Z.max (nextModuleId (internal w)) (Module_id (mods w m) + 1))).
    { rewrite Hidm', Hidm, Hn. unfold is_int, INT_MIN, INT_MAX in *.
      destruct (Module_id (mods w m) <? 0) eqn:E.
      - apply Z.ltb_lt in E. rewrite wrap_int_id by (unfold is_int, INT_MIN, INT_MAX; lia).
        repeat split; lia.
      - apply Z.ltb_ge in E.
        destruct (Module_id (mods w m) >=? nextModuleId (internal w)) eqn:E2.
        + apply Z.geb_le in E2.
          rewrite wrap_int_id by (unfold is_int, INT_MIN, INT_MAX; lia).
          repeat split; lia.
        + rewrite Z.geb_leb in E2. apply Z.leb_gt in E2. repeat split; lia. }
    destruct Hnew as [Hlt' [Hmono [Hauto Hmanual]]].
    exists w'. split; [exact Hret|]. split; [|split; [exact Hmods|split; assumption]].
    unfold I1. rewrite Hmods, map_app. simpl. split.
    + rewrite (map_ext_in _ (fun q => Module_id (mods w q)) _ Hids).
      apply NoDup_snoc; [exact Hnd|].
      intros Hin. apply in_map_iff in Hin. destruct Hin as [q [Hq Hin]].
      destruct (Z.ltb_spec (Module_id (mods w m)) 0) as [Hneg|Hpos].
      * destruct (Hauto Hneg) as [E _]. specialize (Hlt q Hin). simpl in Hlt. lia.
      * destruct (Hmanual Hpos) as [E _]. apply (Hfree Hpos q Hin). congruence.
    + apply Forall_app. split.
      * apply Forall_forall. intros q Hin. rewrite (Hids q Hin).
        specialize (Hlt q Hin). simpl in Hlt. lia.
      * constructor; [exact Hlt' | constructor].
  - intros Hreg Hcables.
    destruct (removeModule_returns w m Hreg Hcables)
      as [w' [Hret [Hmods [_ [_ [Hn [_ [_ [_ [st [Hst Hq]]]]]]]]]]].
    assert (Hids : forall q, Module_id (mods w' q) = Module_id (mods w q)).
    { intros q. rewrite Hst, HonRemove, Hq.
      destruct (mem q (modules (internal w))); reflexivity. }
    exists w'. split; [exact Hret|]. split; [|exact Hn].
    unfold I1. rewrite Hmods, Hn.
    rewrite (map_ext _ (fun q => Module_id (mods w q)) Hids). split.
    + now apply NoDup_map_erase.
    + apply Forall_forall. intros q Hin. rewrite Hids. apply Hlt.
      eapply in_erase; eassumption.
Qed.

(** ** bypassModule *)

Lemma Forall_map_setChannels (n : Z) (l : list Port) :
  Forall (fun o => channels o = n) (map (Port_setChannels n) l).
Proof. induction l; simpl; constructor; auto. Qed.

(** C7.  For every module [m]: after [bypassModule(m, true)] every output of
    [m] has channel count 0 and [m.cpuTime] is 0; after [bypassModule(m,
    true)] then [bypassModule(m, false)], [m.bypass] is false and every
    output of [m] has channel count 1.  Both calls return, and neither adds
    nor removes an output. *)
Theorem bypassModule_channels (w : World) (m : addr) :
  exists w1 w2,
    bypassModule w (Some m) true = Ok w1
    /\ bypassModule w1 (Some m) false = Ok w2
    /\ Forall (fun o => channels o = 0) (outputs (mods w1 m))
    /\ cpuTime (mods w1 m) = fzero
    /\ bypass (mods w1 m) = true
    /\ bypass (mods w2 m) = false
    /\ Forall (fun o => channels o = 1) (outputs (mods w2 m))
    /\ length (outputs (mods w1 m)) = length (outputs (mods w m))
    /\ length (outputs (mods w2 m)) = length (outputs (mods w m)).
Proof.
  eexists. eexists. split; [reflexivity|]. split; [reflexivity|].
  simpl. rewrite !upd_same. simpl.
  repeat split; try apply Forall_map_setChannels.
  - now rewrite length_map.
  - now rewrite !length_map.
Qed.

(** ** Cables *)

Lemma same_shape_refl (st : store RackModule) : same_shape st st.
Proof. intros q. auto. Qed.

Lemma same_shape_trans (a b c : store RackModule) :
  same_shape a b -> same_shape b c -> same_shape a c.
Proof.
  intros H1 H2 q. destruct (H1 q), (H2 q). split; congruence.
Qed.

Lemma fold_deactivate_shape (l : list addr) :
  forall st, same_shape st (fold_left (fun st m => upd st m (deactivate_ports (st m))) l st).
Proof.
  induction l as [|m l IH]; intros st; simpl; [apply same_shape_refl|].
  eapply same_shape_trans; [|apply IH].
  intros q. unfold upd. destruct (Pos.eqb q m) eqn:E; [|auto].
  apply Pos.eqb_eq in E. subst q. simpl. now rewrite !length_map.
Qed.

Lemma activate_output_returns (st : store RackModule) (a : addr) (i : Z) :
  0 <= i < Z.of_nat (length (outputs (st a))) ->
  exists st', activate_output st (Some a) i = Ok st' /\ same_shape st st'.
Proof.
  intros H. unfold activate_output.
  destruct (vec_get_in_range _ _ H) as [o ->]. cbn [bind].
  rewrite vec_set_in_range by assumption. cbn [bind].
  eexists. split; [reflexivity|].
  intros q. unfold upd. destruct (Pos.eqb q a) eqn:E; [|auto].
  apply Pos.eqb_eq in E. subst q. simpl. now rewrite length_replace_nth.
Qed.

Lemma activate_input_returns (st : store RackModule) (a : addr) (i : Z) :
  0 <= i < Z.of_nat (length (inputs (st a))) ->
  exists st', activate_input st (Some a) i = Ok st' /\ same_shape st st'.
Proof.
  intros H. unfold activate_input.
  destruct (vec_get_in_range _ _ H) as [o ->]. cbn [bind].
  rewrite vec_set_in_range by assumption. cbn [bind].
  eexists. split; [reflexivity|].
  intros q. unfold upd. destruct (Pos.eqb q a) eqn:E; [|auto].
  apply Pos.eqb_eq in E. subst q. simpl. now rewrite length_replace_nth.
Qed.

Lemma connect_all_returns (cs : store Cable) (ref : store RackModule) (l : list addr)
  (Hports : forall c, In c l ->
      exists om im,
        outputModule (cs c) = Some om /\ inputModule (cs c) = Some im
        /\ 0 <= outputId (cs c) < Z.of_nat (length (outputs (ref om)))
        /\ 0 <= inputId (cs c) < Z.of_nat (length (inputs (ref im)))) :
  forall st, same_shape ref st ->
    exists st',
      foldM (fun st c =>
               st' <- activate_output st (outputModule (cs c)) (outputId (cs c)) ;;
               activate_input st' (inputModule (cs c)) (inputId (cs c)))
        l st = Ok st'
      /\ same_shape ref st'.
Proof.
  induction l as [|c l IH]; intros st Hshape; simpl.
  - eauto.
  - destruct (Hports c (or_introl eq_refl)) as [om [im [Eo [Ei [Ro Ri]]]]].
    rewrite Eo, Ei.
    destruct (activate_output_returns st om (outputId (cs c))) as [st1 [E1 S1]].
    { destruct (Hshape om) as [_ ->]. exact Ro. }
    rewrite E1. cbn [bind].
    pose proof (same_shape_trans _ _ _ Hshape S1) as Hshape1.
    destruct (activate_input_returns st1 im (inputId (cs c))) as [st2 [E2 S2]].
    { destruct (Hshape1 im) as [-> _]. exact Ri. }
    rewrite E2. cbn [bind].
    apply IH.
    + intros c' Hin. apply Hports. now right.
    + eapply same_shape_trans; eassumption.
Qed.

Lemma Engine_updateConnected_returns (w : World) :
  (forall c, In c (cables (internal w)) -> cable_ports_ok w c) ->
  exists st, Engine_updateConnected w = Ok (with_mods st w).
Proof.
  intros H. unfold Engine_updateConnected.
  destruct (connect_all_returns (cabs w) (mods w) (cables (internal w)) H
              (fold_left (fun st m => upd st m (deactivate_ports (st m)))
                 (modules (internal w)) (mods w))
              (fold_deactivate_shape _ _)) as [st [E _]].
  rewrite E. cbn [bind]. eauto.
Qed.

(** Refreshing the active flags never trips an assertion. *)
Lemma Engine_updateConnected_no_assert (w : World) :
  Engine_updateConnected w <> AssertFail.
Proof.
  unfold Engine_updateConnected.
  set (f := fun st c => _).
  assert (Hf : forall st c, f st c <> AssertFail).
  { intros st c. subst f. cbv beta. unfold activate_output, activate_input.
    destruct (outputModule (cabs w c)) as [om|]; [|discriminate].
    unfold vec_get, vec_set.
    destruct ((0 <=? outputId (cabs w c)) && _); [|discriminate].
    destruct (nth_error _ _); [|discriminate]. cbn [bind].
    destruct (inputModule (cabs w c)) as [im|]; [|discriminate].
    destruct ((0 <=? inputId (cabs w c)) && _); [|discriminate].
    destruct (nth_error _ _); discriminate. }
  assert (Hfold : forall l st, foldM f l st <> AssertFail).
  { induction l as [|c l IH]; intros st; simpl; [discriminate|].
    specialize (Hf st c). destruct (f st c); simpl; auto; discriminate. }
  intros H. specialize (Hfold (cables (internal w))
                          (fold_left (fun st m => upd st m (deactivate_ports (st m)))
                             (modules (internal w)) (mods w))).
  destruct (foldM f _ _); simpl in H; try discriminate. now apply Hfold.
Qed.

Lemma forallb_false_exists {A : Type} (f : A -> bool) (l : list A) :
  forallb f l = false -> exists x, In x l /\ f x = false.
Proof.
  induction l as [|y l IH]; simpl; [discriminate|].
  destruct (f y) eqn:E; simpl.
  - intros H. destruct (IH H) as [x [Hin Hx]]. eauto.
  - intros _. eauto.
Qed.

(** [addCable] either meets one of its conflicts and fails an assertion, or
    meets none and goes on to refresh the active flags with the cable
    appended and its id settled. *)
Lemma addCable_cases (w : World) (c : addr) :
  (addCable_conflict w c /\ addCable w (Some c) = AssertFail)
  \/ (~ addCable_conflict w c
      /\ exists w2,
           addCable w (Some c) = Engine_updateConnected w2
           /\ cables (internal w2) = cables (internal w) ++ [c]
           /\ mods w2 = mods w
           /\ (forall q, q <> c -> cabs w2 q = cabs w q)
           /\ cabs w2 c
              = set_Cable_id
                  (if Cable_id (cabs w c) <? 0 then nextCableId (internal w)
                   else Cable_id (cabs w c))
                  (cabs w c)).
Proof.
  unfold addCable, addCable_conflict.
  destruct (outputModule (cabs w c)) as [om|] eqn:Eo; [|left; auto].
  destruct (inputModule (cabs w c)) as [im|] eqn:Ei; [|left; auto].
  cbn [is_null negb assert bind].
  destruct (forallb (fun c2 => negb (Pos.eqb c2 c)
                                && negb (same_input (cabs w c2) (cabs w c)))
              (cables (internal w))) eqn:E3; cbn [assert bind].
  - assert (H3 : forall q, In q (cables (internal w)) ->
                   q <> c
                   /\ ~ (inputModule (cabs w q) = Some im
                         /\ inputId (cabs w q) = inputId (cabs w c))).
    { intros q Hin. rewrite forallb_forall in E3. specialize (E3 q Hin).
      apply andb_prop in E3. destruct E3 as [E3a E3b].
      apply negb_true_iff in E3a, E3b. apply Pos.eqb_neq in E3a.
      split; [exact E3a|]. intros [H1 H2].
      unfold same_input in E3b. rewrite Ei, H1, H2, ptr_eqb_refl, Z.eqb_refl in E3b.
      discriminate. }
    destruct (Cable_id (cabs w c) <? 0) eqn:Eid; cbn [bind].
    + apply Z.ltb_lt in Eid. right. split.
      * intros [H|[H|[H|[[H _]|[q [Hin [H1 H2]]]]]]]; try discriminate; try lia.
        -- destruct (H3 c H). congruence.
        -- destruct (H3 q Hin) as [_ Hn]. apply Hn. auto.
      * eexists. split; [reflexivity|]. simpl. split; [reflexivity|].
        split; [reflexivity|]. split; [intros q Hq; now apply upd_other|].
        now rewrite upd_same.
    + apply Z.ltb_ge in Eid.
      destruct (forallb (fun q => negb (Cable_id (cabs w c) =? Cable_id (cabs w q)))
                  (cables (internal w))) eqn:E5; cbn [assert bind].
      * right. split.
        -- intros [H|[H|[H|[[_ [q [Hin H]]]|[q [Hin [H1 H2]]]]]]]; try discriminate.
           ++ destruct (H3 c H). congruence.
           ++ rewrite forallb_forall in E5. specialize (E5 q Hin).
              apply negb_true_iff in E5. apply Z.eqb_neq in E5. congruence.
           ++ destruct (H3 q Hin) as [_ Hn]. apply Hn. auto.
        -- destruct (Cable_id (cabs w c) >=? nextCableId (internal w));
             eexists; (split; [reflexivity|]); simpl; (split; [reflexivity|]);
             (split; [reflexivity|]); (split; [reflexivity|]);
             now destruct (cabs w c).
      * left. split; [|reflexivity].
        destruct (forallb_false_exists _ _ E5) as [q [Hin Hq]].
        apply negb_false_iff in Hq. apply Z.eqb_eq in Hq.
        right. right. right. left. split; [exact Eid | eauto].
  - left. split; [|reflexivity].
    destruct (forallb_false_exists _ _ E3) as [q [Hin Hq]].
    apply andb_false_iff in Hq. destruct Hq as [Hq|Hq]; apply negb_false_iff in Hq.
    + apply Pos.eqb_eq in Hq. subst q. auto.
    + unfold same_input in Hq. apply andb_prop in Hq. destruct Hq as [H1 H2].
      apply ptr_eqb_eq in H1. apply Z.eqb_eq in H2.
      right. right. right. right. exists q. rewrite <- Ei. auto.
Qed.

(** C5.  [addCable(c)] fails an assertion exactly when [c] has a null
    endpoint, [c] is already present, [c]'s manually set id ([>= 0]) is that
    of an existing cable, or an existing cable targets the same
    [(inputModule, inputId)] pair.  When none of these holds, on a state
    that obeys I3 and whose cables, [c] included, name existing ports,
    [addCable(c)] returns: [c] is appended; it has received [nextCableId] if
    its id was negative and otherwise keeps its id, which no other cable
    has; no other cable changes; and I3 holds afterwards. *)
Theorem addCable_checks (w : World) (c : addr) :
  (addCable w (Some c) = AssertFail <-> addCable_conflict w c)
  /\ (~ addCable_conflict w c ->
      I3 w ->
      (forall q, In q (cables (internal w) ++ [c]) -> cable_ports_ok w q) ->
      exists w',
        addCable w (Some c) = Ok w'
        /\ cables (internal w') = cables (internal w) ++ [c]
        /\ (forall q, q <> c -> cabs w' q = cabs w q)
        /\ cabs w' c = set_Cable_id (Cable_id (cabs w' c)) (cabs w c)
        /\ (Cable_id (cabs w c) < 0 ->
            Cable_id (cabs w' c) = nextCableId (internal w))
        /\ (0 <= Cable_id (cabs w c) ->
            Cable_id (cabs w' c) = Cable_id (cabs w c)
            /\ forall q, In q (cables (internal w)) ->
                         Cable_id (cabs w' q) <> Cable_id (cabs w' c))
        /\ I3 w').
Proof.
  destruct (addCable_cases w c) as [[Hc Hfail]|[Hnc [w2 [Hret [Hcab [Hmods [Hoth Hself]]]]]]].
  - split; [tauto|]. intros H. contradiction.
  - split.
    + split; [|intros H; contradiction].
      rewrite Hret. intros H. exfalso. exact (Engine_updateConnected_no_assert w2 H).
    + intros _ HI3 Hports.
      assert (Hin_ne : forall q, In q (cables (internal w)) -> q <> c).
      { intros q Hin ->. apply Hnc. unfold addCable_conflict. auto. }
      assert (Hends : forall q,
                 outputModule (cabs w2 q) = outputModule (cabs w q)
                 /\ outputId (cabs w2 q) = outputId (cabs w q)
                 /\ inputModule (cabs w2 q) = inputModule (cabs w q)
                 /\ inputId (cabs w2 q) = inputId (cabs w q)).
      { intros q. destruct (Pos.eq_dec q c) as [->|Hq].
        - rewrite Hself. simpl. auto.
        - rewrite (Hoth q Hq). auto. }
      destruct (Engine_updateConnected_returns w2) as [st Hst].
      { intros q Hin. rewrite Hcab in Hin.
        destruct (Hports q Hin) as [om [im [Eo [Ei [Ro Ri]]]]].
        destruct (Hends q) as [Ho [Hoi [Hi Hii]]].
        exists om, im. rewrite Ho, Hoi, Hi, Hii, Hmods. auto. }
      exists (with_mods st w2). split; [now rewrite Hret|]. cbn [internal cabs with_mods].
      split; [exact Hcab|]. split; [exact Hoth|].
      split; [rewrite Hself; reflexivity|].
      split; [|split].
      * intros Hneg. rewrite Hself. apply Z.ltb_lt in Hneg. now rewrite Hneg.
      * intros Hpos. apply Z.ltb_ge in Hpos as Hpos'. rewrite Hself, Hpos'. simpl.
        split; [reflexivity|].
        intros q Hin Heq. rewrite (Hoth q (Hin_ne q Hin)) in Heq.
        apply Hnc. unfold addCable_conflict.
        right. right. right. left. split; [exact Hpos | eauto].
      * unfold I3. cbn [internal cabs with_mods]. rewrite Hcab, map_app. simpl.
        rewrite (map_ext _ (fun q => (inputModule (cabs w q), inputId (cabs w q)))).
        2:{ intros q. destruct (Hends q) as [_ [_ [-> ->]]]. reflexivity. }
        destruct (Hends c) as [_ [_ [-> ->]]].
        apply NoDup_snoc; [exact HI3|].
        intros Hin. apply in_map_iff in Hin. destruct Hin as [q [Hq Hin]].
        injection Hq as H1 H2. apply Hnc. unfold addCable_conflict.
        right. right. right. right. eauto.
Qed.

(** ** Param smoothing *)

Lemma same_slot_spec (m m' : pointer) (p p' : Z) :
  ptr_eqb m m' && (p =? p') = true <-> (m, p) = (m', p').
Proof.
  rewrite andb_true_iff, ptr_eqb_eq, Z.eqb_eq. split.
  - intros [-> ->]. reflexivity.
  - intros [= -> ->]. auto.
Qed.

Lemma getSmoothParam_after_install (w : World) (m : pointer) (p : Z) (v : float) :
  smoothModule (internal w) = m -> smoothParamId (internal w) = p ->
  smoothValue (internal w) = v ->
  getSmoothParam w m p = Ok v
  /\ (forall m' p', (m', p') <> (m, p) -> getSmoothParam w m' p' = getParam w m' p').
Proof.
  intros Hm Hp Hv. unfold getSmoothParam. rewrite Hm, Hp, Hv. split.
  - now rewrite ptr_eqb_refl, Z.eqb_refl.
  - intros m' p' Hne.
    destruct (ptr_eqb m m' && (p =? p')) eqn:E; [|reflexivity].
    apply same_slot_spec in E. congruence.
Qed.

(** C4.  [setSmoothParam(m, p, v)] returns (the param being smoothed, if
    another one, must exist).  It first snaps a different currently-smoothing
    param [(m0, p0) != (m, p)] to its old target [smoothValue] and touches no
    other param; then it installs [(m, p, v)], storing [smoothParamId] and
    [smoothValue] before [smoothModule], which is its last store.
    Afterwards [getSmoothParam(m, p)] returns [v], and [getSmoothParam] on
    any other pair returns what [getParam] returns. *)
Theorem setSmoothParam_installs_slot (w : World) (m : pointer) (p : Z) (v : float)
  (Hold : forall m0,
      smoothModule (internal w) = Some m0 ->
      (Some m0, smoothParamId (internal w)) <> (m, p) ->
      0 <= smoothParamId (internal w) < Z.of_nat (length (params (mods w m0)))) :
  exists pre w0 w',
    setSmoothParam_writes w m p v = pre ++ [W_smoothModule m]
    /\ foldM exec_write pre w = Ok w0
    /\ smoothParamId (internal w0) = p
    /\ smoothValue (internal w0) = v
    /\ smoothModule (internal w0) = smoothModule (internal w)
    /\ setSmoothParam w m p v = Ok w'
    /\ w' = with_internal (set_smoothModule m) w0
    /\ (forall m0,
          smoothModule (internal w) = Some m0 ->
          (Some m0, smoothParamId (internal w)) <> (m, p) ->
          getParam w' (Some m0) (smoothParamId (internal w))
          = Ok (smoothValue (internal w)))
    /\ (forall q i,
          ~ (smoothModule (internal w) = Some q /\ smoothParamId (internal w) = i
             /\ (Some q, i) <> (m, p)) ->
          getParam w' (Some q) i = getParam w (Some q) i)
    /\ smoothModule (internal w') = m
    /\ smoothParamId (internal w') = p
    /\ smoothValue (internal w') = v
    /\ getSmoothParam w' m p = Ok v
    /\ (forall m' p', (m', p') <> (m, p) -> getSmoothParam w' m' p' = getParam w' m' p').
Proof.
  unfold setSmoothParam, setSmoothParam_writes.
  destruct (smoothModule (internal w)) as [m0|] eqn:Esm; cbn [is_null negb andb].
  - destruct (ptr_eqb (Some m0) m && (smoothParamId (internal w) =? p)) eqn:Eslot;
      cbn [negb app].
    + (* the same param is being smoothed: nothing to snap *)
      apply same_slot_spec in Eslot.
      exists [W_smoothParamId p; W_smoothValue v]. eexists. eexists.
      split; [reflexivity|]. split; [reflexivity|].
      split; [reflexivity|]. split; [reflexivity|]. split; [simpl; now rewrite Esm|].
      split; [reflexivity|]. split; [reflexivity|].
      split; [intros m1 [= <-] Hne; contradiction|].
      split; [reflexivity|].
      split; [reflexivity|]. split; [reflexivity|]. split; [reflexivity|].
      apply getSmoothParam_after_install; reflexivity.
    + (* another param is being smoothed: snap it *)
      assert (Hne : (Some m0, smoothParamId (internal w)) <> (m, p)).
      { intros H. apply same_slot_spec in H. congruence. }
      pose proof (Hold m0 eq_refl Hne) as Hrange.
      exists [W_param (Some m0) (smoothParamId (internal w)) (smoothValue (internal w));
              W_smoothParamId p; W_smoothValue v].
      cbn [foldM exec_write app]. rewrite store_param_in_range by assumption.
      cbn [bind]. eexists. eexists.
      split; [reflexivity|]. split; [reflexivity|].
      split; [reflexivity|]. split; [reflexivity|]. split; [simpl; now rewrite Esm|].
      split; [reflexivity|]. split; [reflexivity|].
      split; [|split].
      * intros m1 [= <-] _. unfold getParam. simpl. rewrite upd_same. simpl.
        now rewrite vec_get_replace_same.
      * intros q i Hnot. unfold getParam. simpl. unfold upd.
        destruct (Pos.eqb q m0) eqn:E; [|reflexivity].
        apply Pos.eqb_eq in E. subst q. simpl.
        rewrite vec_get_replace_other; [reflexivity | lia |].
        intros ->. apply Hnot. auto.
      * split; [reflexivity|]. split; [reflexivity|]. split; [reflexivity|].
        apply getSmoothParam_after_install; reflexivity.
  - (* nothing is being smoothed *)
    cbn [app].
    exists [W_smoothParamId p; W_smoothValue v]. eexists. eexists.
    split; [reflexivity|]. split; [reflexivity|].
    split; [reflexivity|]. split; [reflexivity|]. split; [simpl; now rewrite Esm|].
    split; [reflexivity|]. split; [reflexivity|].
    split; [intros m1 [=]|].
    split; [reflexivity|].
    split; [reflexivity|]. split; [reflexivity|]. split; [reflexivity|].
    apply getSmoothParam_after_install; reflexivity.
Qed.

(** ** Param handles *)

(** C9.  [addParamHandle(h)] fails an assertion unless [h.moduleId < 0] and
    [h] is not yet in the handle set; when both hold it returns, and all it
    does is append [h] to the handle set: every handle, [h] and its cached
    module included, every module and every cable is as before. *)
Theorem addParamHandle_blank (w : World) (h : addr) :
  (addParamHandle w (Some h) = AssertFail
   <-> ~ (ParamHandle_moduleId (hdls w h) < 0 /\ ~ In h (paramHandles (internal w))))
  /\ (ParamHandle_moduleId (hdls w h) < 0 ->
      ~ In h (paramHandles (internal w)) ->
      exists w',
        addParamHandle w (Some h) = Ok w'
        /\ paramHandles (internal w') = paramHandles (internal w) ++ [h]
        /\ internal w' = set_paramHandles (paramHandles (internal w) ++ [h]) (internal w)
        /\ hdls w' = hdls w /\ mods w' = mods w /\ cabs w' = cabs w).
Proof.
  unfold addParamHandle. split.
  - destruct (mem h (paramHandles (internal w))) eqn:Emem; simpl.
    + apply mem_In in Emem. split; [intros _ [_ H]; auto | reflexivity].
    + apply mem_false in Emem.
      destruct (ParamHandle_moduleId (hdls w h) <? 0) eqn:Eid; simpl.
      * apply Z.ltb_lt in Eid.
        split; [discriminate | intros H; exfalso; apply H; auto].
      * apply Z.ltb_ge in Eid. split; [intros _ [H _]; lia | reflexivity].
  - intros H1 H2. apply mem_false in H2. apply Z.ltb_lt in H1.
    rewrite H2, H1. simpl. eexists. repeat split.
Qed.

Lemma fold_reset_others (h : addr) (mid pid : Z) (Hmid : 0 <= mid) (l : list addr) :
  forall st q,
    fold_left (reset_conflicting h mid pid true) l st q
    = if mem q l && negb (Pos.eqb q h)
         && (ParamHandle_moduleId (st q) =? mid) && (paramId (st q) =? pid)
      then ParamHandle_reset (st q) else st q.
Proof.
  induction l as [|p l IH]; intros st q; [reflexivity|].
  cbn [fold_left]. rewrite IH. unfold reset_conflicting.
  change (mem q (p :: l)) with (Pos.eqb q p || mem q l).
  destruct (Pos.eqb q p) eqn:Eq.
  - apply Pos.eqb_eq in Eq. subst q.
    destruct (negb (Pos.eqb p h)) eqn:E1,
             (ParamHandle_moduleId (st p) =? mid) eqn:E2,
             (paramId (st p) =? pid) eqn:E3;
      simpl; rewrite ?upd_same, ?E1, ?E2, ?E3; simpl;
      try reflexivity;
      destruct mid; try lia; rewrite ?andb_false_r; reflexivity.
  - apply Pos.eqb_neq in Eq.
    destruct (negb (Pos.eqb p h) && (ParamHandle_moduleId (st p) =? mid)
              && (paramId (st p) =? pid));
      rewrite ?upd_other by assumption; reflexivity.
Qed.

Lemma fold_reset_self (h : addr) (mid pid : Z) (l : list addr) :
  forall st,
    (forall q, q <> h -> fold_left (reset_conflicting h mid pid false) l st q = st q)
    /\ fold_left (reset_conflicting h mid pid false) l st h
       = if existsb (fun p => negb (Pos.eqb p h)
                              && (ParamHandle_moduleId (st p) =? mid)
                              && (paramId (st p) =? pid)) l
         then ParamHandle_reset (st h) else st h.
Proof.
  induction l as [|p l IH]; intros st; [split; reflexivity|].
  cbn [fold_left existsb]. unfold reset_conflicting at 2 4.
  destruct (negb (Pos.eqb p h) && (ParamHandle_moduleId (st p) =? mid)
            && (paramId (st p) =? pid)) eqn:Ep.
  - destruct (IH (upd st h (ParamHandle_reset (st h)))) as [IH1 IH2]. split.
    + intros q Hq. rewrite IH1 by assumption. now apply upd_other.
    + rewrite IH2, upd_same. simpl.
      match goal with |- context [existsb ?f l] => destruct (existsb f l) end;
        reflexivity.
  - destruct (IH st) as [IH1 IH2]. split; [exact IH1 | exact IH2].
Qed.

Lemma fold_bind_module (ms : store RackModule) (h : addr) (l : list addr) :
  forall st,
    (forall q, q <> h -> fold_left (bind_module ms h) l st q = st q)
    /\ ParamHandle_moduleId (fold_left (bind_module ms h) l st h)
       = ParamHandle_moduleId (st h)
    /\ paramId (fold_left (bind_module ms h) l st h) = paramId (st h)
    /\ (forall m, In m l -> NoDup (map (fun q => Module_id (ms q)) l) ->
                  Module_id (ms m) = ParamHandle_moduleId (st h) ->
                  ParamHandle_module (fold_left (bind_module ms h) l st h) = Some m)
    /\ ((forall m, In m l -> Module_id (ms m) <> ParamHandle_moduleId (st h)) ->
        ParamHandle_module (fold_left (bind_module ms h) l st h)
        = ParamHandle_module (st h)).
Proof.
  induction l as [|p l IH]; intros st.
  - simpl. repeat split; auto. intros m [].
  - cbn [fold_left].
    destruct (IH (bind_module ms h st p)) as [IH1 [IH2 [IH3 [IH4 IH5]]]].
    assert (Hid : ParamHandle_moduleId (bind_module ms h st p h)
                  = ParamHandle_moduleId (st h)).
    { unfold bind_module. destruct (_ =? _); [now rewrite upd_same | reflexivity]. }
    assert (Hpid : paramId (bind_module ms h st p h) = paramId (st h)).
    { unfold bind_module. destruct (_ =? _); [now rewrite upd_same | reflexivity]. }
    split; [|split; [|split; [|split]]].
    + intros q Hq. rewrite IH1 by assumption. unfold bind_module.
      destruct (_ =? _); [now apply upd_other | reflexivity].
    + congruence.
    + congruence.
    + intros m Hin Hnd Hm. simpl in Hnd. inversion Hnd as [|? ? Hnotin Hnd']; subst.
      destruct Hin as [->|Hin].
      * rewrite IH5.
        -- unfold bind_module. apply Z.eqb_eq in Hm. rewrite Hm, upd_same. reflexivity.
        -- intros m' Hin' Heq. apply Hnotin. apply in_map_iff. exists m'.
           split; [congruence | assumption].
      * apply IH4; [assumption | assumption | congruence].
    + intros Hnone. rewrite IH5.
      * unfold bind_module.
        destruct (Module_id (ms p) =? ParamHandle_moduleId (st h)) eqn:E; [|reflexivity].
        apply Z.eqb_eq in E. exfalso. apply (Hnone p); [now left | assumption].
      * intros m Hin. rewrite Hid. apply Hnone. now right.
Qed.

Lemma conflicting_handle_spec (w : World) (h : addr) (mid pid : Z) (p : addr) :
  let st0 := upd (hdls w) h (mkParamHandle mid pid None) in
  conflicting_handle w h mid pid p
  <-> In p (paramHandles (internal w))
      /\ negb (Pos.eqb p h) && (ParamHandle_moduleId (st0 p) =? mid)
         && (paramId (st0 p) =? pid) = true.
Proof.
  intros st0. unfold conflicting_handle. split.
  - intros [Hne [Hin [H1 H2]]]. split; [exact Hin|].
    subst st0. rewrite upd_other by assumption.
    apply Pos.eqb_neq in Hne. rewrite Hne, H1, H2, !Z.eqb_refl. reflexivity.
  - intros [Hin H]. apply andb_prop in H. destruct H as [H H3].
    apply andb_prop in H. destruct H as [H1 H2].
    apply negb_true_iff in H1. apply Pos.eqb_neq in H1.
    subst st0. rewrite upd_other in H2, H3 by assumption.
    apply Z.eqb_eq in H2, H3. auto.
Qed.

(** C10 (as amended).  [updateParamHandle(h, mid, pid, overwrite)] returns
    and touches nothing but param handles.  It first sets [h.moduleId = mid],
    [h.paramId = pid] and clears [h.module]; for a handle that is not in
    the handle set, or when [mid < 0], that is all: [h.module] stays null
    and no other handle changes.  When [h] is in the set and [mid >= 0]:
    with [overwrite] every other handle of the set aimed at [(mid, pid)] is
    reset, [h] keeps [(mid, pid)], and no further handle changes; without
    [overwrite] no other handle changes, and [h] itself is reset if such a
    handle exists and keeps [(mid, pid)] if none does.  Then [h.module] is
    rebound by the [moduleId] that [h] is left with: to the registered
    module with that id (ids being distinct), or to null when there is
    none.  So [h] is bound to the module with id [mid] when it was not
    reset, and stays null when it was. *)
Theorem updateParamHandle_effects (w : World) (h : addr) (mid pid : Z) (ow : bool) :
  exists w',
    updateParamHandle w (Some h) mid pid ow = Ok w'
    /\ internal w' = internal w /\ mods w' = mods w /\ cabs w' = cabs w
    /\ (~ In h (paramHandles (internal w)) \/ mid < 0 ->
        hdls w' h = mkParamHandle mid pid None
        /\ forall p, p <> h -> hdls w' p = hdls w p)
    /\ (In h (paramHandles (internal w)) -> 0 <= mid ->
        (ow = true ->
           ParamHandle_moduleId (hdls w' h) = mid
           /\ paramId (hdls w' h) = pid
           /\ (forall p, conflicting_handle w h mid pid p ->
                         hdls w' p = ParamHandle_reset (hdls w p))
           /\ (forall p, p <> h -> ~ conflicting_handle w h mid pid p ->
                         hdls w' p = hdls w p))
        /\ (ow = false ->
              (forall p, p <> h -> hdls w' p = hdls w p)
              /\ ((exists p, conflicting_handle w h mid pid p) ->
                  ParamHandle_moduleId (hdls w' h) = -1 /\ paramId (hdls w' h) = 0)
              /\ (~ (exists p, conflicting_handle w h mid pid p) ->
                  ParamHandle_moduleId (hdls w' h) = mid /\ paramId (hdls w' h) = pid))
        /\ (forall m,
              In m (modules (internal w)) ->
              NoDup (map (fun q => Module_id (mods w q)) (modules (internal w))) ->
              Module_id (mods w m) = ParamHandle_moduleId (hdls w' h) ->
              ParamHandle_module (hdls w' h) = Some m)
        /\ ((forall m, In m (modules (internal w)) ->
                       Module_id (mods w m) <> ParamHandle_moduleId (hdls w' h)) ->
            ParamHandle_module (hdls w' h) = None)).
Proof.
  unfold updateParamHandle. rewrite upd_same. cbn [ParamHandle_moduleId].
  pose proof (conflicting_handle_spec w h mid pid) as Hconf. cbv zeta in Hconf.
  set (st0 := upd (hdls w) h (mkParamHandle mid pid None)) in *.
  assert (Hst0h : st0 h = mkParamHandle mid pid None) by apply upd_same.
  assert (Hst0 : forall p, p <> h -> st0 p = hdls w p)
    by (intros p Hp; now apply upd_other).
  destruct (mem h (paramHandles (internal w)) && (mid >=? 0)) eqn:Econd.
  - apply andb_prop in Econd. destruct Econd as [Emem Emid].
    apply mem_In in Emem. rewrite Z.geb_leb in Emid. apply Z.leb_le in Emid.
    set (st1 := fold_left (reset_conflicting h mid pid ow) (paramHandles (internal w)) st0).
    destruct (fold_bind_module (mods w) h (modules (internal w)) st1)
      as [B1 [B2 [B3 [B4 B5]]]].
    eexists. split; [reflexivity|]. cbn [internal mods cabs hdls with_hdls].
    split; [reflexivity|]. split; [reflexivity|]. split; [reflexivity|].
    split; [intros [H|H]; [contradiction | lia]|].
    intros _ _.
    assert (Hnull : ParamHandle_module (st1 h) = None).
    { subst st1. destruct ow.
      - rewrite fold_reset_others by assumption.
        rewrite Pos.eqb_refl, andb_false_r. simpl. now rewrite Hst0h.
      - destruct (fold_reset_self h mid pid (paramHandles (internal w)) st0) as [_ ->].
        destruct (existsb _ _); [reflexivity | now rewrite Hst0h]. }
    split; [|split; [|split]].
    + intros ->. subst st1. rewrite B2, B3.
      rewrite fold_reset_others by assumption.
      rewrite Pos.eqb_refl, andb_false_r. cbn [andb]. rewrite Hst0h.
      split; [reflexivity|]. split; [reflexivity|]. split.
      * intros p Hp. pose proof Hp as [Hne _]. apply Hconf in Hp. destruct Hp as [Hin Hb].
        rewrite B1, fold_reset_others by assumption.
        apply mem_In in Hin. rewrite Hin. rewrite <- !andb_assoc in *.
        cbn [andb]. rewrite Hb. now rewrite Hst0.
      * intros p Hne Hnot. rewrite B1, fold_reset_others by assumption.
        destruct (mem p (paramHandles (internal w)) && negb (Pos.eqb p h)
                  && (ParamHandle_moduleId (st0 p) =? mid) && (paramId (st0 p) =? pid))
          eqn:Eb; [|now apply Hst0].
        exfalso. apply Hnot. apply Hconf.
        rewrite <- !andb_assoc in Eb. apply andb_prop in Eb. destruct Eb as [Eb1 Eb2].
        apply mem_In in Eb1. split; [exact Eb1|]. now rewrite <- !andb_assoc.
    + intros ->. subst st1.
      destruct (fold_reset_self h mid pid (paramHandles (internal w)) st0) as [S1 S2].
      split; [|split].
      * intros p Hp. rewrite B1, S1 by assumption. now apply Hst0.
      * intros [p Hp]. apply Hconf in Hp. destruct Hp as [Hin Hb].
        rewrite B2, B3, S2.
        match goal with
        | |- context [existsb ?f ?l] => replace (existsb f l) with true
        end; [split; reflexivity|].
        symmetry. apply existsb_exists. eauto.
      * intros Hnone. rewrite B2, B3, S2.
        match goal with
        | |- context [existsb ?f ?l] => destruct (existsb f l) eqn:Eex
        end.
        -- exfalso. apply Hnone. apply existsb_exists in Eex.
           destruct Eex as [p [Hin Hb]]. exists p. apply Hconf. auto.
        -- rewrite Hst0h. split; reflexivity.
    + intros m Hin Hnd Hid. apply B4; [assumption | assumption |].
      rewrite Hid. apply B2.
    + intros Hnone. rewrite B5; [exact Hnull|].
      intros m Hin. rewrite <- B2. now apply Hnone.
  - eexists. split; [reflexivity|]. cbn [internal mods cabs hdls with_hdls].
    split; [reflexivity|]. split; [reflexivity|]. split; [reflexivity|].
    split; [intros _; split; assumption|].
    intros Hin Hmid. exfalso.
    apply mem_In in Hin. rewrite Hin in Econd. simpl in Econd.
    rewrite Z.geb_leb in Econd. apply Z.leb_gt in Econd. lia.
Qed.

End Properties.

(** * The model at work on the demo rack *)

Lemma demo_process_keeps_params (a : ProcessArgs) (q : addr) :
  keeps_params (Module_process a q).
Proof. intros st x. reflexivity. Qed.

Lemma demo_Cable_step_keeps_params (c : Cable) : keeps_params (Cable_step c).
Proof. intros st x. reflexivity. Qed.

Lemma demo_onAdd_keeps_ids (a : addr) : keeps_ids (Module_onAdd a).
Proof. intros st x. reflexivity. Qed.

Lemma demo_onRemove_keeps_ids (a : addr) : keeps_ids (Module_onRemove a).
Proof. intros st x. reflexivity. Qed.

Lemma demo_onRemove_keeps_expanders (a : addr) : keeps_expanders (Module_onRemove a).
Proof. intros st x. split; reflexivity. Qed.

Lemma demo_world_I1 : I1 demo_world.
Proof.
  unfold I1. simpl. split.
  - repeat constructor; simpl; intuition discriminate.
  - repeat constructor.
Qed.

Lemma demo_world_I3 : I3 demo_world.
Proof. unfold I3. simpl. repeat constructor. simpl. tauto. Qed.

Lemma demo_world_I5 : I5 demo_world.
Proof.
  intros h m Hin Hm. simpl in Hin. destruct Hin as [<-|[<-|[]]]; simpl in *.
  - injection Hm as <-. reflexivity.
  - discriminate.
Qed.

Lemma demo_world_no_cable_on_3 (c : addr) :
  In c (cables (internal demo_world)) -> ~ cable_references (cabs demo_world c) 3%positive.
Proof. intros [<-|[]] [H|H]; discriminate. Qed.

(** On the demo rack one step moves param 1 of module 1 from 0.5 towards 1
    and keeps the slot; once the param has reached its target, one step
    leaves it there and clears the slot. *)
Lemma Engine_step_smooths_one_param_witness :
  (exists w',
     Engine_step demo_world = Ok w'
     /\ getParam w' (Some 1%positive) 1 = Ok (S754_finite false 8400021 (-24))
     /\ smoothModule (internal w') = Some 1%positive
     /\ getParam w' (Some 1%positive) 0 = Ok fzero)
  /\ (exists w',
        Engine_step demo_world_settled = Ok w'
        /\ getParam w' (Some 1%positive) 1 = Ok (b32 1 (-1))
        /\ smoothModule (internal w') = None).
Proof.
  split.
  - destruct (Engine_step_smooths_one_param demo_world 1%positive
                (@mkParam binary32 (b32 1 (-1)))
                eq_refl eq_refl demo_process_keeps_params demo_Cable_step_keeps_params)
      as [w' [H1 [H2 [H3 [_ H5]]]]].
    exists w'. split; [exact H1|]. split; [exact H2|]. split; [exact H3|].
    transitivity (getParam demo_world (Some 1%positive) 0); [|reflexivity].
    apply H5. discriminate.
  - destruct (Engine_step_smooths_one_param demo_world_settled 1%positive
                (@mkParam binary32 (b32 1 (-1)))
                eq_refl eq_refl demo_process_keeps_params demo_Cable_step_keeps_params)
      as [w' [H1 [H2 [H3 _]]]].
    exists w'. split; [exact H1|]. split; [exact H2 | exact H3].
Defined.

(** On the demo rack the step flips the right expander of module 2. *)
Lemma Engine_step_flips_messages_witness :
  exists w1 w',
    Engine_step_modules_and_cables demo_world = Ok w1
    /\ Engine_step demo_world = Ok w'
    /\ messageFlipRequested (rightExpander (mods w1 2%positive)) = true
    /\ flipped (rightExpander (mods w1 2%positive)) (rightExpander (mods w' 2%positive))
    /\ leftExpander (mods w' 2%positive) = leftExpander (mods w1 2%positive).
Proof.
  assert (Hslot : smooth_slot_ok demo_world) by (unfold smooth_slot_ok; simpl; lia).
  destruct (Engine_step_flips_messages demo_world Hslot)
    as [w1 [w' [H1 [H2 [_ [H4 _]]]]]].
  exists w1, w'. split; [exact H1|]. split; [exact H2|].
  injection H1 as <-.
  destruct (H4 2%positive rightExpander) as [Hr _]; [simpl; auto | right; reflexivity|].
  destruct (H4 2%positive leftExpander) as [_ Hl]; [simpl; auto | left; reflexivity|].
  split; [reflexivity|]. split; [apply Hr; reflexivity | apply Hl; reflexivity].
Defined.

(** Removing module 3 from the demo rack unlinks module 2's right expander
    and unbinds handle 1. *)
Lemma removeModule_unlinks_witness :
  exists w',
    removeModule demo_world (Some 3%positive) = Ok w'
    /\ Expander_moduleId (rightExpander (mods w' 2%positive)) = -1
    /\ Expander_module (rightExpander (mods w' 2%positive)) = None
    /\ ParamHandle_module (hdls w' 1%positive) = None
    /\ (forall h, In h (paramHandles (internal w')) ->
                  ParamHandle_module (hdls w' h) <> Some 3%positive)
    /\ smoothModule (internal w') <> Some 3%positive.
Proof.
  destruct (removeModule_unlinks demo_world 3%positive
              (or_intror (or_intror (or_introl eq_refl)))
              demo_world_no_cable_on_3 demo_onRemove_keeps_expanders)
    as [w' [H1 [_ [_ [H4 [H5 [H6 H7]]]]]]].
  exists w'. split; [exact H1|].
  destruct (H6 2%positive rightExpander) as [Ha Hb];
    [simpl; auto | right; reflexivity | reflexivity |].
  split; [exact Ha|]. split; [exact Hb|].
  split; [|split; [exact (H4 demo_world_I5) | exact H5]].
  apply H7; [simpl; auto | reflexivity].
Defined.

(** C2 as stated fails for the param-handles.  Handle 3 has the negative
    [moduleId] that [addParamHandle] asks for, and caches module 3; it is
    registered by [addParamHandle].  Module 3 is registered and no cable
    references it, so [removeModule] returns; it unbinds the handles whose
    [moduleId] is the module's id, which handle 3 does not have, and handle
    3, still registered, still references module 3. *)
Lemma removeModule_leaves_stale_handle :
  exists w1 w',
    addParamHandle demo_world_loose_handle (Some 3%positive) = Ok w1
    /\ In 3%positive (modules (internal w1))
    /\ (forall c, In c (cables (internal w1)) ->
                  ~ cable_references (cabs w1 c) 3%positive)
    /\ removeModule w1 (Some 3%positive) = Ok w'
    /\ In 3%positive (paramHandles (internal w'))
    /\ ParamHandle_moduleId (hdls w' 3%positive) <> Module_id (mods w1 3%positive)
    /\ ParamHandle_module (hdls w' 3%positive) = Some 3%positive
    /\ ~ I5 w1.
Proof.
  eexists. eexists. split; [reflexivity|].
  split; [simpl; auto|].
  split; [intros c [<-|[]] [H|H]; discriminate|].
  split; [reflexivity|].
  split; [simpl; auto|].
  split; [vm_compute; discriminate|].
  split; [reflexivity|].
  intros H. specialize (H 3%positive 3%positive). simpl in H.
  assert (E : -5 = 2) by (apply H; auto).
  discriminate.
Qed.

(** Adding module 4, which asks for an id, gives it id 3 and moves
    [nextModuleId] to 4; removing module 3 keeps I1 too. *)
Lemma addModule_removeModule_preserve_I1_witness :
  (exists w',
     addModule demo_world (Some 4%positive) = Ok w'
     /\ I1 w'
     /\ Module_id (mods w' 4%positive) = 3
     /\ nextModuleId (internal w') = 4)
  /\ (exists w', removeModule demo_world (Some 3%positive) = Ok w' /\ I1 w').
Proof.
  assert (Hint : is_int (nextModuleId (internal demo_world)))
    by (unfold is_int, INT_MIN, INT_MAX; simpl; lia).
  destruct (addModule_removeModule_preserve_I1 demo_world 4%positive
              demo_world_I1 Hint demo_onAdd_keeps_ids demo_onRemove_keeps_ids) as [Hadd _].
  destruct (addModule_removeModule_preserve_I1 demo_world 3%positive
              demo_world_I1 Hint demo_onAdd_keeps_ids demo_onRemove_keeps_ids) as [_ Hrem].
  split.
  - destruct Hadd as [w' [H1 [H2 [_ [H4 _]]]]].
    + simpl. intuition discriminate.
    + simpl. lia.
    + intros _. unfold INT_MAX. simpl. lia.
    + unfold INT_MAX. simpl. lia.
    + exists w'. destruct H4 as [Ha Hb]; [simpl; lia|]. auto.
  - destruct Hrem as [w' [H1 [H2 _]]].
    + simpl. auto.
    + exact demo_world_no_cable_on_3.
    + eauto.
Defined.

(** C3 as stated fails where the id arithmetic leaves [int]: a module that
    brings the id [INT_MAX], and a module that asks for an id when
    [nextModuleId] is [INT_MAX], are both added under the stated
    preconditions, and I1 does not hold afterwards.  Whatever the overflowing
    addition yields, I1 cannot hold once a module with id [INT_MAX] is
    registered, since [nextModuleId] is an [int]. *)
Lemma addModule_breaks_I1_at_INT_MAX :
  (I1 demo_world
   /\ ~ In 5%positive (modules (internal demo_world))
   /\ 0 <= Module_id (mods demo_world 5%positive)
   /\ (forall q, In q (modules (internal demo_world)) ->
                 Module_id (mods demo_world q) <> Module_id (mods demo_world 5%positive))
   /\ exists w', addModule demo_world (Some 5%positive) = Ok w' /\ ~ I1 w')
  /\ (I1 demo_world_last_id
      /\ ~ In 4%positive (modules (internal demo_world_last_id))
      /\ Module_id (mods demo_world_last_id 4%positive) < 0
      /\ exists w', addModule demo_world_last_id (Some 4%positive) = Ok w' /\ ~ I1 w')
  /\ (forall (w' : World) (m : addr),
        In m (modules (internal w')) -> Module_id (mods w' m) = INT_MAX ->
        is_int (nextModuleId (internal w')) -> ~ I1 w').
Proof.
  split; [|split].
  - split; [exact demo_world_I1|].
    split; [simpl; intuition discriminate|].
    split; [simpl; unfold INT_MAX; lia|].
    split; [intros q [<-|[<-|[<-|[]]]]; vm_compute; discriminate|].
    eexists. split; [reflexivity|].
    intros [_ H]. rewrite Forall_forall in H.
    specialize (H 5%positive). simpl in H.
    assert (Hlt : INT_MAX < wrap_int (INT_MAX + 1)) by (apply H; auto 6).
    vm_compute in Hlt. discriminate.
  - split.
    { unfold I1. simpl. split.
      - repeat constructor; simpl; intuition discriminate.
      - repeat constructor. }
    split; [simpl; intuition discriminate|].
    split; [reflexivity|].
    eexists. split; [reflexivity|].
    intros [_ H]. rewrite Forall_forall in H.
    specialize (H 4%positive). simpl in H.
    assert (Hlt : INT_MAX < wrap_int (INT_MAX + 1)) by (apply H; auto 6).
    vm_compute in Hlt. discriminate.
  - intros w' m Hin Hid [_ Hmax] [_ H]. rewrite Forall_forall in H.
    specialize (H m Hin). simpl in H. lia.
Qed.

(** Smoothing param 0 of module 2 towards 3 snaps param 1 of module 1 to its
    old target 1 first. *)
Lemma setSmoothParam_installs_slot_witness :
  exists w',
    setSmoothParam demo_world (Some 2%positive) 0 (b32 3 0) = Ok w'
    /\ getParam w' (Some 1%positive) 1 = Ok (b32 1 0)
    /\ getSmoothParam w' (Some 2%positive) 0 = Ok (b32 3 0)
    /\ getSmoothParam w' (Some 1%positive) 1 = getParam w' (Some 1%positive) 1.
Proof.
  destruct (setSmoothParam_installs_slot demo_world (Some 2%positive) 0 (b32 3 0))
    as [pre [w0 [w' [_ [_ [_ [_ [_ [H6 [_ [H8 [_ [_ [_ [_ [H13 H14]]]]]]]]]]]]]]]].
  - intros m0 [= <-] _. simpl. lia.
  - exists w'. split; [exact H6|]. split; [|split; [exact H13|]].
    + apply (H8 1%positive); [reflexivity | discriminate].
    + apply H14. discriminate.
Defined.

Lemma demo_cable_2_no_conflict : ~ addCable_conflict demo_world 2%positive.
Proof.
  unfold addCable_conflict. simpl.
  intros [H|[H|[H|[[H _]|[q [[<-|[]] [H _]]]]]]]; try discriminate.
  - destruct H as [H|[]]. discriminate.
  - lia.
Qed.

Lemma demo_cables_ports_ok (q : addr) :
  In q (cables (internal demo_world) ++ [2%positive]) -> cable_ports_ok demo_world q.
Proof.
  simpl. intros [<-|[<-|[]]].
  - exists 1%positive, 2%positive. simpl. repeat split; lia.
  - exists 2%positive, 3%positive. simpl. repeat split; lia.
Qed.

(** Cable 2 is added to the demo rack with id 1; cable 1, already present,
    is refused. *)
Lemma addCable_checks_witness :
  (exists w',
     addCable demo_world (Some 2%positive) = Ok w'
     /\ cables (internal w') = [1; 2]%positive
     /\ Cable_id (cabs w' 2%positive) = 1
     /\ I3 w')
  /\ addCable demo_world (Some 1%positive) = AssertFail.
Proof.
  split.
  - destruct (proj2 (addCable_checks demo_world 2%positive)
                demo_cable_2_no_conflict demo_world_I3 demo_cables_ports_ok)
      as [w' [H1 [H2 [_ [_ [H5 [_ H7]]]]]]].
    exists w'. split; [exact H1|]. split; [exact H2|]. split; [|exact H7].
    apply H5. simpl. lia.
  - apply (proj1 (addCable_checks demo_world 1%positive)).
    unfold addCable_conflict. simpl. auto.
Defined.

(** The blank handle 3 joins the handle set of the demo rack; handle 1,
    which has a target, is refused. *)
Lemma addParamHandle_blank_witness :
  (exists w',
     addParamHandle demo_world (Some 3%positive) = Ok w'
     /\ paramHandles (internal w') = [1; 2; 3]%positive
     /\ hdls w' = hdls demo_world)
  /\ addParamHandle demo_world (Some 1%positive) = AssertFail.
Proof.
  split.
  - destruct (proj2 (addParamHandle_blank demo_world 3%positive))
      as [w' [H1 [H2 [_ [H4 _]]]]].
    + simpl. lia.
    + simpl. intuition discriminate.
    + exists w'. auto.
  - apply (proj1 (addParamHandle_blank demo_world 1%positive)).
    simpl. intros [H _]. lia.
Defined.

(** Aiming handle 2 at param 0 of module id 2, which handle 1 has as its
    target: with [overwrite] handle 1 is reset and handle 2 is bound to
    module 3; without, handle 2 is reset and stays unbound. *)
Lemma updateParamHandle_effects_witness :
  (exists w',
     updateParamHandle demo_world (Some 2%positive) 2 0 true = Ok w'
     /\ hdls w' 1%positive = mkParamHandle (-1) 0 None
     /\ ParamHandle_moduleId (hdls w' 2%positive) = 2
     /\ ParamHandle_module (hdls w' 2%positive) = Some 3%positive)
  /\ (exists w',
        updateParamHandle demo_world (Some 2%positive) 2 0 false = Ok w'
        /\ hdls w' 1%positive = hdls demo_world 1%positive
        /\ ParamHandle_moduleId (hdls w' 2%positive) = -1
        /\ ParamHandle_module (hdls w' 2%positive) = None).
Proof.
  assert (Hconf : conflicting_handle demo_world 2%positive 2 0 1%positive).
  { unfold conflicting_handle. simpl. repeat split; auto. discriminate. }
  split.
  - destruct (updateParamHandle_effects demo_world 2%positive 2 0 true)
      as [w' [H1 [_ [_ [_ [_ H6]]]]]].
    destruct H6 as [Hov [_ [Hbind _]]]; [simpl; auto | lia |].
    destruct (Hov eq_refl) as [Hid [_ [Hreset _]]].
    exists w'. split; [exact H1|]. split; [|split; [exact Hid|]].
    + apply (Hreset 1%positive). exact Hconf.
    + apply Hbind.
      * simpl. auto.
      * exact (proj1 demo_world_I1).
      * rewrite Hid. reflexivity.
  - destruct (updateParamHandle_effects demo_world 2%positive 2 0 false)
      as [w' [H1 [_ [_ [_ [_ H6]]]]]].
    destruct H6 as [_ [Hkeep [_ Hnone]]]; [simpl; auto | lia |].
    destruct (Hkeep eq_refl) as [Hothers [Hself _]].
    destruct Hself as [Hid _]; [exists 1%positive; exact Hconf|].
    exists w'. split; [exact H1|]. split; [|split; [exact Hid|]].
    + apply Hothers. discriminate.
    + apply Hnone. rewrite Hid.
      intros m [<-|[<-|[<-|[]]]]; vm_compute; discriminate.
Defined.

(** Bypassing module 1 of the demo rack and lifting the bypass again. *)
Lemma bypassModule_channels_example :
  exists w1 w2,
    bypassModule demo_world (Some 1%positive) true = Ok w1
    /\ bypassModule w1 (Some 1%positive) false = Ok w2
    /\ map channels (outputs (mods w1 1%positive)) = [0; 0]
    /\ map channels (outputs (mods w2 1%positive)) = [1; 1]
    /\ map voltages (outputs (mods w1 1%positive)) = [[fzero; fzero]; [fzero; fzero]].
Proof.
  eexists. eexists. split; [reflexivity|]. split; [reflexivity|].
  repeat split.
Qed.

(** C10 as stated fails when [overwrite] is false and another handle of the
    set already has the target: handle 2 is in the set, [mid = 2 >= 0] and
    module 3 is registered with id 2, yet handle 2 ends reset, with a null
    cached module, instead of rebound to module 3. *)
Lemma updateParamHandle_reset_handle_stays_unbound :
  In 2%positive (paramHandles (internal demo_world))
  /\ In 3%positive (modules (internal demo_world))
  /\ Module_id (mods demo_world 3%positive) = 2
  /\ conflicting_handle demo_world 2%positive 2 0 1%positive
  /\ exists w',
       updateParamHandle demo_world (Some 2%positive) 2 0 false = Ok w'
       /\ hdls w' 2%positive = mkParamHandle (-1) 0 None
       /\ ParamHandle_module (hdls w' 2%positive) <> Some 3%positive.
Proof.
  split; [simpl; auto|]. split; [simpl; auto|]. split; [reflexivity|].
  split; [unfold conflicting_handle; simpl; repeat split; auto; discriminate|].
  eexists. split; [reflexivity|]. split; [reflexivity | discriminate].
Qed.

(** * Further properties of the engine *)

Section MoreProperties.
Context {P : Platform} {C : Collaborators}.

(** ** Looking modules up *)

Lemma findModule_None (st : store RackModule) (l : list addr) (id : Z) :
  findModule st l id = None <-> forall m, In m l -> Module_id (st m) <> id.
Proof.
  induction l as [|x l IH]; simpl.
  - split; [intros _ m [] | reflexivity].
  - destruct (Module_id (st x) =? id) eqn:E.
    + apply Z.eqb_eq in E. split; [discriminate|].
      intros H. exfalso. apply (H x); auto.
    + apply Z.eqb_neq in E. rewrite IH. split.
      * intros H m [<-|Hin]; auto.
      * intros H m Hin. apply H. now right.
Qed.

Lemma findModule_Some (st : store RackModule) (l : list addr) (id : Z) (m : addr) :
  findModule st l id = Some m -> In m l /\ Module_id (st m) = id.
Proof.
  induction l as [|x l IH]; simpl; [discriminate|].
  destruct (Module_id (st x) =? id) eqn:E.
  - intros [= <-]. apply Z.eqb_eq in E. auto.
  - intros H. destruct (IH H). auto.
Qed.

Lemma findModule_unique (st : store RackModule) (l : list addr) (m : addr) :
  NoDup (map (fun q => Module_id (st q)) l) -> In m l ->
  findModule st l (Module_id (st m)) = Some m.
Proof.
  induction l as [|x l IH]; simpl; intros Hnd Hin; [contradiction|].
  inversion Hnd as [|? ? Hnotin Hnd']; subst.
  destruct Hin as [->|Hin]; [now rewrite Z.eqb_refl|].
  destruct (Module_id (st x) =? Module_id (st m)) eqn:E; [|auto].
  apply Z.eqb_eq in E. exfalso. apply Hnotin. rewrite E.
  apply (in_map (fun q => Module_id (st q))). exact Hin.
Qed.

Lemma findModule_ext (st st' : store RackModule) (l : list addr) (id : Z) :
  (forall q, In q l -> Module_id (st' q) = Module_id (st q)) ->
  findModule st' l id = findModule st l id.
Proof.
  induction l as [|x l IH]; simpl; intros H; [reflexivity|].
  rewrite (H x) by auto. rewrite IH by auto. reflexivity.
Qed.

Lemma findModule_app (st : store RackModule) (l1 l2 : list addr) (id : Z) :
  findModule st (l1 ++ l2) id
  = match findModule st l1 id with
    | Some m => Some m
    | None => findModule st l2 id
    end.
Proof.
  induction l1 as [|x l1 IH]; simpl; [reflexivity|].
  destruct (Module_id (st x) =? id); auto.
Qed.

(** X1.  [getModule(id)] returns null exactly when no registered module has
    that id; a module it returns is registered and has that id; and when the
    registered ids are distinct, every registered module is found under its
    own id. *)
Theorem getModule_lookup (w : World) (id : Z) :
  (getModule w id = None
   <-> forall m, In m (modules (internal w)) -> Module_id (mods w m) <> id)
  /\ (forall m, getModule w id = Some m ->
                In m (modules (internal w)) /\ Module_id (mods w m) = id)
  /\ (NoDup (map (fun q => Module_id (mods w q)) (modules (internal w))) ->
      forall m, In m (modules (internal w)) ->
                getModule w (Module_id (mods w m)) = Some m).
Proof.
  unfold getModule. split; [apply findModule_None|].
  split; [intros m; apply findModule_Some|].
  intros Hnd m Hin. now apply findModule_unique.
Qed.

Lemma erase_snoc_fresh (m : addr) (l : list addr) :
  ~ In m l -> erase m (l ++ [m]) = l.
Proof.
  induction l as [|x l IH]; simpl; intros H.
  - now rewrite Pos.eqb_refl.
  - destruct (Pos.eqb x m) eqn:E.
    + apply Pos.eqb_eq in E. subst. exfalso. auto.
    + rewrite IH; auto.
Qed.

Lemma in_erase_other (p q : addr) (l : list addr) :
  q <> p -> In q l -> In q (erase p l).
Proof.
  intros Hne. induction l as [|x l IH]; simpl; [tauto|].
  destruct (Pos.eqb x p) eqn:E.
  - apply Pos.eqb_eq in E. subst x. intros [H|H]; [congruence | assumption].
  - simpl. intros [H|H]; auto.
Qed.

Lemma not_in_erase_NoDup (p : addr) (l : list addr) :
  NoDup l -> ~ In p (erase p l).
Proof.
  induction l as [|x l IH]; simpl; intros Hnd; [tauto|].
  inversion Hnd as [|? ? Hnotin Hnd']; subst.
  destruct (Pos.eqb x p) eqn:E.
  - apply Pos.eqb_eq in E. now subst.
  - apply Pos.eqb_neq in E. simpl. intros [H|H]; [congruence | now apply IH].
Qed.

Lemma NoDup_map_inv_addr {B : Type} (f : addr -> B) (l : list addr) :
  NoDup (map f l) -> NoDup l.
Proof.
  induction l as [|x l IH]; simpl; intros H; [constructor|].
  inversion H as [|? ? Hnotin Hnd]; subst. constructor; [|auto].
  intros Hin. apply Hnotin. now apply in_map.
Qed.

(** What [addModule] leaves alone. *)
Lemma addModule_frame (w w' : World) (m : addr) :
  addModule w (Some m) = Ok w' ->
  cables (internal w') = cables (internal w)
  /\ paramHandles (internal w') = paramHandles (internal w)
  /\ nextCableId (internal w') = nextCableId (internal w)
  /\ smoothModule (internal w') = smoothModule (internal w)
  /\ cabs w' = cabs w.
Proof.
  unfold addModule.
  destruct (mem m (modules (internal w))); cbn [negb assert bind]; [discriminate|].
  destruct (Module_id (mods w m) <? 0); cbn [bind].
  - intros [= <-]. simpl. auto.
  - destruct (forallb _ _); cbn [assert bind]; [|discriminate].
    destruct (Module_id (mods w m) >=? nextModuleId (internal w));
      intros [= <-]; simpl; auto.
Qed.

(** X2.  [addModule(m)] fails an assertion exactly when [m] is already
    registered or brings an id [>= 0] that a registered module has.  When
    it returns, [m] is found under its id by [getModule], provided the
    registered ids were below [nextModuleId], and every lookup that found
    a module still finds it. *)
Theorem addModule_then_getModule (w : World) (m : addr)
  (HonAdd : forall a, keeps_ids (Module_onAdd a)) :
  (addModule w (Some m) = AssertFail
   <-> In m (modules (internal w))
       \/ (0 <= Module_id (mods w m)
           /\ exists q, In q (modules (internal w))
                        /\ Module_id (mods w q) = Module_id (mods w m)))
  /\ (forall w', addModule w (Some m) = Ok w' ->
        Forall (fun q => Module_id (mods w q) < nextModuleId (internal w))
          (modules (internal w)) ->
        getModule w' (Module_id (mods w' m)) = Some m
        /\ forall id q, getModule w id = Some q -> getModule w' id = Some q).
Proof.
  assert (Hcases :
    (In m (modules (internal w))
     \/ (0 <= Module_id (mods w m)
         /\ exists q, In q (modules (internal w))
                      /\ Module_id (mods w q) = Module_id (mods w m)))
    /\ addModule w (Some m) = AssertFail
    \/ (~ In m (modules (internal w))
        /\ (0 <= Module_id (mods w m) ->
            forall q, In q (modules (internal w)) ->
                      Module_id (mods w q) <> Module_id (mods w m)))).
  { destruct (mem m (modules (internal w))) eqn:Emem.
    - left. apply mem_In in Emem. split; [auto|].
      unfold addModule. apply mem_In in Emem. now rewrite Emem.
    - apply mem_false in Emem.
      destruct (Z.ltb_spec (Module_id (mods w m)) 0) as [Hneg|Hpos].
      + right. split; [exact Emem | intros; lia].
      + destruct (forallb (fun q => negb (Module_id (mods w m) =? Module_id (mods w q)))
                    (modules (internal w))) eqn:Eall.
        * right. split; [exact Emem|]. intros _ q Hin Heq.
          rewrite forallb_forall in Eall. specialize (Eall q Hin).
          apply negb_true_iff in Eall. apply Z.eqb_neq in Eall. congruence.
        * left. destruct (forallb_false_exists _ _ Eall) as [q [Hin Hq]].
          apply negb_false_iff in Hq. apply Z.eqb_eq in Hq.
          split; [right; split; [exact Hpos | eauto]|].
          unfold addModule. apply mem_false in Emem. rewrite Emem. cbn [negb assert bind].
          apply Z.ltb_ge in Hpos. rewrite Hpos, Eall. reflexivity. }
  destruct Hcases as [[Hbad Hfail]|[Hfresh Hfree]].
  - rewrite Hfail. split; [tauto|]. discriminate.
  - destruct (addModule_returns w m Hfresh Hfree)
      as [w1 [st [Hret [Hmods [Hst [Hother [Hidm _]]]]]]].
    rewrite Hret. split.
    + split; [discriminate|]. intros [H|[Hpos [q [Hin Heq]]]]; [contradiction|].
      exfalso. exact (Hfree Hpos q Hin Heq).
    + intros w' [= <-] Hbelow. rewrite Forall_forall in Hbelow.
      assert (Hids : forall q, In q (modules (internal w)) ->
                       Module_id (mods w1 q) = Module_id (mods w q)).
      { intros q Hin. rewrite Hst, HonAdd, Hother; [reflexivity|].
        intros ->. contradiction. }
      unfold getModule. rewrite Hmods. split.
      * rewrite findModule_app, (findModule_ext (mods w)) by exact Hids.
        replace (findModule (mods w) (modules (internal w)) (Module_id (mods w1 m)))
          with (@None addr).
        { simpl. now rewrite Z.eqb_refl. }
        symmetry. apply findModule_None. intros q Hin.
        rewrite Hst, HonAdd, Hidm.
        destruct (Z.ltb_spec (Module_id (mods w m)) 0) as [Hneg|Hpos].
        -- specialize (Hbelow q Hin). simpl in Hbelow. lia.
        -- now apply Hfree.
      * intros id q Hq.
        rewrite findModule_app, (findModule_ext (mods w)) by exact Hids.
        now rewrite Hq.
Qed.

Lemma cables_connected (w : World) (m : addr) :
  forallb (fun c => negb (ptr_eqb (outputModule (cabs w c)) (Some m))
                    && negb (ptr_eqb (inputModule (cabs w c)) (Some m)))
    (cables (internal w)) = false ->
  exists c, In c (cables (internal w)) /\ cable_references (cabs w c) m.
Proof.
  intros H. destruct (forallb_false_exists _ _ H) as [c [Hin Hc]].
  exists c. split; [exact Hin|]. unfold cable_references.
  apply andb_false_iff in Hc. destruct Hc as [Hc|Hc];
    apply negb_false_iff in Hc; apply ptr_eqb_eq in Hc; auto.
Qed.

(** [removeModule] either gives up on an assertion or is as
    [removeModule_returns] says. *)
Lemma removeModule_cases (w : World) (m : addr) :
  ((~ In m (modules (internal w))
    \/ exists c, In c (cables (internal w)) /\ cable_references (cabs w c) m)
   /\ removeModule w (Some m) = AssertFail)
  \/ (In m (modules (internal w))
      /\ forall c, In c (cables (internal w)) -> ~ cable_references (cabs w c) m).
Proof.
  destruct (mem m (modules (internal w))) eqn:Emem.
  - apply mem_In in Emem.
    destruct (forallb (fun c => negb (ptr_eqb (outputModule (cabs w c)) (Some m))
                                && negb (ptr_eqb (inputModule (cabs w c)) (Some m)))
                (cables (internal w))) eqn:Ec.
    + right. split; [exact Emem|]. intros c Hin [H|H];
        rewrite forallb_forall in Ec; specialize (Ec c Hin);
        apply andb_prop in Ec; destruct Ec as [E1 E2];
        apply negb_true_iff in E1, E2; apply ptr_eqb_neq in E1, E2; contradiction.
    + left. split; [right; now apply cables_connected|].
      unfold removeModule. apply mem_In in Emem. rewrite Emem. cbn [assert bind].
      assert (Hc : forall w1, cabs w1 = cabs w ->
                     cables (internal w1) = cables (internal w) ->
                     forallb (fun c => negb (ptr_eqb (outputModule (cabs w1 c)) (Some m))
                                       && negb (ptr_eqb (inputModule (cabs w1 c)) (Some m)))
                       (cables (internal w1)) = false)
        by (intros w1 E1 E2; rewrite E1, E2; exact Ec).
      destruct (ptr_eqb (Some m) (smoothModule (internal w)));
        rewrite Hc by reflexivity; reflexivity.
  - left. split; [left; now apply mem_false|].
    unfold removeModule. now rewrite Emem.
Qed.

(** X3.  [removeModule(m)] fails an assertion exactly when [m] is not
    registered or some registered cable is plugged into [m]; it never runs
    into undefined behaviour.  When it returns and the registered ids were
    distinct, [m] is no longer registered, [getModule] no longer finds
    anything under [m]'s id, and it still finds every other registered
    module under its id. *)
Theorem removeModule_then_getModule (w : World) (m : addr)
  (HonRemove : forall a, keeps_ids (Module_onRemove a)) :
  (removeModule w (Some m) = AssertFail
   <-> ~ In m (modules (internal w))
       \/ exists c, In c (cables (internal w)) /\ cable_references (cabs w c) m)
  /\ removeModule w (Some m) <> Undefined
  /\ (forall w', removeModule w (Some m) = Ok w' ->
        NoDup (map (fun q => Module_id (mods w q)) (modules (internal w))) ->
        ~ In m (modules (internal w'))
        /\ getModule w' (Module_id (mods w m)) = None
        /\ forall q, In q (modules (internal w)) -> q <> m ->
                     In q (modules (internal w'))
                     /\ getModule w' (Module_id (mods w q)) = Some q).
Proof.
  destruct (removeModule_cases w m) as [[Hbad Hfail]|[Hreg Hcables]].
  - rewrite Hfail. split; [tauto|]. split; discriminate.
  - destruct (removeModule_returns w m Hreg Hcables)
      as [w1 [Hret [Hmods [_ [_ [_ [_ [_ [_ [st [Hst Hq]]]]]]]]]]].
    rewrite Hret. split; [|split; [discriminate|]].
    + split; [discriminate|]. intros [H|[c [Hin Hc]]]; [contradiction|].
      exfalso. exact (Hcables c Hin Hc).
    + intros w' [= <-] Hnd.
      assert (Hids : forall q, Module_id (mods w1 q) = Module_id (mods w q)).
      { intros q. rewrite Hst, HonRemove, Hq.
        destruct (mem q (modules (internal w))); reflexivity. }
      pose proof (NoDup_map_inv_addr _ _ Hnd) as Hnd_l.
      pose proof (NoDup_map_erase _ m _ Hnd) as Hnd_e.
      unfold getModule. rewrite Hmods.
      rewrite !(findModule_ext (mods w) (mods w1)) by (intros; apply Hids).
      split; [now apply not_in_erase_NoDup|]. split.
      * apply findModule_None. intros q Hin Heq.
        assert (q = m).
        { assert (Hf : findModule (mods w) (modules (internal w)) (Module_id (mods w q))
                       = Some q)
            by (apply findModule_unique; [assumption | eapply in_erase; eassumption]).
          rewrite Heq, findModule_unique in Hf by assumption. congruence. }
        subst q. exact (not_in_erase_NoDup m _ Hnd_l Hin).
      * intros q Hin Hne. split; [now apply in_erase_other|].
        intros. rewrite (findModule_ext (mods w) (mods w1)) by (intros; apply Hids).
        apply findModule_unique; [assumption | now apply in_erase_other].
Qed.

(** X4.  Adding a fresh module and removing it again, no cable being plugged
    into it, gives back the lists of modules, cables and handles; every
    cable is as before, and the id counter has not gone back when the id
    arithmetic stays within [int]. *)
Theorem addModule_removeModule_roundtrip (w : World) (m : addr)
  (Hfresh : ~ In m (modules (internal w)))
  (Hfree : 0 <= Module_id (mods w m) ->
           forall q, In q (modules (internal w)) ->
                     Module_id (mods w q) <> Module_id (mods w m))
  (Hcables : forall c, In c (cables (internal w)) -> ~ cable_references (cabs w c) m) :
  exists w1 w2,
    addModule w (Some m) = Ok w1
    /\ removeModule w1 (Some m) = Ok w2
    /\ modules (internal w2) = modules (internal w)
    /\ cables (internal w2) = cables (internal w)
    /\ paramHandles (internal w2) = paramHandles (internal w)
    /\ cabs w2 = cabs w
    /\ smoothModule (internal w2) <> Some m
    /\ (is_int (nextModuleId (internal w)) ->
        nextModuleId (internal w) < INT_MAX -> Module_id (mods w m) < INT_MAX ->
        nextModuleId (internal w) <= nextModuleId (internal w2)).
Proof.
  destruct (addModule_returns w m Hfresh Hfree)
    as [w1 [st [Hret [Hmods [_ [_ [_ Hn]]]]]]].
  destruct (addModule_frame w w1 m Hret) as [Hc [Hp [_ [Hs Hcabs]]]].
  assert (Hreg1 : In m (modules (internal w1)))
    by (rewrite Hmods; apply in_or_app; right; simpl; auto).
  assert (Hcables1 : forall c, In c (cables (internal w1)) ->
                       ~ cable_references (cabs w1 c) m)
    by (intros c; rewrite Hc, Hcabs; apply Hcables).
  destruct (removeModule_returns w1 m Hreg1 Hcables1)
    as [w2 [Hret2 [Hmods2 [Hc2 [Hp2 [Hn2 [Hs2 [Hcabs2 _]]]]]]]].
  exists w1, w2. split; [exact Hret|]. split; [exact Hret2|].
  split; [rewrite Hmods2, Hmods; now apply erase_snoc_fresh|].
  split; [congruence|]. split; [congruence|]. split; [congruence|].
  split.
  - rewrite Hs2. destruct (ptr_eqb (Some m) (smoothModule (internal w1))) eqn:E;
      [discriminate|]. apply ptr_eqb_neq in E. congruence.
  - intros Hint Hnext Hid. rewrite Hn2, Hn. unfold is_int, INT_MIN, INT_MAX in *.
    destruct (Module_id (mods w m) <? 0).
    + rewrite wrap_int_id by (unfold is_int, INT_MIN, INT_MAX; lia). lia.
    + destruct (Module_id (mods w m) >=? nextModuleId (internal w)) eqn:E; [|lia].
      apply Z.geb_le in E.
      rewrite wrap_int_id by (unfold is_int, INT_MIN, INT_MAX; lia). lia.
Qed.

(** ** Resolving expanders *)

Lemma Engine_updateExpander_ext (st st' : store RackModule) (l : list addr) (e : Expander) :
  (forall q, Module_id (st' q) = Module_id (st q)) ->
  Engine_updateExpander st' l e = Engine_updateExpander st l e.
Proof.
  intros H. unfold Engine_updateExpander, expander_stale.
  rewrite (findModule_ext st st') by (intros; apply H).
  destruct (Expander_module e) as [x|]; [rewrite H|]; reflexivity.
Qed.

Lemma Engine_updateExpander_resolved (st : store RackModule) (l : list addr) (e : Expander) :
  expander_resolved st l (Engine_updateExpander st l e).
Proof.
  unfold Engine_updateExpander. rewrite Z.geb_leb.
  destruct (Z.leb_spec 0 (Expander_moduleId e)) as [Hid|Hid].
  - destruct (expander_stale st e) eqn:Es.
    + unfold expander_resolved. simpl. split; [lia|]. split.
      * intros x Hx. apply findModule_Some in Hx. tauto.
      * intros _ Hn. now apply findModule_None.
    + unfold expander_stale in Es.
      destruct (Expander_module e) as [x|] eqn:Em; [|discriminate].
      apply negb_false_iff in Es. apply Z.eqb_eq in Es.
      unfold expander_resolved. rewrite Em.
      split; [lia|]. split; [intros y [= <-]; exact Es | discriminate].
  - destruct (Expander_module e) as [x|] eqn:Em; simpl.
    + unfold expander_resolved. simpl. split; [reflexivity|]. split; [discriminate | lia].
    + unfold expander_resolved. rewrite Em.
      split; [reflexivity|]. split; [discriminate | lia].
Qed.

Lemma Engine_updateExpander_fixed (st : store RackModule) (l : list addr) (e : Expander) :
  expander_resolved st l e -> Engine_updateExpander st l e = e.
Proof.
  intros [H1 [H2 H3]]. unfold Engine_updateExpander. rewrite Z.geb_leb.
  destruct (Z.leb_spec 0 (Expander_moduleId e)) as [Hid|Hid].
  - unfold expander_stale. destruct (Expander_module e) as [x|] eqn:Em.
    + rewrite (H2 x eq_refl), Z.eqb_refl. reflexivity.
    + replace (findModule st l (Expander_moduleId e)) with (@None addr)
        by (symmetry; apply findModule_None; now apply H3).
      destruct e; simpl in *; now subst.
  - now rewrite (H1 Hid).
Qed.

(** X5.  [Engine_updateExpander] leaves the expander resolved: without a
    target ([moduleId < 0]) the cached module is null; a cached module has
    the target's id; and a null cache with a target means that no registered
    module has that id.  A cached module it installs is registered.  It
    touches only the cached module, and a second call changes nothing. *)
Theorem Engine_updateExpander_resolves (st : store RackModule) (l : list addr) (e : Expander) :
  expander_resolved st l (Engine_updateExpander st l e)
  /\ (forall x, Expander_module (Engine_updateExpander st l e) = Some x ->
                Expander_module e = Some x \/ In x l)
  /\ Engine_updateExpander st l e
     = set_Expander_module (Expander_module (Engine_updateExpander st l e)) e
  /\ Engine_updateExpander st l (Engine_updateExpander st l e)
     = Engine_updateExpander st l e.
Proof.
  split; [apply Engine_updateExpander_resolved|].
  split; [|split].
  - unfold Engine_updateExpander.
    destruct (Expander_moduleId e >=? 0); [destruct (expander_stale st e)|
      destruct (negb (is_null (Expander_module e)))]; simpl; auto; try discriminate.
    intros x Hx. right. apply findModule_Some in Hx. tauto.
  - unfold Engine_updateExpander.
    destruct (Expander_moduleId e >=? 0); [destruct (expander_stale st e)|
      destruct (negb (is_null (Expander_module e)))]; destruct e; reflexivity.
  - apply Engine_updateExpander_fixed, Engine_updateExpander_resolved.
Qed.

Lemma resolve_module_idem (st : store RackModule) (l : list addr) (x : RackModule) :
  resolve_module st l (resolve_module st l x) = resolve_module st l x.
Proof.
  unfold resolve_module. simpl.
  rewrite (Engine_updateExpander_fixed st l (Engine_updateExpander st l (leftExpander x)))
    by apply Engine_updateExpander_resolved.
  rewrite (Engine_updateExpander_fixed st l (Engine_updateExpander st l (rightExpander x)))
    by apply Engine_updateExpander_resolved.
  reflexivity.
Qed.

Lemma updateExpanders_of_pointwise (l0 : list addr) (base st : store RackModule)
    (m q : addr) :
  (forall x, Module_id (st x) = Module_id (base x)) ->
  updateExpanders_of l0 st m q
  = if Pos.eqb q m then resolve_module base l0 (st q) else st q.
Proof.
  intros Hids. unfold updateExpanders_of.
  set (st1 := upd st m _).
  assert (Hids1 : forall x, Module_id (st1 x) = Module_id (base x)).
  { intros x. subst st1. unfold upd. destruct (Pos.eqb x m) eqn:E; [|apply Hids].
    apply Pos.eqb_eq in E. subst x. simpl. apply Hids. }
  rewrite (Engine_updateExpander_ext base st1) by exact Hids1.
  unfold upd at 1. destruct (Pos.eqb q m) eqn:E.
  - apply Pos.eqb_eq in E. subst q. subst st1. rewrite upd_same.
    rewrite (Engine_updateExpander_ext base st) by exact Hids. reflexivity.
  - subst st1. unfold upd. now rewrite E.
Qed.

Lemma fold_updateExpanders (l0 : list addr) (base : store RackModule) (l : list addr) :
  forall st,
    (forall x, Module_id (st x) = Module_id (base x)) ->
    forall q,
      fold_left (updateExpanders_of l0) l st q
      = if mem q l then resolve_module base l0 (st q) else st q.
Proof.
  induction l as [|m l IH]; intros st Hids q; [reflexivity|].
  cbn [fold_left]. rewrite IH.
  - rewrite (updateExpanders_of_pointwise l0 base) by exact Hids.
    change (mem q (m :: l)) with (Pos.eqb q m || mem q l).
    destruct (Pos.eqb q m); simpl; [|reflexivity].
    rewrite resolve_module_idem. now destruct (mem q l).
  - intros x. rewrite (updateExpanders_of_pointwise l0 base) by exact Hids.
    destruct (Pos.eqb x m); [|apply Hids]. simpl. apply Hids.
Qed.

(** X6.  The expander loop of [Engine_run] leaves both expanders of every
    registered module resolved; it writes nothing but cached module
    pointers of registered modules' expanders, and running it again changes
    nothing. *)
Theorem Engine_updateExpanders_resolves (w : World) :
  internal (Engine_updateExpanders w) = internal w
  /\ cabs (Engine_updateExpanders w) = cabs w
  /\ hdls (Engine_updateExpanders w) = hdls w
  /\ (forall q, mods (Engine_updateExpanders w) q
                = if mem q (modules (internal w))
                  then resolve_module (mods w) (modules (internal w)) (mods w q)
                  else mods w q)
  /\ (forall q side,
        In q (modules (internal w)) -> expander_side side ->
        expander_resolved (mods (Engine_updateExpanders w)) (modules (internal w))
          (side (mods (Engine_updateExpanders w) q)))
  /\ (forall q, mods (Engine_updateExpanders (Engine_updateExpanders w)) q
                = mods (Engine_updateExpanders w) q).
Proof.
  assert (Hpt : forall q, mods (Engine_updateExpanders w) q
                          = if mem q (modules (internal w))
                            then resolve_module (mods w) (modules (internal w)) (mods w q)
                            else mods w q).
  { intros q. unfold Engine_updateExpanders. cbn [mods with_mods].
    now apply fold_updateExpanders. }
  assert (Hids : forall q, Module_id (mods (Engine_updateExpanders w) q)
                           = Module_id (mods w q)).
  { intros q. rewrite Hpt. destruct (mem q (modules (internal w))); reflexivity. }
  split; [reflexivity|]. split; [reflexivity|]. split; [reflexivity|].
  split; [exact Hpt|]. split.
  - intros q side Hin Hside. rewrite Hpt. apply mem_In in Hin. rewrite Hin.
    assert (Hres : forall e, expander_resolved (mods (Engine_updateExpanders w))
                               (modules (internal w))
                               (Engine_updateExpander (mods w) (modules (internal w)) e)).
    { intros e.
      rewrite <- (Engine_updateExpander_ext (mods w) (mods (Engine_updateExpanders w)))
        by exact Hids.
      apply Engine_updateExpander_resolved. }
    destruct Hside; subst side; unfold resolve_module; simpl; apply Hres.
  - intros q.
    unfold Engine_updateExpanders at 1. cbn [mods with_mods internal].
    rewrite (fold_updateExpanders _ (mods w)) by exact Hids.
    change (internal (Engine_updateExpanders w)) with (internal w).
    rewrite Hpt. destruct (mem q (modules (internal w))); [|reflexivity].
    apply resolve_module_idem.
Qed.

(** ** Active flags *)

Lemma map_deactivate_replace (l : list Port) (n : nat) (o : Port) (b : bool) :
  nth_error l n = Some o ->
  map (set_active false) (replace_nth l n (set_active b o)) = map (set_active false) l.
Proof.
  revert n. induction l as [|x l IH]; intros [|n]; simpl; try discriminate.
  - intros [= ->]. reflexivity.
  - intros H. now rewrite IH.
Qed.

Lemma map_deactivate_idem (l : list Port) :
  map (set_active false) (map (set_active false) l) = map (set_active false) l.
Proof. rewrite map_map. reflexivity. Qed.

Lemma deactivate_ports_idem (x : RackModule) :
  deactivate_ports (deactivate_ports x) = deactivate_ports x.
Proof.
  unfold deactivate_ports. simpl. now rewrite !map_deactivate_idem.
Qed.

Lemma only_active_differs_refl (st : store RackModule) : only_active_differs st st.
Proof. intros q. reflexivity. Qed.

Lemma only_active_differs_trans (a b c : store RackModule) :
  only_active_differs a b -> only_active_differs b c -> only_active_differs a c.
Proof. intros H1 H2 q. now rewrite H2, H1. Qed.

Lemma vec_get_Ok_nth {A : Type} (v : list A) (i : Z) (x : A) :
  vec_get v i = Ok x -> nth_error v (Z.to_nat i) = Some x.
Proof.
  unfold vec_get. destruct ((0 <=? i) && (i <? Z.of_nat (length v))); [|discriminate].
  destruct (nth_error v (Z.to_nat i)); [|discriminate]. now intros [= ->].
Qed.

Lemma port_active_replace (l : list Port) (i j : Z) (o : Port) :
  0 <= i < Z.of_nat (length l) ->
  port_active (replace_nth l (Z.to_nat i) (set_active true o)) j
  <-> port_active l j \/ j = i.
Proof.
  intros Hi. unfold port_active. destruct (Z.eq_dec j i) as [->|Hne].
  - rewrite vec_get_replace_same by assumption. split; [auto|].
    intros _. eexists. split; reflexivity.
  - rewrite vec_get_replace_other by lia. split; [auto|].
    intros [H|H]; [exact H | contradiction].
Qed.

Lemma activate_output_spec (st st' : store RackModule) (m : pointer) (i : Z) :
  activate_output st m i = Ok st' ->
  exists a,
    m = Some a /\ 0 <= i < Z.of_nat (length (outputs (st a)))
    /\ only_active_differs st st'
    /\ (forall q, inputs (st' q) = inputs (st q))
    /\ (forall q j, port_active (outputs (st' q)) j
                    <-> port_active (outputs (st q)) j \/ (q = a /\ j = i)).
Proof.
  unfold activate_output. destruct m as [a|]; [|discriminate].
  destruct (vec_get (outputs (st a)) i) as [o| |] eqn:Eg; cbn [bind]; try discriminate.
  pose proof (vec_get_Ok_range _ _ _ Eg) as Hr.
  rewrite vec_set_in_range by assumption. cbn [bind]. intros [= <-].
  exists a. split; [reflexivity|]. split; [exact Hr|]. split; [|split].
  - intros q. unfold upd. destruct (Pos.eqb q a) eqn:E; [|reflexivity].
    apply Pos.eqb_eq in E. subst q. unfold deactivate_ports. simpl.
    now rewrite (map_deactivate_replace _ _ _ _ (vec_get_Ok_nth _ _ _ Eg)).
  - intros q. unfold upd. destruct (Pos.eqb q a) eqn:E; [|reflexivity].
    apply Pos.eqb_eq in E. now subst q.
  - intros q j. unfold upd. destruct (Pos.eqb q a) eqn:E.
    + apply Pos.eqb_eq in E. subst q. simpl.
      rewrite port_active_replace by assumption. intuition.
    + apply Pos.eqb_neq in E. intuition.
Qed.

Lemma activate_input_spec (st st' : store RackModule) (m : pointer) (i : Z) :
  activate_input st m i = Ok st' ->
  exists a,
    m = Some a /\ 0 <= i < Z.of_nat (length (inputs (st a)))
    /\ only_active_differs st st'
    /\ (forall q, outputs (st' q) = outputs (st q))
    /\ (forall q j, port_active (inputs (st' q)) j
                    <-> port_active (inputs (st q)) j \/ (q = a /\ j = i)).
Proof.
  unfold activate_input. destruct m as [a|]; [|discriminate].
  destruct (vec_get (inputs (st a)) i) as [o| |] eqn:Eg; cbn [bind]; try discriminate.
  pose proof (vec_get_Ok_range _ _ _ Eg) as Hr.
  rewrite vec_set_in_range by assumption. cbn [bind]. intros [= <-].
  exists a. split; [reflexivity|]. split; [exact Hr|]. split; [|split].
  - intros q. unfold upd. destruct (Pos.eqb q a) eqn:E; [|reflexivity].
    apply Pos.eqb_eq in E. subst q. unfold deactivate_ports. simpl.
    now rewrite (map_deactivate_replace _ _ _ _ (vec_get_Ok_nth _ _ _ Eg)).
  - intros q. unfold upd. destruct (Pos.eqb q a) eqn:E; [|reflexivity].
    apply Pos.eqb_eq in E. now subst q.
  - intros q j. unfold upd. destruct (Pos.eqb q a) eqn:E.
    + apply Pos.eqb_eq in E. subst q. simpl.
      rewrite port_active_replace by assumption. intuition.
    + apply Pos.eqb_neq in E. intuition.
Qed.

Lemma connect_all_spec (cs : store Cable) (l : list addr) :
  forall st st',
    foldM (fun st c =>
             st1 <- activate_output st (outputModule (cs c)) (outputId (cs c)) ;;
             activate_input st1 (inputModule (cs c)) (inputId (cs c)))
      l st = Ok st' ->
    only_active_differs st st'
    /\ (forall q j, port_active (inputs (st' q)) j
                    <-> port_active (inputs (st q)) j
                        \/ exists c, In c l /\ plugged_in (cs c) q j)
    /\ (forall q j, port_active (outputs (st' q)) j
                    <-> port_active (outputs (st q)) j
                        \/ exists c, In c l /\ plugged_out (cs c) q j).
Proof.
  induction l as [|c l IH]; intros st st'; simpl.
  - intros [= <-]. split; [apply only_active_differs_refl|].
    split; intros q j; split; auto; intros [H|[c [[] _]]]; exact H.
  - destruct (activate_output st (outputModule (cs c)) (outputId (cs c)))
      as [st1| |] eqn:E1; cbn [bind]; try discriminate.
    destruct (activate_input st1 (inputModule (cs c)) (inputId (cs c)))
      as [st2| |] eqn:E2; cbn [bind]; try discriminate.
    intros Hrest.
    destruct (activate_output_spec _ _ _ _ E1) as [a [Ha [_ [D1 [I1' O1]]]]].
    destruct (activate_input_spec _ _ _ _ E2) as [b [Hb [_ [D2 [O2 I2']]]]].
    destruct (IH _ _ Hrest) as [D3 [I3' O3]].
    split; [|split].
    + eapply only_active_differs_trans; [|exact D3].
      eapply only_active_differs_trans; eassumption.
    + intros q j. rewrite I3', I2', I1'. unfold plugged_in. split.
      * intros [[H|[-> ->]]|[c' [Hin Hc]]]; eauto 6.
      * intros [H|[c' [[<-|Hin] [Hm Hi]]]]; eauto 6.
        left. right. split; congruence.
    + intros q j. rewrite O3, O2, O1. unfold plugged_out. split.
      * intros [[H|[-> ->]]|[c' [Hin Hc]]]; eauto 6.
      * intros [H|[c' [[<-|Hin] [Hm Hi]]]]; eauto 6.
        left. right. split; congruence.
Qed.

Lemma fold_deactivate (l : list addr) (st : store RackModule) (q : addr) :
  fold_left (fun st m => upd st m (deactivate_ports (st m))) l st q
  = if mem q l then deactivate_ports (st q) else st q.
Proof.
  apply (fold_left_pointwise deactivate_ports).
  - intros st' h x. unfold upd. destruct (Pos.eqb x h) eqn:E; [|reflexivity].
    apply Pos.eqb_eq in E. now subst.
  - apply deactivate_ports_idem.
Qed.

Lemma port_active_deactivated (l : list Port) (j : Z) :
  ~ port_active (map (set_active false) l) j.
Proof.
  intros [p [Hp Ha]]. apply vec_get_Ok_nth in Hp.
  rewrite nth_error_map in Hp. destruct (nth_error l (Z.to_nat j)); [|discriminate].
  injection Hp as <-. discriminate.
Qed.

(** What a refresh of the active flags does, whenever it returns. *)
Lemma Engine_updateConnected_spec (w w' : World) :
  Engine_updateConnected w = Ok w' ->
  internal w' = internal w /\ cabs w' = cabs w /\ hdls w' = hdls w
  /\ only_active_differs (mods w) (mods w')
  /\ (forall q j, In q (modules (internal w)) ->
        (port_active (inputs (mods w' q)) j
         <-> exists c, In c (cables (internal w)) /\ plugged_in (cabs w c) q j)
        /\ (port_active (outputs (mods w' q)) j
            <-> exists c, In c (cables (internal w)) /\ plugged_out (cabs w c) q j)).
Proof.
  unfold Engine_updateConnected.
  set (st0 := fold_left _ (modules (internal w)) (mods w)).
  destruct (foldM _ (cables (internal w)) st0) as [st1| |] eqn:E; cbn [bind];
    try discriminate.
  intros [= <-]. destruct (connect_all_spec _ _ _ _ E) as [D [I O]].
  assert (D0 : only_active_differs (mods w) st0).
  { intros q. subst st0. rewrite fold_deactivate.
    destruct (mem q (modules (internal w))); [apply deactivate_ports_idem | reflexivity]. }
  split; [reflexivity|]. split; [reflexivity|]. split; [reflexivity|].
  split; [eapply only_active_differs_trans; eassumption|].
  intros q j Hin. cbn [mods with_mods]. rewrite I, O.
  assert (Hq : st0 q = deactivate_ports (mods w q)).
  { subst st0. rewrite fold_deactivate. apply mem_In in Hin. now rewrite Hin. }
  rewrite Hq. unfold deactivate_ports. simpl.
  split; (split; [intros [H|H]; [exfalso; exact (port_active_deactivated _ _ H) | exact H]
                 | auto]).
Qed.

(** X7.  When every registered cable names existing ports,
    [Engine_updateConnected] returns, and afterwards an input of a
    registered module is active exactly when a registered cable is plugged
    into it, and likewise an output.  Nothing but active flags changes. *)
Theorem Engine_updateConnected_active (w : World)
  (Hports : forall c, In c (cables (internal w)) -> cable_ports_ok w c) :
  exists w',
    Engine_updateConnected w = Ok w'
    /\ internal w' = internal w /\ cabs w' = cabs w /\ hdls w' = hdls w
    /\ only_active_differs (mods w) (mods w')
    /\ (forall q j, In q (modules (internal w)) ->
          (port_active (inputs (mods w' q)) j
           <-> exists c, In c (cables (internal w)) /\ plugged_in (cabs w c) q j)
          /\ (port_active (outputs (mods w' q)) j
              <-> exists c, In c (cables (internal w)) /\ plugged_out (cabs w c) q j)).
Proof.
  destruct (Engine_updateConnected_returns w Hports) as [st Hret].
  eexists. split; [exact Hret|]. now apply Engine_updateConnected_spec.
Qed.

(** ** Removing cables *)

Lemma NoDup_map_injective_in {B : Type} (f : addr -> B) (l : list addr) (x y : addr) :
  NoDup (map f l) -> In x l -> In y l -> f x = f y -> x = y.
Proof.
  induction l as [|z l IH]; simpl; intros Hnd Hx Hy Hf; [contradiction|].
  inversion Hnd as [|? ? Hnotin Hnd']; subst.
  destruct Hx as [->|Hx], Hy as [->|Hy]; auto.
  - exfalso. apply Hnotin. rewrite Hf. now apply in_map.
  - exfalso. apply Hnotin. rewrite <- Hf. now apply in_map.
Qed.

Lemma only_active_differs_input (st st' : store RackModule) (q : addr) (i : Z) (p : Port) :
  only_active_differs st st' ->
  vec_get (inputs (st q)) i = Ok p ->
  exists p', vec_get (inputs (st' q)) i = Ok p'
             /\ channels p' = channels p /\ voltages p' = voltages p.
Proof.
  intros D Hp. specialize (D q).
  assert (E : map (set_active false) (inputs (st' q)) = map (set_active false) (inputs (st q)))
    by (apply (f_equal inputs) in D; exact D).
  pose proof (vec_get_Ok_range _ _ _ Hp) as Hr.
  assert (Hlen : length (inputs (st' q)) = length (inputs (st q))).
  { rewrite <- (length_map (set_active false) (inputs (st' q))), E. apply length_map. }
  destruct (vec_get_in_range (inputs (st' q)) i) as [p' Hp']; [lia|].
  exists p'. split; [exact Hp'|].
  apply vec_get_Ok_nth in Hp, Hp'.
  assert (En : nth_error (map (set_active false) (inputs (st' q))) (Z.to_nat i)
               = nth_error (map (set_active false) (inputs (st q))) (Z.to_nat i))
    by now rewrite E.
  rewrite !nth_error_map, Hp, Hp' in En. simpl in En.
  injection En as Hv Hc _. auto.
Qed.

(** [removeCable] on a registered cable of a well-formed rack. *)
Lemma removeCable_returns (w : World) (c im : addr) :
  In c (cables (internal w)) ->
  I3 w ->
  (forall q, In q (cables (internal w)) -> cable_ports_ok w q) ->
  inputModule (cabs w c) = Some im -> In im (modules (internal w)) ->
  exists w' p,
    removeCable w (Some c) = Ok w'
    /\ cables (internal w') = erase c (cables (internal w))
    /\ ~ In c (cables (internal w'))
    /\ (forall q, q <> c -> In q (cables (internal w)) -> In q (cables (internal w')))
    /\ modules (internal w') = modules (internal w)
    /\ cabs w' = cabs w /\ hdls w' = hdls w
    /\ I3 w'
    /\ vec_get (inputs (mods w' im)) (inputId (cabs w c)) = Ok p
    /\ channels p = 0 /\ active p = false.
Proof.
  intros Hin HI3 Hports Him Hreg.
    destruct (Hports c Hin) as [om [im' [Eo [Ei [Ro Ri]]]]].
    assert (im' = im) by congruence. subst im'.
    unfold removeCable. apply mem_In in Hin as Hmem. rewrite Hmem, Him. cbn [assert bind].
    destruct (vec_get_in_range _ _ Ri) as [input Hinput]. rewrite Hinput. cbn [bind].
    rewrite vec_set_in_range by assumption. cbn [bind].
    set (w2 := with_internal _ _).
    assert (Hshape : forall q, length (inputs (mods w2 q)) = length (inputs (mods w q))
                               /\ outputs (mods w2 q) = outputs (mods w q)).
    { intros q. subst w2. simpl. unfold upd. destruct (Pos.eqb q im) eqn:E; [|auto].
      apply Pos.eqb_eq in E. subst q. simpl. now rewrite length_replace_nth. }
    destruct (Engine_updateConnected_returns w2) as [st Hret].
    { intros q Hq.
      assert (Hq' : In q (cables (internal w))) by (eapply in_erase; exact Hq).
      destruct (Hports q Hq') as [a [b [Ea [Eb [Ra Rb]]]]].
      exists a, b. change (cabs w2 q) with (cabs w q).
      destruct (Hshape a) as [_ ->]. destruct (Hshape b) as [-> _]. auto. }
    destruct (Engine_updateConnected_spec _ _ Hret) as [Hi [Hc [Hh [D Hact]]]].
    pose proof (NoDup_map_inv_addr _ _ HI3) as Hnd.
    assert (Hp2 : vec_get (inputs (mods w2 im)) (inputId (cabs w c))
                  = Ok (Port_setChannels 0 input)).
    { subst w2. simpl. rewrite upd_same. simpl. now apply vec_get_replace_same. }
    destruct (only_active_differs_input _ _ _ _ _ D Hp2) as [p [Hp [Hch _]]].
    exists (with_mods st w2), p. split; [exact Hret|].
    cbn [internal cabs hdls with_mods mods] in *.
    split; [reflexivity|]. split; [now apply not_in_erase_NoDup|].
    split; [intros q Hq Hq'; subst w2; simpl; now apply in_erase_other|].
    split; [reflexivity|]. split; [reflexivity|]. split; [reflexivity|].
    split; [unfold I3; subst w2; simpl; now apply NoDup_map_erase|].
    split; [exact Hp|]. split; [exact Hch|].
    destruct (active p) eqn:Ea; [|reflexivity]. exfalso.
    assert (Hpa : port_active (inputs (st im)) (inputId (cabs w c)))
      by (exists p; auto).
    apply (Hact im (inputId (cabs w c)) Hreg) in Hpa.
    destruct Hpa as [c' [Hc' [Hm' Hi']]]. subst w2. simpl in Hc', Hm', Hi'.
    assert (c' = c).
    { apply (NoDup_map_injective_in _ _ _ _ HI3); [eapply in_erase; eassumption | exact Hin|].
      simpl. congruence. }
    subst c'. exact (not_in_erase_NoDup c _ Hnd Hc').
Qed.

(** X8.  [removeCable(c)] fails an assertion exactly when [c] is not
    registered.  For a registered cable, on a state that obeys I3 and whose
    cables name existing ports of registered modules, it returns: [c] is no
    longer registered, the other cables stay in their order, I3 still
    holds, and the input that [c] was plugged into has 0 channels and is no
    longer active. *)
Theorem removeCable_unplugs (w : World) (c : addr) :
  (removeCable w (Some c) = AssertFail <-> ~ In c (cables (internal w)))
  /\ (In c (cables (internal w)) ->
      I3 w ->
      (forall q, In q (cables (internal w)) -> cable_ports_ok w q) ->
      forall im, inputModule (cabs w c) = Some im -> In im (modules (internal w)) ->
      exists w' p,
        removeCable w (Some c) = Ok w'
        /\ cables (internal w') = erase c (cables (internal w))
        /\ ~ In c (cables (internal w'))
        /\ (forall q, q <> c -> In q (cables (internal w)) -> In q (cables (internal w')))
        /\ modules (internal w') = modules (internal w)
        /\ cabs w' = cabs w /\ hdls w' = hdls w
        /\ I3 w'
        /\ vec_get (inputs (mods w' im)) (inputId (cabs w c)) = Ok p
        /\ channels p = 0 /\ active p = false).
Proof.
  split.
  - unfold removeCable. destruct (mem c (cables (internal w))) eqn:Emem; cbn [assert bind].
    + apply mem_In in Emem. split; [|tauto]. intros H. exfalso. revert H.
      destruct (inputModule (cabs w c)) as [im|]; [|discriminate].
      destruct (vec_get _ _) as [input| |] eqn:Eg; cbn [bind]; try discriminate.
      * rewrite vec_set_in_range by (eapply vec_get_Ok_range; eassumption).
        cbn [bind]. apply Engine_updateConnected_no_assert.
      * exfalso. revert Eg. unfold vec_get.
        destruct (_ && _); [destruct (nth_error _ _)|]; discriminate.
    + apply mem_false in Emem. tauto.
  - intros Hin HI3 Hports im Him Hreg. now apply removeCable_returns.
Qed.

(** What a returning [addCable] has done to the engine's own fields. *)
Lemma addCable_inv (w w' : World) (c : addr) :
  addCable w (Some c) = Ok w' ->
  ~ addCable_conflict w c
  /\ cables (internal w') = cables (internal w) ++ [c]
  /\ modules (internal w') = modules (internal w)
  /\ paramHandles (internal w') = paramHandles (internal w)
  /\ hdls w' = hdls w
  /\ (forall q, q <> c -> cabs w' q = cabs w q)
  /\ cabs w' c
     = set_Cable_id
         (if Cable_id (cabs w c) <? 0 then nextCableId (internal w)
          else Cable_id (cabs w c))
         (cabs w c)
  /\ nextCableId (internal w')
     = (if Cable_id (cabs w c) <? 0 then wrap_int (nextCableId (internal w) + 1)
        else if Cable_id (cabs w c) >=? nextCableId (internal w)
             then wrap_int (Cable_id (cabs w c) + 1)
             else nextCableId (internal w))
  /\ only_active_differs (mods w) (mods w').
Proof.
  intros Hok. split.
  { destruct (addCable_cases w c) as [[_ Hfail]|[Hnc _]]; [congruence | exact Hnc]. }
  revert Hok. unfold addCable.
  destruct (is_null (outputModule (cabs w c))); cbn [negb assert bind]; [discriminate|].
  destruct (is_null (inputModule (cabs w c))); cbn [negb assert bind]; [discriminate|].
  destruct (forallb (fun c2 => negb (Pos.eqb c2 c)
                               && negb (same_input (cabs w c2) (cabs w c)))
              (cables (internal w))); cbn [assert bind]; [|discriminate].
  destruct (Cable_id (cabs w c) <? 0); cbn [bind].
  - intros H. apply Engine_updateConnected_spec in H.
    destruct H as [Hi [Hc [Hh [D _]]]]. rewrite Hi, Hc, Hh. simpl.
    repeat split; auto.
    + intros q Hq. now apply upd_other.
    + now rewrite upd_same.
  - destruct (forallb (fun q => negb (Cable_id (cabs w c) =? Cable_id (cabs w q)))
                (cables (internal w))); cbn [assert bind]; [|discriminate].
    destruct (Cable_id (cabs w c) >=? nextCableId (internal w));
      intros H; apply Engine_updateConnected_spec in H;
      destruct H as [Hi [Hc [Hh [D _]]]]; rewrite Hi, Hc, Hh; simpl;
      repeat split; auto; now destruct (cabs w c).
Qed.

(** What a returning [removeCable] has done to the engine's own fields. *)
Lemma removeCable_inv (w w' : World) (c : addr) :
  removeCable w (Some c) = Ok w' ->
  In c (cables (internal w))
  /\ cables (internal w') = erase c (cables (internal w))
  /\ modules (internal w') = modules (internal w)
  /\ paramHandles (internal w') = paramHandles (internal w)
  /\ nextCableId (internal w') = nextCableId (internal w)
  /\ cabs w' = cabs w /\ hdls w' = hdls w.
Proof.
  unfold removeCable.
  destruct (mem c (cables (internal w))) eqn:Emem; cbn [assert bind]; [|discriminate].
  apply mem_In in Emem.
  destruct (inputModule (cabs w c)) as [im|]; [|discriminate].
  destruct (vec_get _ _); cbn [bind]; try discriminate.
  destruct (vec_set _ _ _); cbn [bind]; try discriminate.
  intros H. apply Engine_updateConnected_spec in H.
  destruct H as [Hi [Hc [Hh _]]]. rewrite Hi, Hc, Hh. simpl. auto 10.
Qed.

(** X9.  I2 (registered cables have pairwise-distinct ids, all below
    [nextCableId]) is kept by [removeCable], and by [addCable] as long as
    the id arithmetic stays within [int]; [nextCableId] never goes back. *)
Theorem cables_keep_I2 (w : World) (c : addr)
  (HI2 : I2 w)
  (Hint : is_int (nextCableId (internal w))) :
  (forall w', addCable w (Some c) = Ok w' ->
     (Cable_id (cabs w c) < 0 -> nextCableId (internal w) < INT_MAX) ->
     Cable_id (cabs w c) < INT_MAX ->
     I2 w' /\ nextCableId (internal w) <= nextCableId (internal w'))
  /\ (forall w', removeCable w (Some c) = Ok w' ->
        I2 w' /\ nextCableId (internal w') = nextCableId (internal w)).
Proof.
  destruct HI2 as [Hnd Hlt]. rewrite Forall_forall in Hlt. split.
  - intros w' Hok Hnext Hid.
    destruct (addCable_inv w w' c Hok) as [Hnc [Hcab [_ [_ [_ [Hoth [Hself [Hn _]]]]]]]].
    assert (Hne : forall q, In q (cables (internal w)) -> q <> c).
    { intros q Hin ->. apply Hnc. unfold addCable_conflict. auto. }
    assert (Hids : forall q, In q (cables (internal w)) ->
                     Cable_id (cabs w' q) = Cable_id (cabs w q)).
    { intros q Hin. now rewrite (Hoth q (Hne q Hin)). }
    assert (Hnew : Cable_id (cabs w' c) < nextCableId (internal w')
                   /\ nextCableId (internal w) <= nextCableId (internal w')
                   /\ (Cable_id (cabs w c) < 0 ->
                       Cable_id (cabs w' c) = nextCableId (internal w))
                   /\ (0 <= Cable_id (cabs w c) ->
                       Cable_id (cabs w' c) = Cable_id (cabs w c))).
    { rewrite Hself, Hn. cbn [Cable_id set_Cable_id]. unfold is_int, INT_MIN, INT_MAX in *.
      destruct (Cable_id (cabs w c) <? 0) eqn:E.
      - apply Z.ltb_lt in E. rewrite wrap_int_id by (unfold is_int, INT_MIN, INT_MAX; lia).
        repeat split; lia.
      - apply Z.ltb_ge in E.
        destruct (Cable_id (cabs w c) >=? nextCableId (internal w)) eqn:E2.
        + apply Z.geb_le in E2.
          rewrite wrap_int_id by (unfold is_int, INT_MIN, INT_MAX; lia).
          repeat split; lia.
        + rewrite Z.geb_leb in E2. apply Z.leb_gt in E2. repeat split; lia. }
    destruct Hnew as [Hlt' [Hmono [Hauto Hmanual]]].
    split; [|exact Hmono]. unfold I2. rewrite Hcab, map_app. simpl. split.
    + rewrite (map_ext_in _ (fun q => Cable_id (cabs w q)) _ Hids).
      apply NoDup_snoc; [exact Hnd|].
      intros Hin. apply in_map_iff in Hin. destruct Hin as [q [Hq Hin]].
      destruct (Z.ltb_spec (Cable_id (cabs w c)) 0) as [Hneg|Hpos].
      * rewrite (Hauto Hneg) in Hq. specialize (Hlt q Hin). simpl in Hlt. lia.
      * rewrite (Hmanual Hpos) in Hq. apply Hnc. unfold addCable_conflict.
        right. right. right. left. split; [exact Hpos | eauto].
    + apply Forall_app. split.
      * apply Forall_forall. intros q Hin. rewrite (Hids q Hin).
        specialize (Hlt q Hin). simpl in Hlt. lia.
      * constructor; [exact Hlt' | constructor].
  - intros w' Hok.
    destruct (removeCable_inv w w' c Hok) as [_ [Hcab [_ [_ [Hn [Hcabs _]]]]]].
    split; [|exact Hn]. unfold I2. rewrite Hcab, Hn, Hcabs. split.
    + now apply NoDup_map_erase.
    + apply Forall_forall. intros q Hin. apply Hlt. eapply in_erase; eassumption.
Qed.

(** X10.  Adding a cable and removing it again gives back the list of
    cables: on a rack that obeys I3 and whose cables, the new one included,
    name existing ports of registered modules, both calls return, the lists
    of cables, modules and handles are as before, every other cable is
    untouched, and the input the cable was plugged into ends with 0
    channels and inactive. *)
Theorem addCable_removeCable_roundtrip (w : World) (c im : addr)
  (Hnc : ~ addCable_conflict w c)
  (HI3 : I3 w)
  (Hports : forall q, In q (cables (internal w) ++ [c]) -> cable_ports_ok w q)
  (Him : inputModule (cabs w c) = Some im)
  (Hreg : In im (modules (internal w))) :
  exists w1 w2 p,
    addCable w (Some c) = Ok w1
    /\ removeCable w1 (Some c) = Ok w2
    /\ cables (internal w2) = cables (internal w)
    /\ modules (internal w2) = modules (internal w)
    /\ paramHandles (internal w2) = paramHandles (internal w)
    /\ (forall q, q <> c -> cabs w2 q = cabs w q)
    /\ vec_get (inputs (mods w2 im)) (inputId (cabs w c)) = Ok p
    /\ channels p = 0 /\ active p = false.
Proof.
  destruct (addCable_cases w c) as [[Hc _]|[_ [w0 [Hret0 [Hcab0 [Hmods0 [Hoth0 Hself0]]]]]]];
    [contradiction|].
  assert (Hends0 : forall q,
             outputModule (cabs w0 q) = outputModule (cabs w q)
             /\ outputId (cabs w0 q) = outputId (cabs w q)
             /\ inputModule (cabs w0 q) = inputModule (cabs w q)
             /\ inputId (cabs w0 q) = inputId (cabs w q)).
  { intros q. destruct (Pos.eq_dec q c) as [->|Hq].
    - rewrite Hself0. simpl. auto.
    - rewrite (Hoth0 q Hq). auto. }
  destruct (Engine_updateConnected_returns w0) as [st Hst].
  { intros q Hin. rewrite Hcab0 in Hin.
    destruct (Hports q Hin) as [a [b [Ea [Eb [Ra Rb]]]]].
    destruct (Hends0 q) as [Ho [Hoi [Hi Hii]]].
    exists a, b. rewrite Ho, Hoi, Hi, Hii, Hmods0. auto. }
  assert (Hok : addCable w (Some c) = Ok (with_mods st w0)) by congruence.
  remember (with_mods st w0) as w1 eqn:Ew1.
  destruct (addCable_inv w w1 c Hok)
    as [_ [Hcab [Hmod [Hph [Hh [Hoth [Hself [_ D]]]]]]]].
  assert (Hends : forall q,
             outputModule (cabs w1 q) = outputModule (cabs w q)
             /\ outputId (cabs w1 q) = outputId (cabs w q)
             /\ inputModule (cabs w1 q) = inputModule (cabs w q)
             /\ inputId (cabs w1 q) = inputId (cabs w q))
    by (intros q; rewrite Ew1; apply Hends0).
  assert (Hlen : forall q, length (inputs (mods w1 q)) = length (inputs (mods w q))
                           /\ length (outputs (mods w1 q)) = length (outputs (mods w q))).
  { intros q. specialize (D q). split.
    - apply (f_equal inputs) in D. simpl in D.
      rewrite <- (length_map (set_active false) (inputs (mods w1 q))), D. apply length_map.
    - apply (f_equal outputs) in D. simpl in D.
      rewrite <- (length_map (set_active false) (outputs (mods w1 q))), D. apply length_map. }
  assert (HI3' : I3 w1).
  { unfold I3. rewrite Hcab, map_app. simpl.
    rewrite (map_ext _ (fun q => (inputModule (cabs w q), inputId (cabs w q)))).
    2:{ intros q. destruct (Hends q) as [_ [_ [-> ->]]]. reflexivity. }
    destruct (Hends c) as [_ [_ [-> ->]]].
    apply NoDup_snoc; [exact HI3|].
    intros Hin. apply in_map_iff in Hin. destruct Hin as [q [Hq Hin]].
    injection Hq as H1 H2. apply Hnc. unfold addCable_conflict.
    right. right. right. right. eauto. }
  destruct (removeCable_returns w1 c im) as [w2 [p [Hret2 [Hcab2 [_ [_ [Hmod2 [Hcabs2 [Hh2 [_ Hp]]]]]]]]]].
  - rewrite Hcab. apply in_or_app. right. simpl. auto.
  - exact HI3'.
  - intros q Hin. rewrite Hcab in Hin.
    destruct (Hports q Hin) as [a [b [Ea [Eb [Ra Rb]]]]].
    destruct (Hends q) as [Ho [Hoi [Hi Hii]]].
    exists a, b. rewrite Ho, Hoi, Hi, Hii.
    destruct (Hlen a) as [_ ->]. destruct (Hlen b) as [-> _]. auto.
  - destruct (Hends c) as [_ [_ [-> _]]]. exact Him.
  - now rewrite Hmod.
  - assert (Hfresh : ~ In c (cables (internal w)))
      by (intros H; apply Hnc; unfold addCable_conflict; auto).
    destruct (removeCable_inv w1 w2 c Hret2) as [_ [_ [_ [Hph2 _]]]].
    exists w1, w2, p. split; [exact Hok|]. split; [exact Hret2|].
    split; [rewrite Hcab2, Hcab; now apply erase_snoc_fresh|].
    split; [congruence|]. split; [congruence|].
    split; [intros q Hq; rewrite Hcabs2; now apply Hoth|].
    destruct (Hends c) as [_ [_ [_ Hii]]]. rewrite Hii in Hp. exact Hp.
Qed.

(** ** Setting params *)

(** X11.  [setParam(m, p, v)] on an existing param returns; afterwards both
    [getParam(m, p)] and [getSmoothParam(m, p)] return [v], and no other
    param has changed.  If [(m, p)] was being smoothed the smoothing is
    cancelled; a different param being smoothed stays so, with its target. *)
Theorem setParam_cancels_smoothing (w : World) (m : addr) (p : Z) (v : float)
  (Hrange : 0 <= p < Z.of_nat (length (params (mods w m)))) :
  exists w',
    setParam w (Some m) p v = Ok w'
    /\ getParam w' (Some m) p = Ok v
    /\ getSmoothParam w' (Some m) p = Ok v
    /\ (forall q i, (q, i) <> (m, p) -> getParam w' (Some q) i = getParam w (Some q) i)
    /\ ((smoothModule (internal w), smoothParamId (internal w)) = (Some m, p) ->
        smoothModule (internal w') = None)
    /\ ((smoothModule (internal w), smoothParamId (internal w)) <> (Some m, p) ->
        smoothModule (internal w') = smoothModule (internal w)
        /\ smoothParamId (internal w') = smoothParamId (internal w)
        /\ smoothValue (internal w') = smoothValue (internal w)).
Proof.
  unfold setParam.
  match goal with |- context [store_param ?x _ _ _] => set (w1 := x) end.
  assert (Hm1 : mods w1 = mods w).
  { subst w1. destruct (ptr_eqb (smoothModule (internal w)) (Some m)
                        && (smoothParamId (internal w) =? p)); reflexivity. }
  rewrite store_param_in_range by (rewrite Hm1; exact Hrange).
  eexists. split; [reflexivity|].
  assert (Hget : forall q i,
             getParam (with_mods (upd (mods w1) m
                                    (set_params (replace_nth (params (mods w1 m)) (Z.to_nat p)
                                                   (mkParam v)) (mods w1 m))) w1) (Some q) i
             = if Pos.eqb q m && (i =? p) then Ok v else getParam w (Some q) i).
  { intros q i. unfold getParam. cbn [mods with_mods]. rewrite Hm1. unfold upd.
    destruct (Pos.eqb q m) eqn:Eq; [|reflexivity].
    apply Pos.eqb_eq in Eq. subst q. simpl.
    destruct (i =? p) eqn:Ei.
    - apply Z.eqb_eq in Ei. subst i. now rewrite vec_get_replace_same.
    - apply Z.eqb_neq in Ei. rewrite vec_get_replace_other by lia. reflexivity. }
  split; [rewrite Hget, Pos.eqb_refl, Z.eqb_refl; reflexivity|].
  split; [|split; [|split]].
  - unfold getSmoothParam.
    match goal with |- context [if ?c then Ok _ else _] => destruct c eqn:E end.
    + exfalso. revert E. cbn [internal with_mods]. subst w1.
      destruct (ptr_eqb (smoothModule (internal w)) (Some m)
                && (smoothParamId (internal w) =? p)) eqn:E0;
        cbn [internal with_internal set_smoothParamId set_smoothModule smoothModule
             smoothParamId ptr_eqb andb]; [discriminate|].
      now rewrite E0.
    + rewrite Hget, Pos.eqb_refl, Z.eqb_refl. reflexivity.
  - intros q i Hne. rewrite Hget.
    destruct (Pos.eqb q m && (i =? p)) eqn:E; [|reflexivity].
    apply andb_prop in E. destruct E as [E1 E2].
    apply Pos.eqb_eq in E1. apply Z.eqb_eq in E2. congruence.
  - intros Hslot. apply same_slot_spec in Hslot. cbn [internal with_mods].
    subst w1. now rewrite Hslot.
  - intros Hslot. cbn [internal with_mods]. subst w1.
    destruct (ptr_eqb (smoothModule (internal w)) (Some m)
              && (smoothParamId (internal w) =? p)) eqn:E; [|auto].
    apply same_slot_spec in E. contradiction.
Qed.

(** ** Batches of steps *)

(** What one step does when nothing is being smoothed. *)
Lemma Engine_step_idle (w : World)
  (Hprocess : forall a q, keeps_params (Module_process a q))
  (Hcable : forall c, keeps_params (Cable_step c)) :
  smoothModule (internal w) = None ->
  exists w',
    Engine_step w = Ok w'
    /\ same_registry (internal w) (internal w')
    /\ (forall x, params (mods w' x) = params (mods w x)).
Proof.
  intros Hs. apply Engine_step_after_smooth; try assumption.
  unfold Engine_step_smooth. now rewrite Hs.
Qed.

(** Any number of steps when nothing is being smoothed. *)
Lemma Engine_steps_idle_aux (n : nat) (w : World)
  (Hprocess : forall a q, keeps_params (Module_process a q))
  (Hcable : forall c, keeps_params (Cable_step c))
  (Hidle : smoothModule (internal w) = None) :
  exists w',
    Engine_steps n w = Ok w'
    /\ same_registry (internal w) (internal w')
    /\ (forall q i, getParam w' (Some q) i = getParam w (Some q) i).
Proof.
  revert w Hidle. induction n as [|n IH]; intros w Hidle; cbn [Engine_steps].
  - exists w. split; [reflexivity|]. split; [apply same_registry_refl | reflexivity].
  - destruct (Engine_step_idle w Hprocess Hcable Hidle) as [w1 [Hstep [R HP]]].
    rewrite Hstep. cbn [bind].
    destruct (IH w1) as [w' [Hrest [R' HP']]].
    { destruct R as [_ [_ [_ [-> _]]]]. exact Hidle. }
    exists w'. split; [exact Hrest|]. split.
    + eapply same_registry_trans; eassumption.
    + intros q i. rewrite HP'. unfold getParam. now rewrite HP.
Qed.

(** X12.  While nothing is being smoothed, any number of steps returns and
    leaves every param at its value, the smoothing slot empty and the
    lists of modules, cables and handles as they are; the modules' [process]
    and the cables' [step] are held to their contract of not writing
    params. *)
Theorem Engine_steps_idle (n : nat) (w : World)
  (Hprocess : forall a q, keeps_params (Module_process a q))
  (Hcable : forall c, keeps_params (Cable_step c))
  (Hidle : smoothModule (internal w) = None) :
  exists w',
    Engine_steps n w = Ok w'
    /\ smoothModule (internal w') = None
    /\ modules (internal w') = modules (internal w)
    /\ cables (internal w') = cables (internal w)
    /\ paramHandles (internal w') = paramHandles (internal w)
    /\ (forall q i, getParam w' (Some q) i = getParam w (Some q) i).
Proof.
  destruct (Engine_steps_idle_aux n w Hprocess Hcable Hidle) as [w' [H [R HP]]].
  exists w'. split; [exact H|].
  destruct R as [R1 [R2 [R3 [R4 _]]]].
  repeat split; try congruence; apply HP.
Qed.

(** One step while [(m, p)] is being smoothed towards [v]. *)
Lemma Engine_step_smoothing (w : World) (m : addr) (p : Z) (v : float)
  (Hprocess : forall a q, keeps_params (Module_process a q))
  (Hcable : forall c, keeps_params (Cable_step c)) :
  smoothModule (internal w) = Some m -> smoothParamId (internal w) = p ->
  smoothValue (internal w) = v ->
  0 <= p < Z.of_nat (length (params (mods w m))) ->
  exists w',
    Engine_step w = Ok w'
    /\ 0 <= p < Z.of_nat (length (params (mods w' m)))
    /\ ((smoothModule (internal w') = Some m /\ smoothParamId (internal w') = p
         /\ smoothValue (internal w') = v)
        \/ (smoothModule (internal w') = None /\ getParam w' (Some m) p = Ok v)).
Proof.
  intros Hm Hp Hv Hr.
  destruct (vec_get_in_range _ _ Hr) as [param Hparam].
  assert (Hs : exists ws,
             Engine_step_smooth w = Ok ws
             /\ length (params (mods ws m)) = length (params (mods w m))
             /\ ((smoothModule (internal ws) = Some m /\ smoothParamId (internal ws) = p
                  /\ smoothValue (internal ws) = v)
                 \/ (smoothModule (internal ws) = None
                     /\ vec_get (params (mods ws m)) p = Ok (mkParam v)))).
  { unfold Engine_step_smooth. rewrite Hm, Hp, Hv, Hparam. cbn [bind].
    destruct (feqb _ _); rewrite store_param_in_range by assumption; cbn [bind];
      eexists; (split; [reflexivity|]); simpl; rewrite upd_same; simpl;
      rewrite length_replace_nth; (split; [reflexivity|]).
    - right. split; [reflexivity|]. now apply vec_get_replace_same.
    - left. auto. }
  destruct Hs as [ws [Hs [Hlen Hcase]]].
  destruct (Engine_step_after_smooth w ws Hprocess Hcable Hs) as [w' [Hstep [R HP]]].
  exists w'. split; [exact Hstep|].
  destruct R as [R1 [R2 [R3 [R4 [R5 [R6 [R7 R8]]]]]]].
  split; [rewrite HP, Hlen; exact Hr|].
  destruct Hcase as [[A [B D]]|[A B]].
  - left. repeat split; congruence.
  - right. split; [congruence|]. unfold getParam. rewrite HP, B. reflexivity.
Qed.

(** X13.  While [(m, p)] is the smoothing slot with target [v],
    [getSmoothParam(m, p)] returns [v] after any number of steps: during
    the smoothing it reads the target, and once the smoothing has ended the
    param holds the target.  The modules' [process] and the cables' [step]
    are held to their contract of not writing params. *)
Theorem getSmoothParam_steady (n : nat) (w : World) (m : addr) (p : Z) (v : float)
  (Hprocess : forall a q, keeps_params (Module_process a q))
  (Hcable : forall c, keeps_params (Cable_step c))
  (Hm : smoothModule (internal w) = Some m)
  (Hp : smoothParamId (internal w) = p)
  (Hv : smoothValue (internal w) = v)
  (Hr : 0 <= p < Z.of_nat (length (params (mods w m)))) :
  exists w',
    Engine_steps n w = Ok w'
    /\ getSmoothParam w' (Some m) p = Ok v
    /\ (smoothModule (internal w') = None -> getParam w' (Some m) p = Ok v).
Proof.
  revert w Hm Hp Hv Hr. induction n as [|n IH]; intros w Hm Hp Hv Hr; cbn [Engine_steps].
  - exists w. split; [reflexivity|]. split.
    + unfold getSmoothParam. rewrite Hm, Hp, Hv. cbn [ptr_eqb].
      now rewrite Pos.eqb_refl, Z.eqb_refl.
    + rewrite Hm. discriminate.
  - destruct (Engine_step_smoothing w m p v Hprocess Hcable Hm Hp Hv Hr)
      as [w1 [Hstep [Hr1 Hcase]]].
    rewrite Hstep. cbn [bind].
    destruct Hcase as [[A [B D]]|[A B]].
    + now apply IH.
    + destruct (Engine_steps_idle_aux n w1 Hprocess Hcable A) as [w' [Hrest [R HP]]].
      exists w'. split; [exact Hrest|].
      destruct R as [_ [_ [_ [R4 _]]]].
      assert (Hg : getParam w' (Some m) p = Ok v) by (rewrite HP; exact B).
      split; [|intros _; exact Hg].
      unfold getSmoothParam. rewrite R4, A. simpl. exact Hg.
Qed.

(** ** Param handles *)

Lemma findParamHandle_None (st : store ParamHandle) (l : list addr) (module : pointer)
    (pid : Z) :
  findParamHandle st l module pid = None
  <-> forall h, In h l -> (ParamHandle_module (st h), paramId (st h)) <> (module, pid).
Proof.
  induction l as [|p l IH]; simpl.
  - split; [intros _ h [] | reflexivity].
  - destruct (ptr_eqb (ParamHandle_module (st p)) module && (paramId (st p) =? pid)) eqn:E.
    + apply same_slot_spec in E. split; [discriminate|].
      intros H. exfalso. apply (H p); auto.
    + rewrite IH. split.
      * intros H h [<-|Hin]; [|now apply H].
        intros Heq. apply same_slot_spec in Heq. congruence.
      * intros H h Hin. apply H. now right.
Qed.

Lemma findParamHandle_Some (st : store ParamHandle) (l : list addr) (module : pointer)
    (pid : Z) (h : addr) :
  findParamHandle st l module pid = Some h
  <-> exists l1 l2,
        l = l1 ++ h :: l2
        /\ (ParamHandle_module (st h), paramId (st h)) = (module, pid)
        /\ forall q, In q l1 -> (ParamHandle_module (st q), paramId (st q)) <> (module, pid).
Proof.
  revert h. induction l as [|p l IH]; intros h; simpl.
  - split; [discriminate|]. intros [l1 [l2 [H _]]]. now destruct l1.
  - destruct (ptr_eqb (ParamHandle_module (st p)) module && (paramId (st p) =? pid)) eqn:E.
    + pose proof E as E'. apply same_slot_spec in E'. split.
      * intros [= <-]. exists [], l. split; [reflexivity|]. split; [exact E'|intros q []].
      * intros [l1 [l2 [Hl [Hh Hfirst]]]]. destruct l1 as [|x l1]; simpl in Hl.
        -- congruence.
        -- injection Hl as <- _. exfalso. apply (Hfirst p); simpl; auto.
    + assert (E' : (ParamHandle_module (st p), paramId (st p)) <> (module, pid)).
      { intros Heq. apply same_slot_spec in Heq. congruence. }
      rewrite IH. split.
      * intros [l1 [l2 [-> [Hh Hfirst]]]]. exists (p :: l1), l2.
        split; [reflexivity|]. split; [exact Hh|].
        intros q [<-|Hq]; [exact E'|now apply Hfirst].
      * intros [l1 [l2 [Hl [Hh Hfirst]]]]. destruct l1 as [|x l1]; simpl in Hl.
        -- injection Hl as -> _. contradiction.
        -- injection Hl as -> ->. exists l1, l2. split; [reflexivity|].
           split; [exact Hh|]. intros q Hq. apply Hfirst. now right.
Qed.

(** X14.  [getParamHandle(module, paramId)] is a linear search of the
    registered handles by cached module and param id: it returns null
    exactly when no registered handle has that pair, and otherwise the
    first registered handle that has it.  Handles that are not registered
    are never returned. *)
Theorem getParamHandle_lookup (w : World) (module : pointer) (pid : Z) :
  (getParamHandle w module pid = None
   <-> forall h, In h (paramHandles (internal w)) ->
                 (ParamHandle_module (hdls w h), paramId (hdls w h)) <> (module, pid))
  /\ (forall h,
        getParamHandle w module pid = Some h
        <-> exists l1 l2,
              paramHandles (internal w) = l1 ++ h :: l2
              /\ (ParamHandle_module (hdls w h), paramId (hdls w h)) = (module, pid)
              /\ forall q, In q l1 ->
                           (ParamHandle_module (hdls w q), paramId (hdls w q))
                           <> (module, pid)).
Proof.
  split.
  - apply findParamHandle_None.
  - intros h. apply findParamHandle_Some.
Qed.

Lemma removeParamHandle_cases (w : World) (h : addr) :
  (~ In h (paramHandles (internal w)) /\ removeParamHandle w (Some h) = AssertFail)
  \/ (In h (paramHandles (internal w))
      /\ removeParamHandle w (Some h)
         = Ok (with_internal (fun i => set_paramHandles (erase h (paramHandles i)) i)
                 (with_hdls (upd (hdls w) h (set_ParamHandle_module None (hdls w h))) w))).
Proof.
  unfold removeParamHandle. cbn [internal with_hdls].
  destruct (mem h (paramHandles (internal w))) eqn:E.
  - right. split; [now apply mem_In | reflexivity].
  - left. split; [now apply mem_false | reflexivity].
Qed.

(** X15.  [removeParamHandle(h)] fails its assertion exactly when [h] is not
    registered.  Otherwise it returns with the first occurrence of [h]
    erased from the handle list and [h]'s cached module cleared; [h] keeps
    its module id and param id, and no other handle, no module and no cable
    is touched. *)
Theorem removeParamHandle_erases (w : World) (h : addr) :
  (removeParamHandle w (Some h) = AssertFail <-> ~ In h (paramHandles (internal w)))
  /\ removeParamHandle w (Some h) <> Undefined
  /\ forall w',
       removeParamHandle w (Some h) = Ok w' ->
       paramHandles (internal w') = erase h (paramHandles (internal w))
       /\ ParamHandle_module (hdls w' h) = None
       /\ ParamHandle_moduleId (hdls w' h) = ParamHandle_moduleId (hdls w h)
       /\ paramId (hdls w' h) = paramId (hdls w h)
       /\ (forall q, q <> h -> hdls w' q = hdls w q)
       /\ mods w' = mods w /\ cabs w' = cabs w
       /\ modules (internal w') = modules (internal w)
       /\ cables (internal w') = cables (internal w).
Proof.
  destruct (removeParamHandle_cases w h) as [[Hn ->]|[Hin ->]].
  - split; [tauto|]. split; discriminate.
  - split; [split; [discriminate | contradiction]|]. split; [discriminate|].
    intros w' [= <-]. simpl. rewrite upd_same. simpl.
    repeat split; try reflexivity.
    intros q Hq. now apply upd_other.
Qed.

(** X16.  Registering a handle and removing it again gives back the list
    of handles: whenever [addParamHandle(h)] returns, [removeParamHandle(h)]
    returns after it, the list of handles is the one before the two calls,
    [h] is blank as before but for its cached module, now null, and nothing
    else has changed. *)
Theorem addParamHandle_removeParamHandle_roundtrip (w w1 : World) (h : addr)
  (Hadd : addParamHandle w (Some h) = Ok w1) :
  exists w2,
    removeParamHandle w1 (Some h) = Ok w2
    /\ internal w2 = internal w
    /\ mods w2 = mods w /\ cabs w2 = cabs w
    /\ hdls w2 h = set_ParamHandle_module None (hdls w h)
    /\ ParamHandle_moduleId (hdls w2 h) < 0
    /\ (forall q, q <> h -> hdls w2 q = hdls w q).
Proof.
  unfold addParamHandle in Hadd.
  destruct (mem h (paramHandles (internal w))) eqn:Em; [discriminate|].
  destruct (ParamHandle_moduleId (hdls w h) <? 0) eqn:Eb; [|discriminate].
  cbn [negb assert bind] in Hadd. injection Hadd as <-.
  apply mem_false in Em. apply Z.ltb_lt in Eb.
  destruct (removeParamHandle_cases
              (with_internal (fun i => set_paramHandles (paramHandles i ++ [h]) i) w) h)
    as [[Hn _]|[_ ->]].
  - exfalso. apply Hn. simpl. apply in_or_app. right. now left.
  - eexists. split; [reflexivity|]. simpl. rewrite upd_same.
    rewrite erase_snoc_fresh by assumption.
    split; [now destruct (internal w)|].
    repeat split; try reflexivity; try assumption.
    intros q Hq. now apply upd_other.
Qed.

(** The module a handle ends with after the loop "find module with same
    moduleId" is the one it had, or a module of the list with its id. *)
Lemma fold_bind_module_inv (ms : store RackModule) (h : addr) (l : list addr) :
  forall st m,
    ParamHandle_module (fold_left (bind_module ms h) l st h) = Some m ->
    ParamHandle_module (st h) = Some m
    \/ (In m l /\ Module_id (ms m) = ParamHandle_moduleId (st h)).
Proof.
  induction l as [|p l IH]; intros st m H; [now left|].
  cbn [fold_left] in H. apply IH in H. unfold bind_module in H.
  destruct (Module_id (ms p) =? ParamHandle_moduleId (st h)) eqn:E.
  - apply Z.eqb_eq in E. rewrite upd_same in H. simpl in H.
    destruct H as [[= <-]|[Hin Hid]]; right; simpl; auto.
  - destruct H as [H|[Hin Hid]]; [now left|]. right. simpl. auto.
Qed.

(** What [updateParamHandle] leaves, handle by handle. *)
Lemma updateParamHandle_spec (w : World) (h : addr) (mid pid : Z) (overwrite : bool) :
  exists w',
    updateParamHandle w (Some h) mid pid overwrite = Ok w'
    /\ internal w' = internal w /\ mods w' = mods w /\ cabs w' = cabs w
    /\ (forall q, q <> h ->
                  hdls w' q = if evictedb w h mid pid overwrite q
                              then ParamHandle_reset (hdls w q) else hdls w q)
    /\ (ParamHandle_moduleId (hdls w' h), paramId (hdls w' h))
       = (if rejectedb w h mid pid overwrite then (-1, 0) else (mid, pid))
    /\ (forall m, ParamHandle_module (hdls w' h) = Some m ->
                  In m (modules (internal w))
                  /\ Module_id (mods w m) = ParamHandle_moduleId (hdls w' h)).
Proof.
  unfold updateParamHandle, rejectedb, evictedb.
  rewrite upd_same. cbn [ParamHandle_moduleId].
  set (st0 := upd (hdls w) h (mkParamHandle mid pid None)).
  assert (Hst0 : forall l,
             existsb (fun p => negb (Pos.eqb p h) && (ParamHandle_moduleId (st0 p) =? mid)
                               && (paramId (st0 p) =? pid)) l
             = existsb (fun p => negb (Pos.eqb p h)
                                 && (ParamHandle_moduleId (hdls w p) =? mid)
                                 && (paramId (hdls w p) =? pid)) l).
  { intros l. induction l as [|p l IH]; [reflexivity|]. cbn [existsb]. rewrite IH.
    f_equal. destruct (Pos.eqb p h) eqn:E; [reflexivity|].
    apply Pos.eqb_neq in E. subst st0. now rewrite upd_other. }
  destruct (mem h (paramHandles (internal w))) eqn:Em;
    [destruct (mid >=? 0) eqn:Eg|]; cbn [andb].
  - (* registered, mid >= 0 *)
    assert (Hmid : 0 <= mid) by (rewrite Z.geb_leb in Eg; now apply Z.leb_le).
    eexists. split; [reflexivity|]. cbn [internal mods cabs hdls with_hdls].
    split; [reflexivity|]. split; [reflexivity|]. split; [reflexivity|].
    set (st1 := fold_left (reset_conflicting h mid pid overwrite)
                  (paramHandles (internal w)) st0).
    destruct (fold_bind_module (mods w) h (modules (internal w)) st1)
      as [Hoth [Hid [Hpid _]]].
    assert (H1 : (forall q, q <> h ->
                    st1 q = if overwrite && mem q (paramHandles (internal w))
                               && negb (Pos.eqb q h)
                               && (ParamHandle_moduleId (hdls w q) =? mid)
                               && (paramId (hdls w q) =? pid)
                            then ParamHandle_reset (hdls w q) else hdls w q)
                 /\ st1 h = if negb overwrite
                               && existsb (fun p => negb (Pos.eqb p h)
                                             && (ParamHandle_moduleId (hdls w p) =? mid)
                                             && (paramId (hdls w p) =? pid))
                                    (paramHandles (internal w))
                            then mkParamHandle (-1) 0 None
                            else mkParamHandle mid pid None).
    { subst st1. destruct overwrite; cbn [andb negb].
      - split.
        + intros q Hq. rewrite fold_reset_others by assumption.
          subst st0. rewrite upd_other by assumption. reflexivity.
        + rewrite fold_reset_others by assumption. rewrite Pos.eqb_refl.
          cbn [negb]. rewrite andb_false_r. cbn [andb]. subst st0. now rewrite upd_same.
      - destruct (fold_reset_self h mid pid (paramHandles (internal w)) st0) as [A B].
        split.
        + intros q Hq. rewrite A by assumption. subst st0. now rewrite upd_other.
        + rewrite B, Hst0. subst st0. rewrite upd_same. reflexivity. }
    destruct H1 as [H1 H1h].
    split; [|split].
    + intros q Hq. rewrite Hoth by assumption. apply H1. exact Hq.
    + rewrite Hid, Hpid, H1h.
      match goal with |- context [if ?c then _ else _] => destruct c end; reflexivity.
    + intros m Hm. apply fold_bind_module_inv in Hm. rewrite Hid.
      destruct Hm as [Hm|Hm]; [|exact Hm].
      rewrite H1h in Hm.
      match type of Hm with context [if ?c then _ else _] => destruct c end; discriminate.
  - (* registered, mid < 0 *)
    eexists. split; [reflexivity|]. cbn [internal mods cabs hdls with_hdls].
    split; [reflexivity|]. split; [reflexivity|]. split; [reflexivity|].
    subst st0. split; [|split].
    + intros q Hq. now apply upd_other.
    + rewrite upd_same. reflexivity.
    + rewrite upd_same. discriminate.
  - (* not registered *)
    eexists. split; [reflexivity|]. cbn [internal mods cabs hdls with_hdls].
    split; [reflexivity|]. split; [reflexivity|]. split; [reflexivity|].
    subst st0. split; [|split].
    + intros q Hq. now apply upd_other.
    + rewrite upd_same. reflexivity.
    + rewrite upd_same. discriminate.
Qed.

(** When the two loops of [updateParamHandle] run, [h] is bound to the
    registered module that has the id [h] is left with. *)
Lemma updateParamHandle_binds (w w' : World) (h : addr) (mid pid : Z) (overwrite : bool)
    (m : addr) :
  updateParamHandle w (Some h) mid pid overwrite = Ok w' ->
  In h (paramHandles (internal w)) -> 0 <= mid ->
  In m (modules (internal w)) ->
  NoDup (map (fun q => Module_id (mods w q)) (modules (internal w))) ->
  Module_id (mods w m) = ParamHandle_moduleId (hdls w' h) ->
  ParamHandle_module (hdls w' h) = Some m.
Proof.
  intros Hup Hin Hmid Hm Hnd Hid. unfold updateParamHandle in Hup.
  apply mem_In in Hin. rewrite Hin, upd_same in Hup. cbn [ParamHandle_moduleId] in Hup.
  assert (Eg : (mid >=? 0) = true) by (rewrite Z.geb_leb; now apply Z.leb_le).
  rewrite Eg in Hup. cbn [andb] in Hup. injection Hup as <-.
  cbn [hdls with_hdls] in *.
  match goal with
  | |- context [fold_left (bind_module ?ms h) ?l ?st] =>
      destruct (fold_bind_module ms h l st) as [_ [Hid' [_ [Hb _]]]]
  end.
  apply Hb; [exact Hm | exact Hnd |]. now rewrite <- Hid'.
Qed.

Lemma rejectedb_false (w : World) (h : addr) (mid pid : Z) (overwrite : bool) :
  overwrite = true \/ (forall p, ~ conflicting_handle w h mid pid p) ->
  rejectedb w h mid pid overwrite = false.
Proof.
  intros [->|Hnone]; unfold rejectedb.
  - cbn [negb]. now rewrite andb_false_r.
  - match goal with |- context [existsb ?f ?l] => destruct (existsb f l) eqn:E end;
      [|now rewrite andb_false_r].
    exfalso. apply existsb_exists in E. destruct E as [p [Hin Hp]].
    apply andb_prop in Hp. destruct Hp as [Hp H3]. apply andb_prop in Hp.
    destruct Hp as [H1 H2]. apply negb_true_iff in H1. apply Pos.eqb_neq in H1.
    apply Z.eqb_eq in H2, H3. apply (Hnone p). repeat split; assumption.
Qed.

Lemma evictedb_true (w : World) (h : addr) (mid pid : Z) (overwrite : bool) (q : addr) :
  evictedb w h mid pid overwrite q = true ->
  overwrite = true /\ 0 <= mid /\ conflicting_handle w h mid pid q.
Proof.
  unfold evictedb. intros H.
  repeat (apply andb_prop in H; let H' := fresh "H" in destruct H as [H H']).
  apply mem_In in H3. apply negb_true_iff in H2. apply Pos.eqb_neq in H2.
  apply Z.eqb_eq in H1, H0. rewrite Z.geb_leb in H5. apply Z.leb_le in H5.
  repeat split; assumption.
Qed.

Lemma findParamHandle_only (st : store ParamHandle) (l : list addr) (module : pointer)
    (pid : Z) (h : addr) :
  In h l ->
  (ParamHandle_module (st h), paramId (st h)) = (module, pid) ->
  (forall q, In q l -> q <> h ->
             (ParamHandle_module (st q), paramId (st q)) <> (module, pid)) ->
  findParamHandle st l module pid = Some h.
Proof.
  intros Hin Hh Honly. induction l as [|p l IH]; [contradiction|]. simpl.
  destruct (ptr_eqb (ParamHandle_module (st p)) module && (paramId (st p) =? pid)) eqn:E.
  - apply same_slot_spec in E. destruct (Pos.eq_dec p h) as [->|Hne]; [reflexivity|].
    exfalso. apply (Honly p); simpl; auto.
  - destruct Hin as [->|Hin].
    + apply same_slot_spec in Hh. congruence.
    + apply IH; [exact Hin|]. intros q Hq. apply Honly. now right.
Qed.

(** X17.  No two registered handles aim at the same param, and the handle
    operations keep it so: if no two registered handles with a module id
    [>= 0] share (moduleId, paramId), the same holds after
    [updateParamHandle] with any arguments, after [addParamHandle] and
    after [removeParamHandle], whenever these return; and
    [updateParamHandle] always returns. *)
Theorem handles_stay_exclusive (w : World) (h : addr)
  (Hex : handles_exclusive w) :
  (forall mid pid overwrite,
     exists w', updateParamHandle w (Some h) mid pid overwrite = Ok w'
                /\ handles_exclusive w')
  /\ (forall w', addParamHandle w (Some h) = Ok w' -> handles_exclusive w')
  /\ (forall w', removeParamHandle w (Some h) = Ok w' -> handles_exclusive w').
Proof.
  split; [|split].
  - intros mid pid overwrite.
    destruct (updateParamHandle_spec w h mid pid overwrite)
      as [w' [Hup [Hi [_ [_ [Hoth [Hself _]]]]]]].
    exists w'. split; [exact Hup|].
    assert (Hkept : forall q, In q (paramHandles (internal w)) -> q <> h ->
                      0 <= ParamHandle_moduleId (hdls w' q) ->
                      hdls w' q = hdls w q
                      /\ evictedb w h mid pid overwrite q = false).
    { intros q Hq Hne Hpos. rewrite Hoth in * by assumption.
      destruct (evictedb w h mid pid overwrite q); [simpl in Hpos; lia | auto]. }
    assert (Hclash : forall q, In q (paramHandles (internal w)) -> q <> h ->
                       In h (paramHandles (internal w)) ->
                       0 <= ParamHandle_moduleId (hdls w' h) ->
                       ParamHandle_moduleId (hdls w' q) = ParamHandle_moduleId (hdls w' h) ->
                       paramId (hdls w' q) = paramId (hdls w' h) -> False).
    { intros q Hq Hne Hh Hpos Hid Hpid.
      destruct (Hkept q Hq Hne) as [Hsame Hev]; [lia|].
      rewrite Hsame in Hid, Hpid.
      destruct (rejectedb w h mid pid overwrite) eqn:Er;
        injection Hself as Hm Hp; [lia|].
      rewrite Hm in Hid, Hpos. rewrite Hp in Hpid.
      assert (Eg : (mid >=? 0) = true) by (rewrite Z.geb_leb; now apply Z.leb_le).
      apply mem_In in Hh, Hq. apply Pos.eqb_neq in Hne.
      apply Z.eqb_eq in Hid, Hpid.
      destruct overwrite.
      - unfold evictedb in Hev. rewrite Hh, Eg, Hq, Hne, Hid, Hpid in Hev. discriminate.
      - unfold rejectedb in Er. rewrite Hh, Eg in Er. cbn [andb negb] in Er.
        assert (Et : existsb (fun p => negb (Pos.eqb p h)
                                       && (ParamHandle_moduleId (hdls w p) =? mid)
                                       && (paramId (hdls w p) =? pid))
                       (paramHandles (internal w)) = true).
        { apply existsb_exists. exists q. split; [now apply mem_In|].
          now rewrite Hne, Hid, Hpid. }
        congruence. }
    intros h1 h2. rewrite Hi. intros H1 H2 Hpos Hid Hpid.
    destruct (Pos.eq_dec h1 h) as [E1|N1], (Pos.eq_dec h2 h) as [E2|N2].
    + congruence.
    + subst h1. exfalso. apply (Hclash h2 H2 N2 H1 Hpos); congruence.
    + subst h2. exfalso. apply (Hclash h1 H1 N1 H2); congruence.
    + destruct (Hkept h1 H1 N1 Hpos) as [S1 _].
      destruct (Hkept h2 H2 N2) as [S2 _]; [lia|].
      rewrite S1, S2 in *. now apply Hex.
  - intros w' Hadd. unfold addParamHandle in Hadd.
    destruct (mem h (paramHandles (internal w))) eqn:Em; [discriminate|].
    destruct (ParamHandle_moduleId (hdls w h) <? 0) eqn:Eb; [|discriminate].
    cbn [negb assert bind] in Hadd. injection Hadd as <-. apply Z.ltb_lt in Eb.
    intros h1 h2. simpl. rewrite !in_app_iff. simpl.
    intros [H1|[<-|[]]] [H2|[<-|[]]] Hpos Hid Hpid; try lia; try reflexivity.
    now apply Hex.
  - intros w' Hrem.
    destruct (removeParamHandle_cases w h) as [[_ E]|[Hin E]]; rewrite E in Hrem;
      [discriminate|]. injection Hrem as <-.
    intros h1 h2. simpl. intros H1 H2. apply in_erase in H1, H2.
    assert (Hf : forall q, ParamHandle_moduleId
                             (upd (hdls w) h (set_ParamHandle_module None (hdls w h)) q)
                           = ParamHandle_moduleId (hdls w q)
                           /\ paramId (upd (hdls w) h
                                         (set_ParamHandle_module None (hdls w h)) q)
                              = paramId (hdls w q)).
    { intros q. unfold upd. destruct (Pos.eqb q h) eqn:E'; [|auto].
      apply Pos.eqb_eq in E'. subst q. simpl. auto. }
    destruct (Hf h1) as [-> ->], (Hf h2) as [-> ->]. now apply Hex.
Qed.

(** X18.  The handle operations keep the cached modules honest.  If every
    registered handle's cached module is null or a registered module with
    the handle's module id, the same holds after [updateParamHandle] with
    any arguments and after [removeParamHandle]; it holds after
    [addParamHandle(h)] when [h] comes with a null cached module, which the
    assertions of [addParamHandle] do not check. *)
Theorem handle_operations_keep_I5 (w : World) (h : addr)
  (HI5 : I5_full w) :
  (forall mid pid overwrite,
     exists w', updateParamHandle w (Some h) mid pid overwrite = Ok w' /\ I5_full w')
  /\ (forall w', removeParamHandle w (Some h) = Ok w' -> I5_full w')
  /\ (forall w', addParamHandle w (Some h) = Ok w' ->
                 ParamHandle_module (hdls w h) = None -> I5_full w').
Proof.
  split; [|split].
  - intros mid pid overwrite.
    destruct (updateParamHandle_spec w h mid pid overwrite)
      as [w' [Hup [Hi [Hm [_ [Hoth [_ Hself]]]]]]].
    exists w'. split; [exact Hup|].
    intros q m. rewrite Hi, Hm. intros Hq Hmod.
    destruct (Pos.eq_dec q h) as [->|Hne].
    { destruct (Hself m Hmod) as [A B]. split; [exact A | now symmetry]. }
    rewrite Hoth in * by assumption.
    destruct (evictedb w h mid pid overwrite q); [discriminate|].
    now apply HI5.
  - intros w' Hrem.
    destruct (removeParamHandle_cases w h) as [[_ E]|[Hin E]]; rewrite E in Hrem;
      [discriminate|]. injection Hrem as <-.
    intros q m. simpl. intros Hq Hmod. apply in_erase in Hq.
    unfold upd in *. destruct (Pos.eqb q h); [discriminate|]. now apply HI5.
  - intros w' Hadd Hnull. unfold addParamHandle in Hadd.
    destruct (mem h (paramHandles (internal w))) eqn:Em; [discriminate|].
    destruct (ParamHandle_moduleId (hdls w h) <? 0) eqn:Eb; [|discriminate].
    cbn [negb assert bind] in Hadd. injection Hadd as <-.
    intros q m. simpl. rewrite in_app_iff. simpl.
    intros [Hq|[<-|[]]] Hmod; [now apply HI5 | congruence].
Qed.

(** X19.  After [updateParamHandle(h, mid, pid, overwrite)] has given a
    registered handle the target [(mid, pid)], the lookup by module and
    param finds it: when a registered module [m] has the id [mid >= 0], the
    registered ids are distinct, the cached modules of the handles carry
    their handles' ids, and either [overwrite] is on or no other registered
    handle is aimed at [(mid, pid)], then [getParamHandle(m, pid)] returns
    [h], and [h] is the only registered handle with that module and param. *)
Theorem updateParamHandle_then_getParamHandle (w : World) (h m : addr) (mid pid : Z)
    (overwrite : bool)
  (Hh : In h (paramHandles (internal w)))
  (Hm : In m (modules (internal w)))
  (Hid : Module_id (mods w m) = mid)
  (Hmid : 0 <= mid)
  (Hnd : NoDup (map (fun q => Module_id (mods w q)) (modules (internal w))))
  (HI5 : I5 w)
  (Hfree : overwrite = true \/ forall p, ~ conflicting_handle w h mid pid p) :
  exists w',
    updateParamHandle w (Some h) mid pid overwrite = Ok w'
    /\ getParamHandle w' (Some m) pid = Some h
    /\ forall q, In q (paramHandles (internal w')) -> q <> h ->
                 (ParamHandle_module (hdls w' q), paramId (hdls w' q)) <> (Some m, pid).
Proof.
  destruct (updateParamHandle_spec w h mid pid overwrite)
    as [w' [Hup [Hi [Hmods [_ [Hoth [Hself _]]]]]]].
  exists w'. split; [exact Hup|].
  pose proof (rejectedb_false w h mid pid overwrite Hfree) as Er.
  rewrite Er in Hself. injection Hself as Hsm Hsp.
  assert (Hbound : ParamHandle_module (hdls w' h) = Some m).
  { apply (updateParamHandle_binds w w' h mid pid overwrite m Hup Hh Hmid Hm Hnd).
    congruence. }
  assert (Honly : forall q, In q (paramHandles (internal w')) -> q <> h ->
                    (ParamHandle_module (hdls w' q), paramId (hdls w' q)) <> (Some m, pid)).
  { intros q Hq Hne. rewrite Hi in Hq. rewrite Hoth by assumption.
    destruct (evictedb w h mid pid overwrite q) eqn:Ev; [discriminate|].
    intros [= Hqm Hqp].
    pose proof (HI5 q m Hq Hqm) as Hqid.
    assert (Hc : conflicting_handle w h mid pid q) by (repeat split; congruence).
    destruct Hfree as [->|Hnone]; [|exact (Hnone q Hc)].
    unfold evictedb in Ev. destruct Hc as [C1 [C2 [C3 C4]]].
    apply mem_In in Hh, C2. apply Pos.eqb_neq in C1. apply Z.eqb_eq in C3, C4.
    assert (Eg : (mid >=? 0) = true) by (rewrite Z.geb_leb; now apply Z.leb_le).
    rewrite Hh, Eg, C2, C1, C3, C4 in Ev. discriminate. }
  split; [|exact Honly].
  unfold getParamHandle. apply findParamHandle_only.
  - rewrite Hi. exact Hh.
  - now rewrite Hbound, Hsp.
  - exact Honly.
Qed.

(** The handles after [addModule(m)]: the registered ones that carry the
    id [m] ends with are bound to [m]. *)
Lemma addModule_handles (w w' : World) (m : addr) :
  addModule w (Some m) = Ok w' ->
  forall h, hdls w' h
            = if mem h (paramHandles (internal w))
              then (if ParamHandle_moduleId (hdls w h) =? Module_id (mods w' m)
                    then set_ParamHandle_module (Some m) (hdls w h) else hdls w h)
              else hdls w h.
Proof.
  unfold addModule.
  destruct (mem m (modules (internal w))); cbn [negb assert bind]; [discriminate|].
  destruct (Module_id (mods w m) <? 0); cbn [bind].
  - intros [= <-] h. simpl. apply fold_rebind.
  - destruct (forallb _ _); cbn [assert bind]; [|discriminate].
    destruct (Module_id (mods w m) >=? nextModuleId (internal w));
      intros [= <-] h; simpl; apply fold_rebind.
Qed.

(** X20.  Adding and removing modules keeps the cached modules of the
    handles honest.  If every registered handle's cached module is null or
    a registered module with the handle's module id, the same holds after
    [addModule] and after [removeModule], whenever these return; [onAdd]
    and [onRemove] are held to their contract of leaving module ids alone. *)
Theorem module_operations_keep_I5 (w : World) (m : addr)
  (HonAdd : forall a, keeps_ids (Module_onAdd a))
  (HonRemove : forall a, keeps_ids (Module_onRemove a))
  (HI5 : I5_full w) :
  (forall w', addModule w (Some m) = Ok w' -> I5_full w')
  /\ (forall w', removeModule w (Some m) = Ok w' -> I5_full w').
Proof.
  split.
  - intros w' Hadd.
    pose proof (addModule_handles w w' m Hadd) as Hh.
    destruct (addModule_frame w w' m Hadd) as [_ [Hph _]].
    assert (Hcases : ~ In m (modules (internal w))
                     /\ (0 <= Module_id (mods w m) ->
                         forall q, In q (modules (internal w)) ->
                                   Module_id (mods w q) <> Module_id (mods w m))).
    { unfold addModule in Hadd.
      destruct (mem m (modules (internal w))) eqn:Em; [discriminate|].
      apply mem_false in Em. split; [exact Em|]. intros Hpos q Hq Heq.
      cbn [negb assert bind] in Hadd. apply Z.ltb_ge in Hpos. rewrite Hpos in Hadd.
      destruct (forallb (fun q => negb (Module_id (mods w m) =? Module_id (mods w q)))
                  (modules (internal w))) eqn:Ef; [|discriminate].
      rewrite forallb_forall in Ef. specialize (Ef q Hq).
      apply negb_true_iff in Ef. apply Z.eqb_neq in Ef. congruence. }
    destruct Hcases as [Hfresh Hfree].
    destruct (addModule_returns w m Hfresh Hfree)
      as [w1 [st [Hret [Hmods [Hst [Hother _]]]]]].
    rewrite Hret in Hadd. injection Hadd as ->.
    intros q x. rewrite Hph, Hmods, Hh. intros Hq Hmod.
    apply mem_In in Hq. rewrite Hq in *.
    destruct (ParamHandle_moduleId (hdls w q) =? Module_id (mods w' m)) eqn:E.
    + apply Z.eqb_eq in E. simpl in Hmod. injection Hmod as <-.
      split; [apply in_or_app; right; now left | exact E].
    + apply mem_In in Hq. destruct (HI5 q x Hq Hmod) as [Hx Hidx].
      split; [apply in_or_app; now left|].
      rewrite Hidx, Hst, HonAdd, Hother; [reflexivity|].
      intros ->. contradiction.
  - intros w' Hrem.
    destruct (removeModule_cases w m) as [[_ E]|[Hreg Hcables]];
      [rewrite E in Hrem; discriminate|].
    destruct (removeModule_returns w m Hreg Hcables)
      as [w1 [Hret [Hmods [_ [Hph [_ [_ [_ [Hh [st [Hst Hstq]]]]]]]]]]].
    rewrite Hret in Hrem. injection Hrem as ->.
    intros q x. rewrite Hph, Hmods, Hh. intros Hq Hmod.
    pose proof Hq as Hq'. apply mem_In in Hq'. rewrite Hq' in *.
    destruct (ParamHandle_moduleId (hdls w q) =? Module_id (mods w m)) eqn:E;
      [discriminate|].
    destruct (HI5 q x Hq Hmod) as [Hx Hidx].
    assert (Hne : x <> m).
    { intros ->. apply Z.eqb_neq in E. contradiction. }
    split; [now apply in_erase_other|].
    rewrite Hidx, Hst, HonRemove, Hstq.
    destruct (mem x (modules (internal w))); [now rewrite unlinkExpanders_id | reflexivity].
Qed.

(** ** The batch of steps of Engine_run *)

(** The smoothing step keeps the engine's lists, and the slot valid. *)
Lemma Engine_step_smooth_slot (w ws : World) :
  smooth_slot_ok w -> Engine_step_smooth w = Ok ws ->
  modules (internal ws) = modules (internal w)
  /\ cables (internal ws) = cables (internal w)
  /\ paramHandles (internal ws) = paramHandles (internal w)
  /\ smooth_slot_ok ws.
Proof.
  unfold smooth_slot_ok, Engine_step_smooth.
  destruct (smoothModule (internal w)) as [m|] eqn:Em.
  - intros Hr. destruct (vec_get_in_range _ _ Hr) as [param Hparam].
    rewrite Hparam. cbn [bind].
    destruct (feqb _ _); rewrite store_param_in_range by assumption; cbn [bind];
      intros [= <-]; simpl.
    + auto.
    + rewrite Em. rewrite upd_same. simpl. rewrite length_replace_nth. auto.
  - intros _ [= <-]. rewrite Em. auto.
Qed.

(** One step keeps the engine's lists, and the slot valid. *)
Lemma Engine_step_slot (w : World)
  (Hprocess : forall a q, keeps_params (Module_process a q))
  (Hcable : forall c, keeps_params (Cable_step c)) :
  smooth_slot_ok w ->
  exists w',
    Engine_step w = Ok w'
    /\ modules (internal w') = modules (internal w)
    /\ cables (internal w') = cables (internal w)
    /\ paramHandles (internal w') = paramHandles (internal w)
    /\ smooth_slot_ok w'.
Proof.
  intros Hslot. destruct (Engine_step_smooth_returns w Hslot) as [ws Hs].
  destruct (Engine_step_smooth_slot w ws Hslot Hs) as [A [B [D E]]].
  destruct (Engine_step_after_smooth w ws Hprocess Hcable Hs) as [w' [Hstep [R HP]]].
  exists w'. split; [exact Hstep|].
  destruct R as [R1 [R2 [R3 [R4 [R5 _]]]]].
  repeat split; try congruence.
  unfold smooth_slot_ok in *. rewrite R4, R5.
  destruct (smoothModule (internal ws)); [|exact I]. now rewrite HP.
Qed.

Lemma Engine_steps_slot (n : nat)
  (Hprocess : forall a q, keeps_params (Module_process a q))
  (Hcable : forall c, keeps_params (Cable_step c)) :
  forall w,
    smooth_slot_ok w ->
    exists w',
      Engine_steps n w = Ok w'
      /\ modules (internal w') = modules (internal w)
      /\ cables (internal w') = cables (internal w)
      /\ paramHandles (internal w') = paramHandles (internal w)
      /\ smooth_slot_ok w'.
Proof.
  induction n as [|n IH]; intros w Hslot; cbn [Engine_steps].
  - exists w. auto.
  - destruct (Engine_step_slot w Hprocess Hcable Hslot) as [w1 [Hstep [A [B [D E]]]]].
    rewrite Hstep. cbn [bind].
    destruct (IH w1 E) as [w' [Hrest [A' [B' [D' E']]]]].
    exists w'. split; [exact Hrest|]. repeat split; try congruence; exact E'.
Qed.

Lemma Engine_updateExpanders_params (w : World) (q : addr) :
  params (mods (Engine_updateExpanders w) q) = params (mods w q).
Proof.
  unfold Engine_updateExpanders. cbn [mods with_mods].
  rewrite (fold_updateExpanders _ (mods w)) by reflexivity.
  now destruct (mem q (modules (internal w))).
Qed.

(** X21.  The block of [Engine_run] that steps the rack, with the engine
    mutex held: when the engine is paused it touches nothing; otherwise it
    resolves the expanders and makes [mutexSteps = 128] steps, and as long
    as the smoothing slot is empty or names an existing param the block
    returns, with the lists of modules, cables and handles as before and
    the slot still valid, so that the next block returns too.  [process]
    and [step] are held to their contract of not writing params. *)
Theorem Engine_run_batch_returns (w : World)
  (Hprocess : forall a q, keeps_params (Module_process a q))
  (Hcable : forall c, keeps_params (Cable_step c))
  (Hslot : smooth_slot_ok w) :
  exists w',
    Engine_run_batch w = Ok w'
    /\ (paused (internal w) = true -> w' = w)
    /\ modules (internal w') = modules (internal w)
    /\ cables (internal w') = cables (internal w)
    /\ paramHandles (internal w') = paramHandles (internal w)
    /\ smooth_slot_ok w'.
Proof.
  unfold Engine_run_batch. destruct (paused (internal w)) eqn:Ep.
  - exists w. repeat split; auto.
  - assert (Hslot' : smooth_slot_ok (Engine_updateExpanders w)).
    { unfold smooth_slot_ok in *.
      change (internal (Engine_updateExpanders w)) with (internal w).
      destruct (smoothModule (internal w)); [|exact I].
      now rewrite Engine_updateExpanders_params. }
    destruct (Engine_steps_slot mutexSteps Hprocess Hcable _ Hslot')
      as [w' [Hrun [A [B [D E]]]]].
    exists w'. split; [exact Hrun|]. split; [discriminate|].
    repeat split; assumption.
Qed.

End MoreProperties.

(** * Engine_stepModules under any interleaving *)

Lemma nth_error_replace_split {A : Type} (l : list A) (n : nat) (x y : A) :
  nth_error l n = Some x ->
  exists l1 l2, l = l1 ++ x :: l2 /\ replace_nth l n y = l1 ++ y :: l2.
Proof.
  revert n. induction l as [|a l IH]; intros [|n] H; simpl in H; try discriminate.
  - injection H as ->. exists [], l. split; reflexivity.
  - destruct (IH n H) as [l1 [l2 [-> E]]]. exists (a :: l1), l2.
    split; [reflexivity|]. simpl. now rewrite E.
Qed.

Lemma Workers_holding_app (l1 l2 : list Workers.pc) :
  Workers.holding (l1 ++ l2) = Workers.holding l1 ++ Workers.holding l2.
Proof. apply flat_map_app. Qed.

Lemma Workers_finished_app (l1 l2 : list Workers.pc) :
  Workers.finished (l1 ++ l2) = (Workers.finished l1 + Workers.finished l2)%nat.
Proof. unfold Workers.finished. now rewrite filter_app, length_app. Qed.

Lemma Workers_finished_le (l : list Workers.pc) :
  (Workers.finished l <= length l)%nat.
Proof. apply filter_length_le. Qed.

Lemma Workers_all_finished (l : list Workers.pc) :
  forallb Workers.is_finished l = true ->
  Workers.holding l = [] /\ Workers.finished l = length l.
Proof.
  induction l as [|p l IH]; simpl; [auto|]. intros H.
  apply andb_prop in H. destruct H as [Hp Hl]. destruct (IH Hl) as [A B].
  destruct p; try discriminate. unfold Workers.finished in *. simpl.
  split; [exact A | now rewrite B].
Qed.

Lemma Workers_indices_In (n i : Z) : In i (Workers.indices n) <-> 0 <= i < n.
Proof.
  unfold Workers.indices. rewrite in_map_iff. split.
  - intros [k [<- Hk]]. apply in_seq in Hk. lia.
  - intros H. exists (Z.to_nat i). split; [lia|]. apply in_seq. lia.
Qed.

Lemma Workers_indices_NoDup (n : Z) : NoDup (Workers.indices n).
Proof.
  unfold Workers.indices. generalize (seq_NoDup (Z.to_nat n) 0).
  induction (seq 0 (Z.to_nat n)) as [|a l IH]; simpl; intros H; [constructor|].
  inversion H as [|? ? Hnotin Hnd]; subst. constructor; [|auto].
  rewrite in_map_iff. intros [b [Hb Hin]]. apply Nat2Z.inj in Hb. now subst.
Qed.

Lemma Workers_indices_succ (n : Z) :
  0 <= n -> Permutation (n :: Workers.indices n) (Workers.indices (n + 1)).
Proof.
  intros H. unfold Workers.indices.
  replace (Z.to_nat (n + 1)) with (S (Z.to_nat n)) by lia.
  rewrite seq_S, map_app. simpl. rewrite Z2Nat.id by lia.
  apply Permutation_cons_append.
Qed.

Lemma Workers_start_threads (n : nat) :
  Workers.holding (repeat Workers.Choosing n) = []
  /\ Workers.finished (repeat Workers.Choosing n) = O.
Proof. induction n as [|n [A B]]; simpl; auto. Qed.

Lemma Workers_start_consistent (modulesLen : Z) (threadCount : nat) :
  0 <= modulesLen ->
  Workers.consistent modulesLen threadCount (Workers.start threadCount).
Proof.
  intros H. unfold Workers.consistent, Workers.start.
  cbn [Workers.workerModuleIndex Workers.threads Workers.stepped].
  destruct (Workers_start_threads threadCount) as [-> ->]. rewrite repeat_length.
  rewrite Z.min_l by lia.
  repeat split; try lia. constructor.
Qed.

Lemma Workers_start_remaining (modulesLen : Z) (threadCount : nat) :
  0 <= modulesLen ->
  Workers.remaining modulesLen (Workers.start threadCount)
  = 2 * modulesLen + Z.of_nat threadCount.
Proof.
  intros H. unfold Workers.remaining, Workers.start.
  cbn [Workers.workerModuleIndex Workers.threads].
  destruct (Workers_start_threads threadCount) as [-> ->]. rewrite repeat_length.
  rewrite Z.min_l by lia. cbn [length]. lia.
Qed.

Lemma Workers_holding_mid (l1 l2 : list Workers.pc) (p : Workers.pc) :
  Workers.holding (l1 ++ p :: l2)
  = Workers.holding l1
    ++ match p with Workers.Stepping i => [i] | _ => [] end ++ Workers.holding l2.
Proof. rewrite Workers_holding_app. reflexivity. Qed.

Lemma Workers_finished_mid (l1 l2 : list Workers.pc) (p : Workers.pc) :
  Workers.finished (l1 ++ p :: l2)
  = (Workers.finished l1 + (if Workers.is_finished p then 1 else 0)
     + Workers.finished l2)%nat.
Proof.
  rewrite Workers_finished_app. unfold Workers.finished. simpl.
  destruct (Workers.is_finished p); simpl; lia.
Qed.

Lemma length_mid {A : Type} (l1 l2 : list A) (p : A) :
  length (l1 ++ p :: l2) = S (length l1 + length l2).
Proof. rewrite length_app. simpl. lia. Qed.

(** One move keeps the state consistent and is one move less to make. *)
Lemma Workers_step_consistent (modulesLen : Z) (threadCount tid : nat) (s s' : Workers.t) :
  modulesLen + Z.of_nat threadCount <= INT_MAX ->
  Workers.consistent modulesLen threadCount s ->
  Workers.step modulesLen tid s = Some s' ->
  Workers.consistent modulesLen threadCount s'
  /\ Workers.remaining modulesLen s' = Workers.remaining modulesLen s - 1.
Proof.
  intros Hint [Hlen [Hpos [Hperm Hfin]]] Hstep. unfold Workers.step in Hstep.
  unfold Workers.consistent, Workers.remaining.
  destruct s as [idx l log]. cbn [Workers.workerModuleIndex Workers.threads
    Workers.stepped] in *.
  destruct (nth_error l tid) as [p|] eqn:En; [|discriminate].
  destruct p as [|j|]; [| |discriminate].
  - (* the fetch *)
    destruct (nth_error_replace_split _ _ _
                (if idx >=? modulesLen then Workers.Finished else Workers.Stepping idx)
                En) as [l1 [l2 [-> Er]]].
    rewrite Er in Hstep. injection Hstep as <-.
    cbn [Workers.workerModuleIndex Workers.threads Workers.stepped].
    rewrite Workers_holding_mid, Workers_finished_mid, length_mid in *.
    rewrite Workers_holding_mid, Workers_finished_mid, length_mid.
    cbn [Workers.is_finished app] in *.
    pose proof (Workers_finished_le l1) as F1.
    pose proof (Workers_finished_le l2) as F2.
    assert (Hw : wrap_int (idx + 1) = idx + 1).
    { apply wrap_int_id. unfold is_int, INT_MIN, INT_MAX in *. lia. }
    rewrite Hw. rewrite Z.geb_leb.
    destruct (Z.leb_spec modulesLen idx) as [Hge|Hlt]; cbn [Workers.is_finished app].
    + rewrite !Z.min_r in * by lia. rewrite !length_app in *.
      repeat split; try lia; try assumption.
    + rewrite Z.min_l in Hperm by lia. rewrite !Z.min_l by lia.
      rewrite !length_app in *. cbn [length].
      repeat split; try lia.
      eapply Permutation_trans; [|apply Workers_indices_succ; assumption].
      rewrite <- app_assoc. cbn [app].
      eapply Permutation_trans; [apply Permutation_sym, Permutation_middle|].
      apply perm_skip. now rewrite app_assoc.
  - (* the stepping of modules[j] *)
    destruct (nth_error_replace_split _ _ _ Workers.Choosing En) as [l1 [l2 [-> Er]]].
    rewrite Er in Hstep. injection Hstep as <-.
    cbn [Workers.workerModuleIndex Workers.threads Workers.stepped].
    rewrite Workers_holding_mid, Workers_finished_mid, length_mid in *.
    rewrite Workers_holding_mid, Workers_finished_mid, length_mid.
    cbn [Workers.is_finished app] in *.
    rewrite !length_app in *. cbn [length] in *.
    repeat split; try lia; try assumption.
    eapply Permutation_trans; [|exact Hperm].
    rewrite <- !app_assoc. cbn [app].
    apply Permutation_app_head.
    apply Permutation_sym, Permutation_middle.
Qed.

Lemma Workers_run_consistent (modulesLen : Z) (threadCount : nat) (schedule : list nat) :
  modulesLen + Z.of_nat threadCount <= INT_MAX ->
  forall s,
    Workers.consistent modulesLen threadCount s ->
    Workers.consistent modulesLen threadCount (Workers.run modulesLen schedule s)
    /\ Z.of_nat (Workers.moves modulesLen schedule s)
       + Workers.remaining modulesLen (Workers.run modulesLen schedule s)
       = Workers.remaining modulesLen s.
Proof.
  intros Hint. induction schedule as [|tid rest IH]; intros s Hs; simpl.
  - split; [exact Hs | lia].
  - destruct (Workers.step modulesLen tid s) as [s'|] eqn:E.
    + destruct (Workers_step_consistent _ _ _ _ _ Hint Hs E) as [Hs' Hr].
      destruct (IH s' Hs') as [A B]. split; [exact A | lia].
    + now apply IH.
Qed.

Lemma Workers_remaining_nonneg (modulesLen : Z) (threadCount : nat) (s : Workers.t) :
  Workers.consistent modulesLen threadCount s -> 0 <= Workers.remaining modulesLen s.
Proof.
  intros [_ [_ [_ _]]]. unfold Workers.remaining.
  pose proof (Workers_finished_le (Workers.threads s)). lia.
Qed.

(** X22.  However the engine thread and the workers interleave in the loop
    of [Engine_stepModules], no module is stepped twice and no index
    outside the module list is stepped; and once every thread has left the
    loop, every module has been stepped exactly once and
    [workerModuleIndex] is the number of modules plus the number of
    threads.  The indices stay within [int]. *)
Theorem Workers_step_each_module_once (modulesLen : Z) (threadCount : nat)
    (schedule : list nat)
  (Hlen : 0 <= modulesLen)
  (Hint : modulesLen + Z.of_nat threadCount <= INT_MAX) :
  let s := Workers.run modulesLen schedule (Workers.start threadCount) in
  NoDup (Workers.stepped s)
  /\ (forall i, In i (Workers.stepped s) -> 0 <= i < modulesLen)
  /\ (Workers.all_finished s -> (0 < threadCount)%nat ->
      (forall i, 0 <= i < modulesLen -> In i (Workers.stepped s))
      /\ Workers.workerModuleIndex s = modulesLen + Z.of_nat threadCount).
Proof.
  intros s.
  destruct (Workers_run_consistent modulesLen threadCount schedule Hint _
              (Workers_start_consistent modulesLen threadCount Hlen))
    as [[Hl [Hpos [Hperm Hfin]]] _].
  fold s in Hl, Hpos, Hperm, Hfin.
  assert (Hnd : NoDup (Workers.holding (Workers.threads s) ++ Workers.stepped s)).
  { eapply Permutation_NoDup; [apply Permutation_sym; exact Hperm|].
    apply Workers_indices_NoDup. }
  split; [eapply NoDup_app_remove_l; exact Hnd|]. split.
  - intros i Hi.
    assert (In i (Workers.indices (Z.min (Workers.workerModuleIndex s) modulesLen))).
    { eapply Permutation_in; [exact Hperm|]. apply in_or_app. now right. }
    apply Workers_indices_In in H. lia.
  - intros Hall HT. destruct (Workers_all_finished _ Hall) as [Hh Hf].
    rewrite Hf, Hl in Hfin. rewrite Hh in Hperm. simpl in Hperm.
    assert (Hidx : Workers.workerModuleIndex s = modulesLen + Z.of_nat threadCount) by lia.
    split; [|exact Hidx].
    intros i Hi. eapply Permutation_in; [apply Permutation_sym; exact Hperm|].
    apply Workers_indices_In. lia.
Qed.

(** X23.  The loop of [Engine_stepModules] always ends, and nobody waits in
    it: under any interleaving the threads together make at most
    [2 * modulesLen + threadCount] moves (a fetch or the stepping of a
    module), exactly that many once all have left the loop, and as long as
    some thread is inside the loop some thread can move. *)
Theorem Workers_loop_ends (modulesLen : Z) (threadCount : nat) (schedule : list nat)
  (Hlen : 0 <= modulesLen)
  (Hint : modulesLen + Z.of_nat threadCount <= INT_MAX) :
  let s := Workers.run modulesLen schedule (Workers.start threadCount) in
  Z.of_nat (Workers.moves modulesLen schedule (Workers.start threadCount))
    <= 2 * modulesLen + Z.of_nat threadCount
  /\ (Workers.all_finished s -> (0 < threadCount)%nat ->
      Z.of_nat (Workers.moves modulesLen schedule (Workers.start threadCount))
      = 2 * modulesLen + Z.of_nat threadCount)
  /\ (~ Workers.all_finished s -> exists tid, Workers.step modulesLen tid s <> None).
Proof.
  intros s.
  pose proof (Workers_start_consistent modulesLen threadCount Hlen) as H0.
  destruct (Workers_run_consistent modulesLen threadCount schedule Hint _ H0)
    as [Hs Hmoves].
  fold s in Hs, Hmoves.
  pose proof (Workers_remaining_nonneg _ _ _ Hs) as Hnn.
  pose proof (Workers_start_remaining modulesLen threadCount Hlen) as Hstart.
  split; [lia|]. split.
  - intros Hall HT. destruct (Workers_all_finished _ Hall) as [Hh Hf].
    destruct Hs as [A [B [D E]]].
    assert (Workers.remaining modulesLen s = 0).
    { unfold Workers.remaining. rewrite Hh, Hf. cbn [length]. rewrite Hf, A in E. lia. }
    lia.
  - intros Hnot. unfold Workers.all_finished in Hnot.
    destruct (forallb Workers.is_finished (Workers.threads s)) eqn:E; [congruence|].
    destruct (forallb_false_exists _ _ E) as [p [Hin Hp]].
    apply In_nth_error in Hin. destruct Hin as [tid Htid].
    exists tid. unfold Workers.step. rewrite Htid.
    destruct p; [discriminate | discriminate | discriminate].
Qed.

(** * One phase of a HybridBarrier under any interleaving *)

Lemma Phase_cnt_cons (f : Phase.pc -> bool) (p : Phase.pc) (l : list Phase.pc) :
  Phase.cnt f (p :: l) = ((if f p then 1 else 0) + Phase.cnt f l)%nat.
Proof. unfold Phase.cnt. simpl. now destruct (f p). Qed.

Lemma Phase_cnt_pos (f : Phase.pc -> bool) (l : list Phase.pc) :
  (0 < Phase.cnt f l)%nat <-> exists p, In p l /\ f p = true.
Proof.
  induction l as [|a l IH]; [unfold Phase.cnt; simpl; split; [lia | intros [p [[] _]]]|].
  rewrite Phase_cnt_cons. split.
  - destruct (f a) eqn:E; [intros _; exists a; simpl; auto|].
    intros H. destruct IH as [IH _]. destruct IH as [p [Hin Hp]]; [lia|].
    exists p. simpl. auto.
  - intros [p [[<-|Hin] Hp]]; [rewrite Hp; lia|].
    destruct IH as [_ IH]. assert (0 < Phase.cnt f l)%nat by (apply IH; eauto). lia.
Qed.

(** Replacing the place of one thread moves one unit between two counts. *)
Lemma Phase_num_step (l : list Phase.pc) (tid : nat) (p p' : Phase.pc) :
  nth_error l tid = Some p ->
  forall q,
    (Phase.num q (replace_nth l tid p') + (if Phase.here q p then 1 else 0)
     = Phase.num q l + (if Phase.here q p' then 1 else 0))%nat.
Proof.
  revert tid. induction l as [|a l IH]; intros [|n] H q; simpl in H; try discriminate.
  - injection H as ->. unfold Phase.num. simpl. rewrite !Phase_cnt_cons. lia.
  - specialize (IH n H q). unfold Phase.num in *. simpl. rewrite !Phase_cnt_cons. lia.
Qed.

Ltac phase_count :=
  let a := fresh "a" in let l := fresh "l" in let IH := fresh "IH" in
  intros l; induction l as [|a l IH]; [reflexivity|];
  unfold Phase.num in *; rewrite !Phase_cnt_cons, IH; destruct a; simpl; lia.

Lemma Phase_cnt_is_entry :
  forall l, Phase.cnt Phase.is_entry l = Phase.num Phase.Entry l.
Proof. phase_count. Qed.

Lemma Phase_cnt_is_zero :
  forall l, Phase.cnt Phase.is_zero l = Phase.num Phase.Zero l.
Proof. phase_count. Qed.

Lemma Phase_cnt_is_clear :
  forall l, Phase.cnt Phase.is_clear l = Phase.num Phase.ClearYield l.
Proof. phase_count. Qed.

Lemma Phase_cnt_is_returned :
  forall l, Phase.cnt Phase.is_returned l = Phase.num Phase.Returned l.
Proof. phase_count. Qed.

Lemma Phase_cnt_is_after :
  forall l, Phase.cnt Phase.is_after l
            = (Phase.num Phase.ReadYield l + Phase.num Phase.Lock l
               + Phase.num Phase.Notify l + Phase.num Phase.ClearYield l
               + Phase.num Phase.Unlock l + Phase.num Phase.Returned l)%nat.
Proof. phase_count. Qed.

Lemma Phase_cnt_holds :
  forall l, Phase.cnt Phase.holds l
            = (Phase.num Phase.Notify l + Phase.num Phase.ClearYield l
               + Phase.num Phase.WaitPred l + Phase.num Phase.WaitSleep l
               + Phase.num Phase.Unlock l)%nat.
Proof. phase_count. Qed.

Lemma Phase_cnt_is_waiting :
  forall l, Phase.cnt Phase.is_waiting l
            = (Phase.num Phase.WaitLock l + Phase.num Phase.WaitPred l
               + Phase.num Phase.WaitSleep l + Phase.num Phase.Sleeping l)%nat.
Proof. phase_count. Qed.

Lemma Phase_cnt_is_sleepy :
  forall l, Phase.cnt Phase.is_sleepy l
            = (Phase.num Phase.WaitSleep l + Phase.num Phase.Sleeping l)%nat.
Proof. phase_count. Qed.

Lemma Phase_cnt_is_pending :
  forall l, Phase.cnt Phase.is_pending l
            = (Phase.num Phase.Entry l + Phase.num Phase.Zero l
               + Phase.num Phase.ReadYield l + Phase.num Phase.Lock l
               + Phase.num Phase.Notify l)%nat.
Proof. phase_count. Qed.

Lemma Phase_length_num :
  forall l, length l
            = (Phase.num Phase.Entry l + Phase.num Phase.Zero l
               + Phase.num Phase.ReadYield l + Phase.num Phase.Lock l
               + Phase.num Phase.Notify l + Phase.num Phase.ClearYield l
               + Phase.num Phase.SpinYield l + Phase.num Phase.SpinCount l
               + Phase.num Phase.WaitLock l + Phase.num Phase.WaitPred l
               + Phase.num Phase.WaitSleep l + Phase.num Phase.Sleeping l
               + Phase.num Phase.Unlock l + Phase.num Phase.Returned l)%nat.
Proof.
  intros l; induction l as [|a l IH]; [reflexivity|].
  unfold Phase.num in *. rewrite !Phase_cnt_cons. simpl length. rewrite IH.
  destruct a; simpl; lia.
Qed.

(** [cv.notify_all()] empties the count of sleepers into that of the
    threads about to take the mutex. *)
Lemma Phase_num_wake (l : list Phase.pc) :
  Phase.num Phase.Sleeping (map Phase.wake l) = O
  /\ Phase.num Phase.WaitLock (map Phase.wake l)
     = (Phase.num Phase.WaitLock l + Phase.num Phase.Sleeping l)%nat
  /\ forall q, q <> Phase.Sleeping -> q <> Phase.WaitLock ->
               Phase.num q (map Phase.wake l) = Phase.num q l.
Proof.
  induction l as [|a l [IH1 [IH2 IH3]]].
  - repeat split.
  - unfold Phase.num in *. simpl map. rewrite !Phase_cnt_cons. split; [|split].
    + rewrite IH1. now destruct a.
    + rewrite IH2. destruct a; simpl; lia.
    + intros q H1 H2. rewrite Phase_cnt_cons, (IH3 q H1 H2).
      destruct a, q; try contradiction; reflexivity.
Qed.

Lemma Phase_num_here (l : list Phase.pc) (tid : nat) (p : Phase.pc) :
  nth_error l tid = Some p -> (1 <= Phase.num p l)%nat.
Proof.
  revert tid. induction l as [|a l IH]; intros [|n] H; simpl in H; try discriminate.
  - injection H as ->. unfold Phase.num. rewrite Phase_cnt_cons.
    unfold Phase.here. rewrite Nat.eqb_refl. lia.
  - specialize (IH n H). unfold Phase.num in *. rewrite Phase_cnt_cons. lia.
Qed.

Ltac phase_sets :=
  rewrite ?Phase_cnt_is_entry, ?Phase_cnt_is_zero, ?Phase_cnt_is_clear,
    ?Phase_cnt_is_after, ?Phase_cnt_holds, ?Phase_cnt_is_waiting,
    ?Phase_cnt_is_sleepy, ?Phase_cnt_is_pending in *.

Ltac phase_moved HS :=
  pose proof (HS Phase.Entry); pose proof (HS Phase.Zero);
  pose proof (HS Phase.ReadYield); pose proof (HS Phase.Lock);
  pose proof (HS Phase.Notify); pose proof (HS Phase.ClearYield);
  pose proof (HS Phase.SpinYield); pose proof (HS Phase.SpinCount);
  pose proof (HS Phase.WaitLock); pose proof (HS Phase.WaitPred);
  pose proof (HS Phase.WaitSleep); pose proof (HS Phase.Sleeping);
  pose proof (HS Phase.Unlock); pose proof (HS Phase.Returned);
  clear HS; cbn [Phase.here Phase.code Nat.eqb] in *.

Ltac phase_step En Hm p' :=
  let HS := fresh "HS" in
  pose proof (Phase_num_step _ _ _ p' En) as HS;
  injection Hm as <-;
  unfold Phase.consistent, Phase.at_pc in *;
  cbn [Phase.count Phase.total Phase.yield Phase.locked Phase.threads] in *;
  rewrite ?length_replace_nth;
  phase_sets; phase_moved HS.

(** One move keeps the phase consistent. *)
Lemma Phase_move_consistent (tid : nat) (s s' : Phase.t) :
  Phase.consistent s -> Phase.move tid s = Some s' -> Phase.consistent s'.
Proof.
  intros Hc Hm. destruct s as [c tot y lk l]. unfold Phase.move in Hm.
  cbn [Phase.count Phase.total Phase.yield Phase.locked Phase.threads] in Hm.
  destruct (nth_error l tid) as [p|] eqn:En; [|discriminate].
  pose proof (Phase_length_num l) as Hlen.
  pose proof (Phase_num_here l tid p En) as Hhere.
  destruct p.
  - (* Entry *)
    assert (Hw : wrap_int (c + 1) = c + 1).
    { unfold Phase.consistent in Hc.
      cbn [Phase.count Phase.total Phase.yield Phase.locked Phase.threads] in Hc.
      phase_sets. apply wrap_int_id. unfold is_int, INT_MIN, INT_MAX in *. lia. }
    rewrite Hw in Hm.
    destruct (Z.eqb_spec (c + 1) tot) as [Eq|Ne].
    + phase_step En Hm Phase.Zero. lia.
    + phase_step En Hm Phase.SpinYield. lia.
  - (* Zero *)
    phase_step En Hm Phase.ReadYield. lia.
  - (* ReadYield *)
    destruct y.
    + phase_step En Hm Phase.Lock. lia.
    + phase_step En Hm Phase.Returned. lia.
  - (* Lock *)
    destruct lk; [discriminate|].
    phase_step En Hm Phase.Notify. lia.
  - (* Notify *)
    assert (En' : nth_error (map Phase.wake l) tid = Some Phase.Notify).
    { rewrite nth_error_map, En. reflexivity. }
    destruct (Phase_num_wake l) as [W1 [W2 W3]].
    pose proof (W3 Phase.Entry ltac:(discriminate) ltac:(discriminate)).
    pose proof (W3 Phase.Zero ltac:(discriminate) ltac:(discriminate)).
    pose proof (W3 Phase.ReadYield ltac:(discriminate) ltac:(discriminate)).
    pose proof (W3 Phase.Lock ltac:(discriminate) ltac:(discriminate)).
    pose proof (W3 Phase.Notify ltac:(discriminate) ltac:(discriminate)).
    pose proof (W3 Phase.ClearYield ltac:(discriminate) ltac:(discriminate)).
    pose proof (W3 Phase.SpinYield ltac:(discriminate) ltac:(discriminate)).
    pose proof (W3 Phase.SpinCount ltac:(discriminate) ltac:(discriminate)).
    pose proof (W3 Phase.WaitPred ltac:(discriminate) ltac:(discriminate)).
    pose proof (W3 Phase.WaitSleep ltac:(discriminate) ltac:(discriminate)).
    pose proof (W3 Phase.Unlock ltac:(discriminate) ltac:(discriminate)).
    pose proof (W3 Phase.Returned ltac:(discriminate) ltac:(discriminate)).
    clear W3.
    destruct lk, y; phase_step En' Hm Phase.ClearYield; rewrite ?length_map; lia.
  - (* ClearYield *)
    phase_step En Hm Phase.Unlock. lia.
  - (* SpinYield *)
    destruct y.
    + phase_step En Hm Phase.WaitLock. lia.
    + phase_step En Hm Phase.SpinCount. lia.
  - (* SpinCount *)
    destruct (Z.eqb_spec c 0) as [Eq|Ne].
    + phase_step En Hm Phase.Returned. lia.
    + phase_step En Hm Phase.SpinYield. lia.
  - (* WaitLock *)
    destruct lk; [discriminate|].
    phase_step En Hm Phase.WaitPred. lia.
  - (* WaitPred *)
    destruct (Z.eqb_spec c 0) as [Eq|Ne].
    + phase_step En Hm Phase.Unlock. lia.
    + phase_step En Hm Phase.WaitSleep. lia.
  - (* WaitSleep *)
    destruct lk; phase_step En Hm Phase.Sleeping; lia.
  - (* Sleeping *)
    phase_step En Hm Phase.WaitLock. lia.
  - (* Unlock *)
    destruct lk; phase_step En Hm Phase.Returned; lia.
  - discriminate.
Qed.

Lemma Phase_step_consistent (e : Phase.event) (s s' : Phase.t) :
  Phase.consistent s -> Phase.step e s = Some s' -> Phase.consistent s'.
Proof.
  destruct e as [tid|]; simpl.
  - apply Phase_move_consistent.
  - intros Hc [= <-]. unfold Phase.consistent in *.
    cbn [Phase.count Phase.total Phase.yield Phase.locked Phase.threads] in *.
    intuition.
Qed.

Lemma Phase_run_consistent (schedule : list Phase.event) :
  forall s, Phase.consistent s -> Phase.consistent (Phase.run schedule s).
Proof.
  induction schedule as [|e rest IH]; intros s Hs; simpl; [exact Hs|].
  destruct (Phase.step e s) as [s'|] eqn:E; [|now apply IH].
  apply IH. eapply Phase_step_consistent; eassumption.
Qed.

Lemma Phase_cnt_repeat (f : Phase.pc -> bool) (n : nat) :
  Phase.cnt f (repeat Phase.Entry n) = if f Phase.Entry then n else O.
Proof.
  induction n as [|n IH]; simpl repeat; [unfold Phase.cnt; simpl; now destruct (f _)|].
  rewrite Phase_cnt_cons, IH. now destruct (f Phase.Entry).
Qed.

Lemma Phase_start_consistent (threadCount : nat) (yield0 : bool) :
  1 <= Z.of_nat threadCount <= INT_MAX ->
  Phase.consistent (Phase.start threadCount yield0).
Proof.
  intros H. unfold Phase.consistent, Phase.start.
  cbn [Phase.count Phase.total Phase.yield Phase.locked Phase.threads].
  rewrite !Phase_cnt_repeat, repeat_length. cbn.
  repeat split; try lia.
Qed.

Lemma Phase_code_inj (p q : Phase.pc) : Phase.code p = Phase.code q -> p = q.
Proof. destruct p, q; simpl; intros H; try reflexivity; discriminate. Qed.

Lemma Phase_num_pos (q : Phase.pc) (l : list Phase.pc) :
  (0 < Phase.num q l)%nat <-> In q l.
Proof.
  unfold Phase.num. rewrite Phase_cnt_pos. split.
  - intros [p [Hin Hp]]. unfold Phase.here in Hp. apply Nat.eqb_eq in Hp.
    apply Phase_code_inj in Hp. now subst.
  - intros H. exists q. split; [exact H|]. unfold Phase.here. apply Nat.eqb_refl.
Qed.

Lemma Phase_step_total (e : Phase.event) (s s' : Phase.t) :
  Phase.step e s = Some s' -> Phase.total s' = Phase.total s.
Proof.
  destruct e as [tid|]; simpl; [|now intros [= <-]].
  unfold Phase.move.
  destruct (nth_error (Phase.threads s) tid) as [[]|]; try discriminate;
    try (destruct (Phase.locked s); try discriminate);
    intros [= <-]; reflexivity.
Qed.

Lemma Phase_run_total (schedule : list Phase.event) :
  forall s, Phase.total (Phase.run schedule s) = Phase.total s.
Proof.
  induction schedule as [|e rest IH]; intros s; simpl; [reflexivity|].
  destruct (Phase.step e s) as [s'|] eqn:E; [|apply IH].
  rewrite IH. eapply Phase_step_total; eassumption.
Qed.

Lemma Phase_cnt_zero (f : Phase.pc -> bool) (l : list Phase.pc) :
  (forall p, In p l -> f p = false) -> Phase.cnt f l = O.
Proof.
  induction l as [|a l IH]; intros H; [reflexivity|].
  rewrite Phase_cnt_cons, IH.
  - rewrite (H a); [reflexivity | now left].
  - intros p Hp. apply H. now right.
Qed.

(** X24.  No thread leaves the barrier early.  Let [threadCount >= 1]
    threads call [wait()] on an idle HybridBarrier whose [total] is their
    number.  However their moves interleave, and whenever [yieldWorkers]
    strikes: as soon as one thread has returned from [wait()], every thread
    has entered it and [count] is back at 0; no two threads hold the mutex
    at once; and when all have returned, [count] is 0 and the mutex is
    free, so that the barrier is idle again. *)
Theorem Phase_no_early_return (threadCount : nat) (yield0 : bool)
    (schedule : list Phase.event)
  (Hcount : 1 <= Z.of_nat threadCount <= INT_MAX) :
  let s := Phase.run schedule (Phase.start threadCount yield0) in
  (In Phase.Returned (Phase.threads s) ->
   ~ In Phase.Entry (Phase.threads s) /\ Phase.count s = 0)
  /\ (Phase.cnt Phase.holds (Phase.threads s) <= 1)%nat
  /\ (forallb Phase.is_returned (Phase.threads s) = true ->
      Phase.count s = 0 /\ Phase.locked s = false
      /\ length (Phase.threads s) = threadCount).
Proof.
  intros s.
  pose proof (Phase_run_consistent schedule _
                (Phase_start_consistent threadCount yield0 Hcount)) as Hc.
  pose proof (Phase_run_total schedule (Phase.start threadCount yield0)) as Htot.
  fold s in Hc, Htot. cbn [Phase.start Phase.total] in Htot.
  destruct Hc as [Hlen [Hrange [I1 [_ [I4 _]]]]].
  assert (Hret : In Phase.Returned (Phase.threads s) ->
                 Phase.count s = 0 /\ Phase.cnt Phase.is_entry (Phase.threads s) = O).
  { intros H. apply Phase_num_pos in H.
    destruct I1 as [A [B _]]; [rewrite Phase_cnt_is_after; lia | auto]. }
  split; [|split].
  - intros H. destruct (Hret H) as [A B]. split; [|exact A].
    intros Hin. apply Phase_num_pos in Hin. rewrite Phase_cnt_is_entry in B. lia.
  - rewrite I4. destruct (Phase.locked s); lia.
  - intros Hall. rewrite forallb_forall in Hall.
    assert (Hne : In Phase.Returned (Phase.threads s)).
    { destruct (Phase.threads s) as [|p l] eqn:El; [simpl in Hlen; lia|].
      specialize (Hall p ltac:(now left)). destruct p; try discriminate. now left. }
    destruct (Hret Hne) as [A _]. split; [exact A|]. split; [|lia].
    rewrite Phase_cnt_zero in I4.
    + destruct (Phase.locked s); [discriminate | reflexivity].
    + intros p Hp. specialize (Hall p Hp). now destruct p.
Qed.

(** X25.  No wake-up is lost.  When [threadCount >= 1] threads call [wait()] on an idle
    HybridBarrier whose [total] is their number, then under every
    interleaving of their moves and of [yieldWorkers]:
    whenever a thread is asleep in [cv.wait], or has seen the predicate
    fail and is about to sleep, [yield] is set, and either some thread has
    yet to enter [wait()] or the last thread is between its reset of
    [count] and its [cv.notify_all()]; so the notification the sleeper
    needs is still to come. *)
Theorem Phase_no_lost_wakeup (threadCount : nat) (yield0 : bool)
    (schedule : list Phase.event)
  (Hcount : 1 <= Z.of_nat threadCount <= INT_MAX) :
  let s := Phase.run schedule (Phase.start threadCount yield0) in
  In Phase.Sleeping (Phase.threads s) \/ In Phase.WaitSleep (Phase.threads s) ->
  Phase.yield s = true
  /\ exists p, In p (Phase.threads s) /\ Phase.is_pending p = true.
Proof.
  intros s Hsleep.
  pose proof (Phase_run_consistent schedule _
                (Phase_start_consistent threadCount yield0 Hcount)) as Hc.
  fold s in Hc.
  destruct Hc as [_ [_ [_ [_ [_ [_ [J4 _]]]]]]].
  destruct J4 as [A B].
  { rewrite Phase_cnt_is_sleepy.
    destruct Hsleep as [H|H]; apply Phase_num_pos in H; lia. }
  split; [exact A|]. now apply Phase_cnt_pos.
Qed.

Lemma Phase_can_move (s : Phase.t) (tid : nat) (p : Phase.pc) :
  nth_error (Phase.threads s) tid = Some p ->
  p <> Phase.Returned ->
  (p = Phase.Lock \/ p = Phase.WaitLock -> Phase.locked s = false) ->
  Phase.move tid s <> None.
Proof.
  intros Hn Hr Hl. unfold Phase.move. rewrite Hn.
  destruct p; try discriminate; try contradiction;
    rewrite Hl by auto; discriminate.
Qed.

(** As long as some thread has not returned, some thread that is awake can
    move. *)
Lemma Phase_some_move (s : Phase.t) :
  Phase.consistent s ->
  forallb Phase.is_returned (Phase.threads s) = false ->
  exists tid p,
    nth_error (Phase.threads s) tid = Some p
    /\ p <> Phase.Sleeping
    /\ Phase.move tid s <> None.
Proof.
  intros Hc Hnot.
  destruct Hc as [Hlen [Hrange [_ [_ [I4 [_ [J4 _]]]]]]].
  pose proof (Phase_length_num (Phase.threads s)) as Hsum.
  assert (Hlive : (Phase.num Phase.Returned (Phase.threads s)
                   < length (Phase.threads s))%nat).
  { destruct (forallb_false_exists _ _ Hnot) as [p [Hin Hp]].
    assert (Hq : (0 < Phase.num p (Phase.threads s))%nat) by now apply Phase_num_pos.
    destruct p; try discriminate; lia. }
  assert (Hgo : forall q, (0 < Phase.num q (Phase.threads s))%nat ->
                  q <> Phase.Returned -> q <> Phase.Sleeping ->
                  (q = Phase.Lock \/ q = Phase.WaitLock -> Phase.locked s = false) ->
                  exists tid p,
                    nth_error (Phase.threads s) tid = Some p
                    /\ p <> Phase.Sleeping /\ Phase.move tid s <> None).
  { intros q Hq H1 H2 H3. apply Phase_num_pos in Hq.
    apply In_nth_error in Hq. destruct Hq as [tid Htid].
    exists tid, q. split; [exact Htid|]. split; [exact H2|].
    eapply Phase_can_move; eassumption. }
  rewrite Phase_cnt_holds in I4.
  rewrite Phase_cnt_is_sleepy, Phase_cnt_is_pending in J4.
  destruct (Nat.eq_dec (Phase.num Phase.Entry (Phase.threads s)) 0) as [E1|E1];
    [|apply (Hgo Phase.Entry); try lia; try discriminate; intros [H|H]; discriminate].
  destruct (Nat.eq_dec (Phase.num Phase.Zero (Phase.threads s)) 0) as [E2|E2];
    [|apply (Hgo Phase.Zero); try lia; try discriminate; intros [H|H]; discriminate].
  destruct (Nat.eq_dec (Phase.num Phase.ReadYield (Phase.threads s)) 0) as [E3|E3];
    [|apply (Hgo Phase.ReadYield); try lia; try discriminate;
      intros [H|H]; discriminate].
  destruct (Nat.eq_dec (Phase.num Phase.Notify (Phase.threads s)) 0) as [E4|E4];
    [|apply (Hgo Phase.Notify); try lia; try discriminate; intros [H|H]; discriminate].
  destruct (Nat.eq_dec (Phase.num Phase.ClearYield (Phase.threads s)) 0) as [E5|E5];
    [|apply (Hgo Phase.ClearYield); try lia; try discriminate;
      intros [H|H]; discriminate].
  destruct (Nat.eq_dec (Phase.num Phase.SpinYield (Phase.threads s)) 0) as [E6|E6];
    [|apply (Hgo Phase.SpinYield); try lia; try discriminate;
      intros [H|H]; discriminate].
  destruct (Nat.eq_dec (Phase.num Phase.SpinCount (Phase.threads s)) 0) as [E7|E7];
    [|apply (Hgo Phase.SpinCount); try lia; try discriminate;
      intros [H|H]; discriminate].
  destruct (Nat.eq_dec (Phase.num Phase.WaitPred (Phase.threads s)) 0) as [E8|E8];
    [|apply (Hgo Phase.WaitPred); try lia; try discriminate; intros [H|H]; discriminate].
  destruct (Nat.eq_dec (Phase.num Phase.WaitSleep (Phase.threads s)) 0) as [E9|E9];
    [|apply (Hgo Phase.WaitSleep); try lia; try discriminate;
      intros [H|H]; discriminate].
  destruct (Nat.eq_dec (Phase.num Phase.Unlock (Phase.threads s)) 0) as [E10|E10];
    [|apply (Hgo Phase.Unlock); try lia; try discriminate; intros [H|H]; discriminate].
  assert (Hfree : Phase.locked s = false).
  { destruct (Phase.locked s); [lia | reflexivity]. }
  destruct (Nat.eq_dec (Phase.num Phase.Lock (Phase.threads s)) 0) as [E11|E11];
    [|apply (Hgo Phase.Lock); try lia; try discriminate; intros _; exact Hfree].
  destruct (Nat.eq_dec (Phase.num Phase.WaitLock (Phase.threads s)) 0) as [E12|E12];
    [|apply (Hgo Phase.WaitLock); try lia; try discriminate; intros _; exact Hfree].
  exfalso. lia.
Qed.

(** X26.  The barrier does not deadlock.  When [threadCount >= 1] threads call [wait()] on an idle
    HybridBarrier whose [total] is their number, then under every
    interleaving of their moves and of [yieldWorkers]:
    as long as some thread has not returned from [wait()], some thread that
    is not asleep can make its next move; the threads are never all asleep
    or stuck on the mutex. *)
Theorem Phase_no_deadlock (threadCount : nat) (yield0 : bool)
    (schedule : list Phase.event)
  (Hcount : 1 <= Z.of_nat threadCount <= INT_MAX) :
  let s := Phase.run schedule (Phase.start threadCount yield0) in
  forallb Phase.is_returned (Phase.threads s) = false ->
  exists tid p,
    nth_error (Phase.threads s) tid = Some p
    /\ p <> Phase.Sleeping
    /\ Phase.move tid s <> None.
Proof.
  intros s. apply Phase_some_move.
  apply Phase_run_consistent, Phase_start_consistent. exact Hcount.
Qed.


Lemma Phase_work_num :
  forall l, Phase.work l
            = (7 * Phase.num Phase.Entry l + 6 * Phase.num Phase.Zero l
               + 5 * Phase.num Phase.ReadYield l + 4 * Phase.num Phase.Lock l
               + 3 * Phase.num Phase.Notify l + 2 * Phase.num Phase.ClearYield l
               + 4 * Phase.num Phase.SpinYield l + Phase.num Phase.SpinCount l
               + 3 * Phase.num Phase.WaitLock l + 2 * Phase.num Phase.WaitPred l
               + 4 * Phase.num Phase.WaitSleep l + 3 * Phase.num Phase.Sleeping l
               + Phase.num Phase.Unlock l)%nat.
Proof.
  intros l; induction l as [|a l IH]; [reflexivity|].
  unfold Phase.work, Phase.num in *. simpl map. simpl list_sum.
  rewrite !Phase_cnt_cons, IH. destruct a; simpl; lia.
Qed.

Lemma Phase_work_wake (l : list Phase.pc) :
  Phase.work (map Phase.wake l) = Phase.work l.
Proof.
  unfold Phase.work. induction l as [|a l IH]; [reflexivity|].
  simpl. rewrite IH. now destruct a.
Qed.

(** Before the reset of [count] the moves of the arriving threads and of
    the last thread, and after it every move, are one move less to make. *)
Lemma Phase_move_work (tid : nat) (p : Phase.pc) (s s' : Phase.t) :
  nth_error (Phase.threads s) tid = Some p ->
  p <> Phase.Sleeping ->
  p = Phase.Entry \/ p = Phase.Zero \/ Phase.count s = 0 ->
  Phase.move tid s = Some s' ->
  (Phase.work (Phase.threads s') < Phase.work (Phase.threads s))%nat.
Proof.
  intros En Hs Hp Hm. destruct s as [c tot y lk l]. unfold Phase.move in Hm.
  cbn [Phase.count Phase.total Phase.yield Phase.locked Phase.threads] in *.
  rewrite En in Hm.
  assert (Hstep : forall p', (Phase.work (replace_nth l tid p') + Phase.weight p
                              = Phase.work l + Phase.weight p')%nat).
  { intros p'. clear Hm Hs Hp. revert tid En.
    unfold Phase.work. induction l as [|a l IH]; intros [|n] H; simpl in H;
      try discriminate.
    - injection H as ->. simpl. lia.
    - specialize (IH n H). simpl. lia. }
  assert (Hc0 : p = Phase.SpinCount \/ p = Phase.WaitPred -> (c =? 0) = true).
  { intros [E | E]; subst p; destruct Hp as [H|[H|H]]; try discriminate;
      now apply Z.eqb_eq. }
  destruct p; try contradiction; try discriminate.
  - destruct (wrap_int (c + 1) =? tot); injection Hm as <-; simpl;
      [specialize (Hstep Phase.Zero) | specialize (Hstep Phase.SpinYield)];
      simpl in Hstep; lia.
  - injection Hm as <-. simpl. specialize (Hstep Phase.ReadYield). simpl in Hstep. lia.
  - destruct y; injection Hm as <-; simpl;
      [specialize (Hstep Phase.Lock) | specialize (Hstep Phase.Returned)];
      simpl in Hstep; lia.
  - destruct lk; [discriminate|]. injection Hm as <-. simpl.
    specialize (Hstep Phase.Notify). simpl in Hstep. lia.
  - injection Hm as <-. simpl.
    assert (En' : nth_error (map Phase.wake l) tid = Some Phase.Notify)
      by (rewrite nth_error_map, En; reflexivity).
    assert (Hstep' : (Phase.work (replace_nth (map Phase.wake l) tid Phase.ClearYield)
                      + Phase.weight Phase.Notify
                      = Phase.work (map Phase.wake l)
                        + Phase.weight Phase.ClearYield)%nat).
    { clear Hstep Hs Hp Hc0 En. revert tid En'. generalize (map Phase.wake l).
      unfold Phase.work. intros l0. induction l0 as [|a l0 IH]; intros [|n] H;
        simpl in H; try discriminate.
      - injection H as ->. simpl. lia.
      - specialize (IH n H). simpl in *. lia. }
    rewrite Phase_work_wake in Hstep'. simpl in Hstep'. lia.
  - injection Hm as <-. simpl. specialize (Hstep Phase.Unlock). simpl in Hstep. lia.
  - destruct y; injection Hm as <-; simpl;
      [specialize (Hstep Phase.WaitLock) | specialize (Hstep Phase.SpinCount)];
      simpl in Hstep; lia.
  - rewrite Hc0 in Hm by auto. injection Hm as <-. simpl.
    specialize (Hstep Phase.Returned). simpl in Hstep. lia.
  - destruct lk; [discriminate|]. injection Hm as <-. simpl.
    specialize (Hstep Phase.WaitPred). simpl in Hstep. lia.
  - rewrite Hc0 in Hm by auto. injection Hm as <-. simpl.
    specialize (Hstep Phase.Unlock). simpl in Hstep. lia.
  - injection Hm as <-. simpl. specialize (Hstep Phase.Sleeping). simpl in Hstep. lia.
  - injection Hm as <-. simpl. specialize (Hstep Phase.Returned). simpl in Hstep. lia.
Qed.

(** The move to make next: an arriving thread, else the last thread on its
    way to the reset, else any thread that is awake. *)
Lemma Phase_next_move (s : Phase.t) :
  Phase.consistent s ->
  forallb Phase.is_returned (Phase.threads s) = false ->
  exists tid s',
    Phase.awake_move tid s = Some s'
    /\ (Phase.work (Phase.threads s') < Phase.work (Phase.threads s))%nat.
Proof.
  intros Hc Hnot.
  assert (Hgo : forall tid p,
             nth_error (Phase.threads s) tid = Some p -> p <> Phase.Sleeping ->
             Phase.move tid s <> None ->
             p = Phase.Entry \/ p = Phase.Zero \/ Phase.count s = 0 ->
             exists tid s',
               Phase.awake_move tid s = Some s'
               /\ (Phase.work (Phase.threads s') < Phase.work (Phase.threads s))%nat).
  { intros tid p Hn Hs Hm Hp.
    destruct (Phase.move tid s) as [s'|] eqn:E; [|congruence].
    exists tid, s'. split.
    - unfold Phase.awake_move. rewrite Hn. destruct p; try exact E. contradiction.
    - eapply Phase_move_work; eassumption. }
  destruct (Nat.eq_dec (Phase.num Phase.Entry (Phase.threads s)) 0) as [E1|E1].
  - destruct (Nat.eq_dec (Phase.num Phase.Zero (Phase.threads s)) 0) as [E2|E2].
    + assert (Hzero : Phase.count s = 0).
      { destruct Hc as [_ [_ [I1 [I2 _]]]].
        rewrite Phase_cnt_is_entry, Phase_cnt_is_zero in *.
        destruct (Nat.eq_dec (Phase.cnt Phase.is_after (Phase.threads s)) 0) as [A|A].
        - specialize (I2 A). lia.
        - apply I1. lia. }
      destruct (Phase_some_move s Hc Hnot) as [tid [p [Hn [Hs Hm]]]].
      apply (Hgo tid p Hn Hs Hm). auto.
    + assert (Hin : In Phase.Zero (Phase.threads s)) by (apply Phase_num_pos; lia).
      apply In_nth_error in Hin. destruct Hin as [tid Hn].
      apply (Hgo tid Phase.Zero Hn); [discriminate | | auto].
      unfold Phase.move. rewrite Hn. discriminate.
  - assert (Hin : In Phase.Entry (Phase.threads s)) by (apply Phase_num_pos; lia).
    apply In_nth_error in Hin. destruct Hin as [tid Hn].
    apply (Hgo tid Phase.Entry Hn); [discriminate | | auto].
    unfold Phase.move. rewrite Hn. discriminate.
Qed.

Lemma Phase_awake_move_consistent (tid : nat) (s s' : Phase.t) :
  Phase.consistent s -> Phase.awake_move tid s = Some s' -> Phase.consistent s'.
Proof.
  unfold Phase.awake_move. intros Hc H.
  apply (Phase_move_consistent tid s s' Hc).
  destruct (nth_error (Phase.threads s) tid) as [[]|]; try exact H; discriminate.
Qed.

Lemma Phase_finishes (n : nat) :
  forall s,
    Phase.consistent s -> (Phase.work (Phase.threads s) <= n)%nat ->
    exists tids,
      forallb Phase.is_returned (Phase.threads (Phase.finish tids s)) = true.
Proof.
  induction n as [|n IH]; intros s Hc Hw;
    (destruct (forallb Phase.is_returned (Phase.threads s)) eqn:E;
     [exists []; exact E|]);
    destruct (Phase_next_move s Hc E) as [tid [s' [Hm Hlt]]].
  - lia.
  - destruct (IH s') as [tids Htids].
    + eapply Phase_awake_move_consistent; eassumption.
    + lia.
    + exists (tid :: tids). simpl. rewrite Hm. exact Htids.
Qed.

(** X27.  The barrier can always be passed.  When [threadCount >= 1]
    threads call [wait()] on an idle HybridBarrier whose [total] is their
    number, then from whatever state an interleaving of their moves and of
    [yieldWorkers] has led to, the threads can go on so that all of them
    return from [wait()], without any thread waking up by itself from
    [cv.wait] and without [yieldWorkers] striking again: the sleepers are
    woken by the last thread's [cv.notify_all()]. *)
Theorem Phase_can_complete (threadCount : nat) (yield0 : bool)
    (schedule : list Phase.event)
  (Hcount : 1 <= Z.of_nat threadCount <= INT_MAX) :
  exists tids,
    forallb Phase.is_returned
      (Phase.threads
         (Phase.finish tids (Phase.run schedule (Phase.start threadCount yield0))))
    = true.
Proof.
  eapply Phase_finishes; [|apply Nat.le_refl].
  apply Phase_run_consistent, Phase_start_consistent. exact Hcount.
Qed.

(** * The further properties at work on the demo rack *)

(** On the demo rack id 1 finds module 2, and id 7 finds nothing. *)
Lemma getModule_lookup_witness :
  getModule demo_world 1 = Some 2%positive /\ getModule demo_world 7 = None.
Proof.
  destruct (getModule_lookup demo_world 1) as [_ [_ H3]].
  destruct (getModule_lookup demo_world 7) as [[_ H1] _].
  split.
  - apply (H3 (proj1 demo_world_I1) 2%positive). simpl. auto.
  - apply H1. intros m [<-|[<-|[<-|[]]]]; vm_compute; discriminate.
Defined.

(** Module 4 is added to the demo rack under the id 3 and found there;
    module 2 is still found under id 1; module 1 is refused. *)
Lemma addModule_then_getModule_witness :
  (exists w',
     addModule demo_world (Some 4%positive) = Ok w'
     /\ getModule w' 3 = Some 4%positive
     /\ getModule w' 1 = Some 2%positive)
  /\ addModule demo_world (Some 1%positive) = AssertFail.
Proof.
  split.
  - destruct (addModule_then_getModule demo_world 4%positive demo_onAdd_keeps_ids)
      as [_ H].
    eexists. split; [reflexivity|].
    destruct (H _ eq_refl) as [A B]; [exact (proj2 demo_world_I1)|].
    split; [exact A | apply B; reflexivity].
  - apply (proj1 (addModule_then_getModule demo_world 1%positive demo_onAdd_keeps_ids)).
    left. simpl. auto.
Defined.

(** Module 3 leaves the demo rack: id 2 finds nothing any more, id 1 still
    finds module 2; module 1, which has a cable, is refused. *)
Lemma removeModule_then_getModule_witness :
  (exists w',
     removeModule demo_world (Some 3%positive) = Ok w'
     /\ ~ In 3%positive (modules (internal w'))
     /\ getModule w' 2 = None
     /\ getModule w' 1 = Some 2%positive)
  /\ removeModule demo_world (Some 1%positive) = AssertFail.
Proof.
  split.
  - destruct (removeModule_then_getModule demo_world 3%positive demo_onRemove_keeps_ids)
      as [_ [_ H]].
    eexists. split; [reflexivity|].
    destruct (H _ eq_refl (proj1 demo_world_I1)) as [A [B D]].
    split; [exact A|]. split; [exact B|].
    apply (D 2%positive); [simpl; auto | discriminate].
  - apply (proj1 (removeModule_then_getModule demo_world 1%positive
                    demo_onRemove_keeps_ids)).
    right. exists 1%positive. split; [simpl; auto | left; reflexivity].
Defined.

Lemma demo_world_no_cable_on_4 (c : addr) :
  In c (cables (internal demo_world)) -> ~ cable_references (cabs demo_world c) 4%positive.
Proof. intros [<-|[]] [H|H]; discriminate. Qed.

(** Adding module 4 to the demo rack and removing it again. *)
Lemma addModule_removeModule_roundtrip_witness :
  exists w1 w2,
    addModule demo_world (Some 4%positive) = Ok w1
    /\ removeModule w1 (Some 4%positive) = Ok w2
    /\ modules (internal w2) = [1; 2; 3]%positive
    /\ nextModuleId (internal demo_world) <= nextModuleId (internal w2).
Proof.
  destruct (addModule_removeModule_roundtrip demo_world 4%positive)
    as [w1 [w2 [H1 [H2 [H3 [_ [_ [_ [_ H8]]]]]]]]].
  - simpl. intuition discriminate.
  - simpl. lia.
  - exact demo_world_no_cable_on_4.
  - exists w1, w2. split; [exact H1|]. split; [exact H2|]. split; [exact H3|].
    apply H8; unfold is_int, INT_MIN, INT_MAX; simpl; lia.
Defined.

(** An expander that names id 1 and caches nothing is resolved to module
    2 of the demo rack; one that names id 9 stays unresolved. *)
Lemma Engine_updateExpander_resolves_witness :
  Expander_module
    (Engine_updateExpander demo_mods [1; 2; 3]%positive
       (mkExpander 1 None None None false)) = Some 2%positive
  /\ (forall x, In x [1; 2; 3]%positive -> Module_id (demo_mods x) <> 9).
Proof.
  split; [reflexivity|].
  destruct (Engine_updateExpander_resolves demo_mods [1; 2; 3]%positive
              (mkExpander 9 None None None false)) as [[_ [_ H]] _].
  apply H; [simpl; lia | reflexivity].
Defined.

(** Resolving the expanders of the demo rack keeps module 2's right
    expander on module 3, whose id it names. *)
Lemma Engine_updateExpanders_resolves_witness :
  Expander_module (rightExpander (mods (Engine_updateExpanders demo_world) 2%positive))
  = Some 3%positive
  /\ Module_id (mods (Engine_updateExpanders demo_world) 3%positive) = 2.
Proof.
  destruct (Engine_updateExpanders_resolves demo_world) as [_ [_ [_ [_ [H _]]]]].
  destruct (H 2%positive rightExpander) as [_ [H2 _]];
    [simpl; auto | right; reflexivity|].
  split; [reflexivity|]. apply (H2 3%positive). reflexivity.
Defined.

Lemma demo_cables_registered_ports_ok (c : addr) :
  In c (cables (internal demo_world)) -> cable_ports_ok demo_world c.
Proof. intros H. apply demo_cables_ports_ok. apply in_or_app. now left. Qed.

(** On the demo rack, whose only cable runs from output 0 of module 1 to
    input 0 of module 2, refreshing the flags marks these two ports and
    leaves output 1 of module 1 unmarked. *)
Lemma Engine_updateConnected_active_witness :
  exists w',
    Engine_updateConnected demo_world = Ok w'
    /\ port_active (inputs (mods w' 2%positive)) 0
    /\ port_active (outputs (mods w' 1%positive)) 0
    /\ ~ port_active (outputs (mods w' 1%positive)) 1.
Proof.
  destruct (Engine_updateConnected_active demo_world demo_cables_registered_ports_ok)
    as [w' [H1 [_ [_ [_ [_ H]]]]]].
  exists w'. split; [exact H1|].
  split; [|split].
  - apply (H 2%positive 0); [simpl; auto|].
    exists 1%positive. split; [simpl; auto | split; reflexivity].
  - apply (H 1%positive 0); [simpl; auto|].
    exists 1%positive. split; [simpl; auto | split; reflexivity].
  - intros Hact. apply (H 1%positive 1) in Hact; [|simpl; auto].
    destruct Hact as [c [[<-|[]] [_ Hc]]]. discriminate.
Defined.

(** Cable 1 is removed from the demo rack: the rack has no cable left and
    input 0 of module 2 has 0 channels and is inactive; cable 2, which is
    not registered, is refused. *)
Lemma removeCable_unplugs_witness :
  (exists w' p,
     removeCable demo_world (Some 1%positive) = Ok w'
     /\ cables (internal w') = []
     /\ vec_get (inputs (mods w' 2%positive)) 0 = Ok p
     /\ channels p = 0 /\ active p = false)
  /\ removeCable demo_world (Some 2%positive) = AssertFail.
Proof.
  split.
  - destruct (proj2 (removeCable_unplugs demo_world 1%positive)) with (im := 2%positive)
      as [w' [p [H1 [H2 [_ [_ [_ [_ [_ [_ [H9 [H10 H11]]]]]]]]]]]].
    + simpl. auto.
    + exact demo_world_I3.
    + exact demo_cables_registered_ports_ok.
    + reflexivity.
    + simpl. auto.
    + exists w', p. repeat split; assumption.
  - apply (proj1 (removeCable_unplugs demo_world 2%positive)).
    simpl. intuition discriminate.
Defined.

Lemma demo_world_I2 : I2 demo_world.
Proof.
  unfold I2. simpl. split.
  - repeat constructor. simpl. tauto.
  - repeat constructor.
Qed.

(** Adding cable 2 to the demo rack, and removing cable 1 from it, keep
    the cable ids distinct and below [nextCableId]. *)
Lemma cables_keep_I2_witness :
  (exists w', addCable demo_world (Some 2%positive) = Ok w' /\ I2 w'
              /\ nextCableId (internal w') = 2)
  /\ (exists w', removeCable demo_world (Some 1%positive) = Ok w' /\ I2 w').
Proof.
  assert (Hint : is_int (nextCableId (internal demo_world)))
    by (unfold is_int, INT_MIN, INT_MAX; simpl; lia).
  split.
  - destruct (cables_keep_I2 demo_world 2%positive demo_world_I2 Hint) as [H _].
    eexists. split; [reflexivity|].
    destruct (H _ eq_refl) as [A _]; [| |split; [exact A | reflexivity]];
      unfold INT_MAX; simpl; lia.
  - destruct (cables_keep_I2 demo_world 1%positive demo_world_I2 Hint) as [_ H].
    eexists. split; [reflexivity|].
    exact (proj1 (H _ eq_refl)).
Defined.

(** Plugging cable 2 into the demo rack and pulling it out again. *)
Lemma addCable_removeCable_roundtrip_witness :
  exists w1 w2 p,
    addCable demo_world (Some 2%positive) = Ok w1
    /\ removeCable w1 (Some 2%positive) = Ok w2
    /\ cables (internal w2) = [1%positive]
    /\ vec_get (inputs (mods w2 3%positive)) 0 = Ok p
    /\ channels p = 0 /\ active p = false.
Proof.
  destruct (addCable_removeCable_roundtrip demo_world 2%positive 3%positive
              demo_cable_2_no_conflict demo_world_I3 demo_cables_ports_ok eq_refl)
    as [w1 [w2 [p [H1 [H2 [H3 [_ [_ [_ [H7 [H8 H9]]]]]]]]]]].
  - simpl. auto.
  - exists w1, w2, p. repeat split; assumption.
Defined.

(** Setting param 1 of module 1 of the demo rack, which is being smoothed,
    to 3 cancels the smoothing; setting param 0 of module 2 does not. *)
Lemma setParam_cancels_smoothing_witness :
  (exists w',
     setParam demo_world (Some 1%positive) 1 (b32 3 0) = Ok w'
     /\ getSmoothParam w' (Some 1%positive) 1 = Ok (b32 3 0)
     /\ smoothModule (internal w') = None)
  /\ (exists w',
        setParam demo_world (Some 2%positive) 0 (b32 3 0) = Ok w'
        /\ getParam w' (Some 2%positive) 0 = Ok (b32 3 0)
        /\ smoothModule (internal w') = Some 1%positive
        /\ getParam w' (Some 1%positive) 1 = Ok (b32 1 (-1))).
Proof.
  split.
  - destruct (setParam_cancels_smoothing demo_world 1%positive 1 (b32 3 0))
      as [w' [H1 [_ [H3 [_ [H5 _]]]]]]; [simpl; lia|].
    exists w'. split; [exact H1|]. split; [exact H3|]. apply H5. reflexivity.
  - destruct (setParam_cancels_smoothing demo_world 2%positive 0 (b32 3 0))
      as [w' [H1 [H2 [_ [H4 [_ H6]]]]]]; [simpl; lia|].
    exists w'. split; [exact H1|]. split; [exact H2|].
    split; [apply H6; discriminate|].
    rewrite H4 by discriminate. reflexivity.
Defined.

(** Three steps of the demo rack with nothing to smooth leave param 1 of
    module 1 at 0.5. *)
Lemma Engine_steps_idle_witness :
  exists w',
    Engine_steps 3 (with_internal (set_smoothModule None) demo_world) = Ok w'
    /\ smoothModule (internal w') = None
    /\ getParam w' (Some 1%positive) 1 = Ok (b32 1 (-1)).
Proof.
  destruct (Engine_steps_idle 3 (with_internal (set_smoothModule None) demo_world)
              demo_process_keeps_params demo_Cable_step_keeps_params eq_refl)
    as [w' [H1 [H2 [_ [_ [_ H6]]]]]].
  exists w'. split; [exact H1|]. split; [exact H2|].
  rewrite H6. reflexivity.
Defined.

(** Two steps into the smoothing of param 1 of module 1 of the demo rack
    towards 1, [getSmoothParam] still answers 1. *)
Lemma getSmoothParam_steady_witness :
  exists w',
    Engine_steps 2 demo_world = Ok w'
    /\ getSmoothParam w' (Some 1%positive) 1 = Ok (b32 1 0).
Proof.
  destruct (getSmoothParam_steady 2 demo_world 1%positive 1 (b32 1 0)
              demo_process_keeps_params demo_Cable_step_keeps_params
              eq_refl eq_refl eq_refl)
    as [w' [H1 [H2 _]]]; [simpl; lia|].
  exists w'. split; [exact H1 | exact H2].
Defined.

(** On the demo rack param 0 of module 3 is handle 1's; the lookup by the
    null module and param 0 finds the blank handle 2; param 1 of module 3
    has no handle. *)
Lemma getParamHandle_lookup_witness :
  getParamHandle demo_world (Some 3%positive) 0 = Some 1%positive
  /\ getParamHandle demo_world None 0 = Some 2%positive
  /\ getParamHandle demo_world (Some 3%positive) 1 = None.
Proof.
  split; [|split].
  - apply (proj2 (getParamHandle_lookup demo_world (Some 3%positive) 0)).
    exists [], [2%positive]. split; [reflexivity|]. split; [reflexivity|]. intros q [].
  - apply (proj2 (getParamHandle_lookup demo_world None 0)).
    exists [1%positive], []. split; [reflexivity|]. split; [reflexivity|].
    intros q [<-|[]]. discriminate.
  - apply (proj1 (getParamHandle_lookup demo_world (Some 3%positive) 1)).
    intros h [<-|[<-|[]]]; discriminate.
Defined.

(** Handle 1 leaves the demo rack with its target but without its cached
    module; handle 3, which is not registered, is refused. *)
Lemma removeParamHandle_erases_witness :
  (exists w',
     removeParamHandle demo_world (Some 1%positive) = Ok w'
     /\ paramHandles (internal w') = [2%positive]
     /\ hdls w' 1%positive = mkParamHandle 2 0 None)
  /\ removeParamHandle demo_world (Some 3%positive) = AssertFail.
Proof.
  split.
  - destruct (removeParamHandle_erases demo_world 1%positive) as [_ [_ H]].
    eexists. split; [reflexivity|].
    destruct (H _ eq_refl) as [A _]. split; [exact A | reflexivity].
  - apply (proj1 (removeParamHandle_erases demo_world 3%positive)).
    simpl. intuition discriminate.
Defined.

(** Registering the blank handle 3 on the demo rack and removing it again. *)
Lemma addParamHandle_removeParamHandle_roundtrip_witness :
  exists w1 w2,
    addParamHandle demo_world (Some 3%positive) = Ok w1
    /\ removeParamHandle w1 (Some 3%positive) = Ok w2
    /\ internal w2 = internal demo_world
    /\ hdls w2 3%positive = mkParamHandle (-1) 0 None.
Proof.
  eexists.
  destruct (addParamHandle_removeParamHandle_roundtrip demo_world _ 3%positive eq_refl)
    as [w2 [H1 [H2 [_ [_ [H5 _]]]]]].
  exists w2. split; [reflexivity|]. split; [exact H1|]. split; [exact H2 | exact H5].
Defined.

Lemma demo_handles_exclusive : handles_exclusive demo_world.
Proof.
  intros h1 h2 H1 H2. simpl in H1, H2.
  destruct H1 as [<-|[<-|[]]], H2 as [<-|[<-|[]]]; simpl; intros; try reflexivity; lia.
Qed.

Lemma demo_world_I5_full : I5_full demo_world.
Proof.
  intros h m Hin Hm. simpl in Hin. destruct Hin as [<-|[<-|[]]]; simpl in *.
  - injection Hm as <-. split; [auto | reflexivity].
  - discriminate.
Qed.

(** Aiming handle 2 of the demo rack at handle 1's target, with and without
    [overwrite], leaves no two handles on one param. *)
Lemma handles_stay_exclusive_witness :
  (exists w', updateParamHandle demo_world (Some 2%positive) 2 0 true = Ok w'
              /\ handles_exclusive w')
  /\ (exists w', updateParamHandle demo_world (Some 2%positive) 2 0 false = Ok w'
                 /\ handles_exclusive w').
Proof.
  destruct (handles_stay_exclusive demo_world 2%positive demo_handles_exclusive)
    as [H _].
  split; apply H.
Defined.

(** Aiming handle 2 of the demo rack at param 1 of module id 1 binds it to
    module 2, and every cached module still carries its handle's id. *)
Lemma handle_operations_keep_I5_witness :
  exists w',
    updateParamHandle demo_world (Some 2%positive) 1 1 false = Ok w'
    /\ ParamHandle_module (hdls w' 2%positive) = Some 2%positive
    /\ I5_full w'.
Proof.
  destruct (handle_operations_keep_I5 demo_world 2%positive demo_world_I5_full)
    as [H _].
  destruct (H 1 1 false) as [w' [H1 H2]].
  exists w'. split; [exact H1|]. split; [|exact H2].
  injection H1 as <-. reflexivity.
Defined.

(** Aiming handle 2 of the demo rack at handle 1's target with [overwrite]:
    the lookup of param 0 of module 3 now answers handle 2. *)
Lemma updateParamHandle_then_getParamHandle_witness :
  exists w',
    updateParamHandle demo_world (Some 2%positive) 2 0 true = Ok w'
    /\ getParamHandle demo_world (Some 3%positive) 0 = Some 1%positive
    /\ getParamHandle w' (Some 3%positive) 0 = Some 2%positive.
Proof.
  destruct (updateParamHandle_then_getParamHandle demo_world 2%positive 3%positive
              2 0 true) as [w' [H1 [H2 _]]].
  - simpl. auto.
  - simpl. auto.
  - reflexivity.
  - lia.
  - exact (proj1 demo_world_I1).
  - exact demo_world_I5.
  - now left.
  - exists w'. split; [exact H1|]. split; [reflexivity | exact H2].
Defined.

(** Removing module 3 from the demo rack, and adding module 4 to it, leave
    every cached module of a handle registered and of the handle's id. *)
Lemma module_operations_keep_I5_witness :
  (exists w', removeModule demo_world (Some 3%positive) = Ok w'
              /\ ParamHandle_module (hdls w' 1%positive) = None /\ I5_full w')
  /\ (exists w', addModule demo_world (Some 4%positive) = Ok w' /\ I5_full w').
Proof.
  split.
  - destruct (module_operations_keep_I5 demo_world 3%positive
                demo_onAdd_keeps_ids demo_onRemove_keeps_ids demo_world_I5_full)
      as [_ H].
    eexists. split; [reflexivity|]. split; [reflexivity|]. apply H. reflexivity.
  - destruct (module_operations_keep_I5 demo_world 4%positive
                demo_onAdd_keeps_ids demo_onRemove_keeps_ids demo_world_I5_full)
      as [H _].
    eexists. split; [reflexivity|]. apply H. reflexivity.
Defined.

(** Two threads share three modules: thread 1 fetches index 0, thread 0
    fetches 1, steps it and fetches 2; in the end each module has been
    stepped once and [workerModuleIndex] is 5. *)
Lemma Workers_step_each_module_once_witness :
  let s := Workers.run 3 [1; 0; 0; 0; 1; 1; 0; 0; 1]%nat (Workers.start 2) in
  Workers.stepped s = [2; 0; 1]
  /\ NoDup (Workers.stepped s)
  /\ Workers.workerModuleIndex s = 5.
Proof.
  intros s.
  destruct (Workers_step_each_module_once 3 2 [1; 0; 0; 0; 1; 1; 0; 0; 1]%nat)
    as [H1 [_ H3]]; [lia | unfold INT_MAX; lia|].
  fold s in H1, H3.
  split; [reflexivity|]. split; [exact H1|].
  apply H3; [reflexivity | lia].
Defined.

(** The same run makes [2 * 3 + 2] moves, however long the schedule goes
    on; one move earlier some thread can still move. *)
Lemma Workers_loop_ends_witness :
  Workers.moves 3 [1; 0; 0; 0; 1; 1; 0; 0; 1; 1; 0]%nat (Workers.start 2) = 8%nat
  /\ exists tid,
       Workers.step 3 tid (Workers.run 3 [1; 0; 0; 0; 1; 1; 0]%nat (Workers.start 2))
       <> None.
Proof.
  split.
  - destruct (Workers_loop_ends 3 2 [1; 0; 0; 0; 1; 1; 0; 0; 1; 1; 0]%nat)
      as [_ [H _]]; [lia | unfold INT_MAX; lia|].
    apply Nat2Z.inj. rewrite H; [reflexivity | reflexivity | lia].
  - destruct (Workers_loop_ends 3 2 [1; 0; 0; 0; 1; 1; 0]%nat)
      as [_ [_ H]]; [lia | unfold INT_MAX; lia|].
    apply H. unfold Workers.all_finished. vm_compute. discriminate.
Defined.

(** Two threads on a barrier: thread 0 enters and spins; [yieldWorkers]
    strikes; thread 0 goes to sleep on the condition variable; thread 1
    enters last, resets [count], notifies and returns; thread 0 wakes up
    and returns. *)
Lemma Phase_no_early_return_witness :
  let sleeping :=
    [Phase.Move 0; Phase.Move 0; Phase.Move 0; Phase.YieldWorkers; Phase.Move 0;
     Phase.Move 0; Phase.Move 0; Phase.Move 0]%nat in
  let waking :=
    [Phase.Move 1; Phase.Move 1; Phase.Move 1; Phase.Move 1; Phase.Move 1;
     Phase.Move 1; Phase.Move 1; Phase.Move 0; Phase.Move 0; Phase.Move 0]%nat in
  Phase.threads (Phase.run sleeping (Phase.start 2 false))
  = [Phase.Sleeping; Phase.Entry]
  /\ let s := Phase.run (sleeping ++ waking) (Phase.start 2 false) in
     Phase.threads s = [Phase.Returned; Phase.Returned]
     /\ Phase.count s = 0 /\ Phase.locked s = false /\ Phase.yield s = false.
Proof.
  intros sleeping waking. split; [reflexivity|]. intros s.
  destruct (Phase_no_early_return 2 false (sleeping ++ waking))
    as [_ [_ H]]; [unfold INT_MAX; lia|].
  fold s in H. destruct H as [A [B _]]; [reflexivity|].
  split; [reflexivity|]. split; [exact A|]. split; [exact B | reflexivity].
Defined.

(** While thread 0 of that run sleeps, [yield] is set and thread 1 has yet
    to enter. *)
Lemma Phase_no_lost_wakeup_witness :
  let s :=
    Phase.run
      [Phase.Move 0; Phase.Move 0; Phase.Move 0; Phase.YieldWorkers; Phase.Move 0;
       Phase.Move 0; Phase.Move 0; Phase.Move 0]%nat (Phase.start 2 false) in
  In Phase.Sleeping (Phase.threads s)
  /\ Phase.yield s = true
  /\ exists p, In p (Phase.threads s) /\ Phase.is_pending p = true.
Proof.
  intros s.
  assert (Hs : In Phase.Sleeping (Phase.threads s)) by (left; reflexivity).
  split; [exact Hs|].
  apply (Phase_no_lost_wakeup 2 false
           [Phase.Move 0; Phase.Move 0; Phase.Move 0; Phase.YieldWorkers; Phase.Move 0;
            Phase.Move 0; Phase.Move 0; Phase.Move 0]%nat).
  - unfold INT_MAX. lia.
  - left. exact Hs.
Defined.

(** While thread 0 of that run sleeps, a thread that is awake can move. *)
Lemma Phase_no_deadlock_witness :
  let s :=
    Phase.run
      [Phase.Move 0; Phase.Move 0; Phase.Move 0; Phase.YieldWorkers; Phase.Move 0;
       Phase.Move 0; Phase.Move 0; Phase.Move 0]%nat (Phase.start 2 false) in
  exists tid p,
    nth_error (Phase.threads s) tid = Some p
    /\ p <> Phase.Sleeping
    /\ Phase.move tid s <> None.
Proof.
  intros s.
  apply (Phase_no_deadlock 2 false
           [Phase.Move 0; Phase.Move 0; Phase.Move 0; Phase.YieldWorkers; Phase.Move 0;
            Phase.Move 0; Phase.Move 0; Phase.Move 0]%nat).
  - unfold INT_MAX. lia.
  - reflexivity.
Defined.

(** A block of 128 steps on the demo rack returns and leaves the slot
    valid. *)
Lemma Engine_run_batch_returns_witness :
  exists w',
    Engine_run_batch demo_world = Ok w'
    /\ modules (internal w') = [1; 2; 3]%positive
    /\ smooth_slot_ok w'.
Proof.
  assert (Hslot : smooth_slot_ok demo_world) by (unfold smooth_slot_ok; simpl; lia).
  destruct (Engine_run_batch_returns demo_world
              demo_process_keeps_params demo_Cable_step_keeps_params Hslot)
    as [w' [H1 [_ [H3 [_ [_ H6]]]]]].
  exists w'. split; [exact H1|]. split; [exact H3 | exact H6].
Defined.

(** From the state of that run in which thread 0 sleeps, the moves of
    thread 1 up to its [cv.notify_all()] and return, and then those of
    thread 0, take both threads out of [wait()]. *)
Lemma Phase_can_complete_witness :
  let s :=
    Phase.run
      [Phase.Move 0; Phase.Move 0; Phase.Move 0; Phase.YieldWorkers; Phase.Move 0;
       Phase.Move 0; Phase.Move 0; Phase.Move 0]%nat (Phase.start 2 false) in
  Phase.threads (Phase.finish [1; 1; 1; 1; 1; 1; 1; 0; 0; 0]%nat s)
  = [Phase.Returned; Phase.Returned]
  /\ exists tids,
       forallb Phase.is_returned (Phase.threads (Phase.finish tids s)) = true.
Proof.
  intros s. split; [reflexivity|].
  apply (Phase_can_complete 2 false
           [Phase.Move 0; Phase.Move 0; Phase.Move 0; Phase.YieldWorkers; Phase.Move 0;
            Phase.Move 0; Phase.Move 0; Phase.Move 0]%nat).
  unfold INT_MAX. lia.
Defined.
